(** * claude-run: the storage engine of [src/storage.ts]

    A shallow embedding of [ClaudeStorage]: the file index, the history
    cache, the session resolver, the conversation reader and the
    incremental stream reader, together with the request-coalescing
    registry of [dedupe].

    Modelling conventions.
    - File contents and the lines cut from them are byte strings
      ([list ascii]).  Decoding is the identity: the model covers ASCII
      text, where a JavaScript string and its UTF-8 encoding have the same
      length, so [Buffer.byteLength line] is [length line].
    - Paths, file names and session ids are [string]s; they are the keys
      of the [Map]s, modelled by [gmap].
    - Numbers ([fromOffset], [size], [mtimeMs], [timestamp]) are integers
      of [Z].
    - The file system is an explicit argument: a record of the calls the
      engine makes ([readdir], [readFile], [stat], [createReadStream]),
      each answering [None] when the promise rejects.  One operation runs
      against one such record; [stat] and [createReadStream] are separate
      fields, so the size observed by [stat] need not be the amount of
      data the stream delivers later (the producer may have appended).
    - [JSON.parse] is a parameter of the development (a [Section]
      variable); the examples instantiate it with a small reader for flat
      records.
    - The runtime is modelled where the code relies on it: [readline]
      with [crlfDelay: Infinity] ends a line at LF, CR or CR LF;
      [Array.prototype.sort] is stable; a promise settles once and its
      [finally] callback runs then. *)

From stdpp Require Import base option list gmap sets strings sorting.
From Stdlib Require Import ZArith Lia Ascii.

Local Open Scope Z_scope.

Set Warnings "-register-all".

(** ** Text: bytes, lines, whitespace *)

Module Text.

Abbreviation bytes := (list ascii).

Definition LF : ascii := "010"%char.
Definition CR : ascii := "013"%char.

Definition bytes_of (s : string) : bytes := String.list_ascii_of_string s.

(** The double quote, and a text written with apostrophes where it has
    double quotes. *)
Definition dquote : ascii := "034"%char.

Definition quoted (s : string) : bytes :=
  (λ c, if Ascii.eqb c "'"%char then dquote else c) <$> bytes_of s.

(** [Buffer.byteLength(line, "utf-8")] *)
Definition byteLength (line : bytes) : Z := Z.of_nat (length line).

(** White space of [String.prototype.trim] (within ASCII): TAB, LF, VT,
    FF, CR and SPACE. *)
Definition isWhite (c : ascii) : bool := Ascii.is_space c.

Fixpoint trimStart (s : bytes) : bytes :=
  match s with
  | c :: s' => if isWhite c then trimStart s' else s
  | [] => []
  end.

Definition trimEnd (s : bytes) : bytes := rev (trimStart (rev s)).

(** [s.trim()] *)
Definition trim (s : bytes) : bytes := trimEnd (trimStart s).

(** A JavaScript string is truthy when it is not empty. *)
Definition truthy (s : bytes) : bool :=
  match s with [] => false | _ :: _ => true end.

(** [line.trim()] used as a condition. *)
Definition nonBlank (line : bytes) : bool := truthy (trim line).

(** Put one more character in front of the first line of [ls]. *)
Definition pushFront (c : ascii) (ls : list bytes) : list bytes :=
  match ls with
  | [] => [[c]]
  | l :: ls' => (c :: l) :: ls'
  end.

(** [s.split("\n")]: always at least one piece. *)
Fixpoint splitLF (s : bytes) : list bytes :=
  match s with
  | [] => [[]]
  | c :: s' =>
      if Ascii.eqb c LF then [] :: splitLF s' else pushFront c (splitLF s')
  end.

(** The lines [readline] yields for the data of a stream, with
    [crlfDelay: Infinity]: a line ends at LF, at CR, or at CR LF taken as
    one ending.  [sawReturn] is the reader's flag "the previous character
    was CR": a LF met under it belongs to that ending.  A last line
    without ending is yielded when it is not empty. *)
Fixpoint readlineFrom (sawReturn : bool) (s : bytes) : list bytes :=
  match s with
  | [] => []
  | c :: s' =>
      if Ascii.eqb c LF then
        if sawReturn then readlineFrom false s'
        else [] :: readlineFrom false s'
      else if Ascii.eqb c CR then [] :: readlineFrom true s'
      else pushFront c (readlineFrom false s')
  end.

Definition readline (s : bytes) : list bytes := readlineFrom false s.

(** [s.endsWith(suffix)] on names. *)
Definition endsWith (s suffix : string) : bool :=
  let cs := bytes_of s in
  let suf := bytes_of suffix in
  bool_decide (drop (length cs - length suf)%nat cs = suf).

(** [basename(file, ext)] for a file name without directory part: the
    name without [ext] when it ends with it ([ext] itself gives the
    empty name), the name otherwise. *)
Definition basename (file ext : string) : string :=
  if endsWith file ext then
    String.string_of_list_ascii
      (take (length (bytes_of file) - length (bytes_of ext))%nat (bytes_of file))
  else file.

(** [join(dir, name)] for a plain name. *)
Definition join (dir name : string) : string := dir +:+ "/" +:+ name.

Fixpoint mapChars (f : ascii → ascii) (s : string) : string :=
  match s with
  | EmptyString => EmptyString
  | String c s' => String (f c) (mapChars f s')
  end.

(** [path.split("/")] on names, pieces in order. *)
Fixpoint splitSlash (s : string) : list string :=
  match s with
  | EmptyString => [EmptyString]
  | String c s' =>
      if Ascii.eqb c "/"%char then EmptyString :: splitSlash s'
      else match splitSlash s' with
           | p :: ps => String c p :: ps
           | [] => [String c EmptyString]
           end
  end.

End Text.

Import Text.

(** ** JSON values and the records read from them *)

Module Json.

(** What [JSON.parse] returns. *)
Inductive json : Type :=
| JNull
| JBool (b : bool)
| JNum (n : Z)
| JStr (s : string)
| JArr (items : list json)
| JObj (fields : list (string * json)).

Fixpoint assoc (key : string) (fields : list (string * json)) : option json :=
  match fields with
  | [] => None
  | (k, v) :: rest => if String.eqb k key then Some v else assoc key rest
  end.

(** [msg.type]: [None] when the access throws (the value is [null]);
    [Some None] when the property is [undefined]. *)
Definition getType (msg : json) : option (option json) :=
  match msg with
  | JNull => None
  | JObj fields => Some (assoc "type" fields)
  | _ => Some None
  end.

(** [t === tag] for a string literal [tag]. *)
Definition isTag (t : option json) (tag : string) : bool :=
  match t with
  | Some (JStr s) => String.eqb s tag
  | _ => false
  end.

End Json.

Import Json.

(** Modelled from the spec: the type declarations of [@claude-run/shared]
    ([HistoryEntry], [Session], [ConversationMessage], [StreamResult]) are
    not among the sources; the records follow section 3 of the
    specification and the fields the code reads and writes. *)
Module HistoryEntry.
Record t : Type := mk {
  sessionId : option string;
  project : string;
  timestamp : Z;
  display : string
}.
End HistoryEntry.

Module Session.
Record t : Type := mk {
  id : string;
  display : string;
  timestamp : Z;
  project : string;
  projectName : string
}.
End Session.

(** A [ConversationMessage] is the parsed record itself, passed through. *)
Abbreviation ConversationMessage := json.

Record StreamResult : Type := mkStreamResult {
  messages : list ConversationMessage;
  nextOffset : Z
}.

(** ** The file system seen by the engine *)

Module Dirent.
Record t : Type := mk { name : string; isDirectory : bool }.
End Dirent.

Module Stats.
Record t : Type := mk { size : Z; mtimeMs : Z }.
End Stats.

Record FileSystem : Type := mkFileSystem {
  (** [readdir(path)]; [None] when it rejects *)
  readdir : string → option (list Dirent.t);
  (** [readFile(path, "utf-8")] *)
  readFile : string → option bytes;
  (** [stat(path)] *)
  stat : string → option Stats.t;
  (** [open(path, "r")] then [createReadStream({start})] read to its end:
      the data from byte [start] on, [None] when opening or reading
      fails *)
  createReadStream : string → Z → option bytes
}.

(** [readdir(path)] without [withFileTypes]: the names. *)
Definition readdirNames (fs : FileSystem) (path : string) : option (list string) :=
  fmap (M:=list) Dirent.name <$> readdir fs path.

(** ** The engine state

    The fields of [ClaudeStorage] the operations read and write.  The
    registry [pendingRequests] is the state of [Coalesce] below. *)

Record ClaudeStorage : Type := mkClaudeStorage {
  claudeDir : string;
  projectsDir : string;
  fileIndex : gmap string string;
  historyCache : option (list HistoryEntry.t)
}.

Definition withFileIndex (st : ClaudeStorage) (index : gmap string string)
    : ClaudeStorage :=
  mkClaudeStorage (claudeDir st) (projectsDir st) index (historyCache st).

Definition withHistoryCache (st : ClaudeStorage)
    (cache : option (list HistoryEntry.t)) : ClaudeStorage :=
  mkClaudeStorage (claudeDir st) (projectsDir st) (fileIndex st) cache.

(** [new ClaudeStorage(claudeDir)] *)
Definition newStorage (dir : string) : ClaudeStorage :=
  mkClaudeStorage dir (join dir "projects") ∅ None.

(** A string used as a condition: [null] and the empty string are falsy. *)
Definition truthyName (s : option string) : option string :=
  match s with
  | Some EmptyString => None
  | other => other
  end.

(** ** [Array.prototype.sort] with a compare function

    The result of [sort] is fixed by the language for a consistent compare
    function: the sorted arrangement that keeps elements comparing equal
    in their original order.  It is computed here by insertion from the
    right. *)

Fixpoint insertSorted {A : Type} (cmp : A → A → Z) (x : A) (l : list A) : list A :=
  match l with
  | [] => [x]
  | y :: l' => if cmp x y <=? 0 then x :: l else y :: insertSorted cmp x l'
  end.

Definition sortWith {A : Type} (cmp : A → A → Z) (l : list A) : list A :=
  foldr (insertSorted cmp) [] l.

(** The default order of [sort()] on strings, as a compare function. *)
Definition compareStrings (a b : string) : Z :=
  match String.compare a b with
  | Lt => -1
  | Eq => 0
  | Gt => 1
  end.

(** ** The operations of [ClaudeStorage] *)

Section Storage.

(** [JSON.parse(line)] on a line of a session log; [None] when it
    throws. *)
Variable JSON_parse : bytes → option json.

(** [JSON.parse(line)] on a line of the history log, read at the
    declared type [HistoryEntry]; [None] when it throws. *)
Variable JSON_parse_entry : bytes → option HistoryEntry.t.

(** *** File index *)

(** The body of the loop over the files of one project directory. *)
Definition indexFile (projectPath : string)
    (index : gmap string string) (file : string) : gmap string string :=
  if endsWith file ".jsonl" then
    let sessionId := basename file ".jsonl" in
    <[sessionId := join projectPath file]> index
  else index.

Definition indexProject (fs : FileSystem) (root : string)
    (index : gmap string string) (dir : Dirent.t) : gmap string string :=
  let projectPath := join root (Dirent.name dir) in
  match readdirNames fs projectPath with
  | Some files => foldl (indexFile projectPath) index files
  | None => index
  end.

(** [buildFileIndex]: the directories are taken in listing order. *)
Definition buildFileIndex (fs : FileSystem) (st : ClaudeStorage) : ClaudeStorage :=
  match readdir fs (projectsDir st) with
  | Some projectDirs =>
      let directories := List.filter Dirent.isDirectory projectDirs in
      withFileIndex st
        (foldl (indexProject fs (projectsDir st)) (fileIndex st) directories)
  | None => st
  end.

(** [addToFileIndex] *)
Definition addToFileIndex (st : ClaudeStorage) (sessionId filePath : string) : ClaudeStorage :=
  withFileIndex st (<[sessionId := filePath]> (fileIndex st)).

(** What one project directory answers in the scan of
    [findSessionFile]. *)
Definition probeProject (fs : FileSystem) (root targetFile : string)
    (dir : Dirent.t) : option string :=
  let projectPath := join root (Dirent.name dir) in
  match readdirNames fs projectPath with
  | Some files =>
      if bool_decide (targetFile ∈ files) then Some (join projectPath targetFile)
      else None
  | None => None
  end.

(** [results.find((r) => r !== null)] *)
Fixpoint findNonNull (results : list (option string)) : option string :=
  match results with
  | [] => None
  | Some r :: _ => Some r
  | None :: rest => findNonNull rest
  end.

(** [findSessionFile] *)
Definition findSessionFile (fs : FileSystem) (st : ClaudeStorage)
    (sessionId : string) : option string * ClaudeStorage :=
  match fileIndex st !! sessionId with
  | Some path => (Some path, st)
  | None =>
      let targetFile := sessionId +:+ ".jsonl" in
      match readdir fs (projectsDir st) with
      | Some projectDirs =>
          let directories := List.filter Dirent.isDirectory projectDirs in
          let results := probeProject fs (projectsDir st) targetFile <$> directories in
          match truthyName (findNonNull results) with
          | Some filePath =>
              (Some filePath, withFileIndex st (<[sessionId := filePath]> (fileIndex st)))
          | None => (None, st)
          end
      | None => (None, st)
      end
  end.

(** *** History cache *)

(** [content.trim().split("\n").filter(Boolean)] *)
Definition contentLines (content : bytes) : list bytes :=
  List.filter truthy (splitLF (trim content)).

Definition pushEntry (entries : list HistoryEntry.t) (line : bytes) : list HistoryEntry.t :=
  match JSON_parse_entry line with
  | Some entry => entries ++ [entry]
  | None => entries
  end.

(** [loadHistoryCache] *)
Definition loadHistoryCache (fs : FileSystem) (st : ClaudeStorage)
    : list HistoryEntry.t * ClaudeStorage :=
  match readFile fs (join (claudeDir st) "history.jsonl") with
  | Some content =>
      let entries := foldl pushEntry [] (contentLines content) in
      (entries, withHistoryCache st (Some entries))
  | None => ([], withHistoryCache st (Some []))
  end.

(** [invalidateHistoryCache] *)
Definition invalidateHistoryCache (st : ClaudeStorage) : ClaudeStorage :=
  withHistoryCache st None.

(** [this.historyCache ?? (await this.loadHistoryCache())] *)
Definition historyEntries (fs : FileSystem) (st : ClaudeStorage)
    : list HistoryEntry.t * ClaudeStorage :=
  match historyCache st with
  | Some entries => (entries, st)
  | None => loadHistoryCache fs st
  end.


(** *** Session resolver *)

(** [path.replace(/[/.]/g, "-")] *)
Definition encodeProjectPath (path : string) : string :=
  mapChars
    (λ c, if Ascii.eqb c "/"%char || Ascii.eqb c "."%char then "-"%char else c)
    path.

(** [getProjectName] *)
Definition getProjectName (projectPath : string) : string :=
  let parts := List.filter (λ p, negb (String.eqb p "")) (splitSlash projectPath) in
  default projectPath (truthyName (last parts)).

(** The body of the loop of [findSessionByTimestamp];
    [closestTimeDiff] is [None] while it is [Infinity]. *)
Definition closer (timestamp : Z)
    (acc : option string * option Z) (fileStat : string * Z)
    : option string * option Z :=
  let '(closestFile, closestTimeDiff) := acc in
  let '(file, mtime) := fileStat in
  let timeDiff := Z.abs (mtime - timestamp) in
  if match closestTimeDiff with
     | None => true
     | Some d => timeDiff <? d
     end
  then (Some file, Some timeDiff)
  else acc.

(** [findSessionByTimestamp]; a [stat] that rejects makes [Promise.all]
    reject, which the [catch] turns into [null]. *)
Definition findSessionByTimestamp (fs : FileSystem) (root : string)
    (encodedProject : string) (timestamp : Z) : option string :=
  let projectPath := join root encodedProject in
  match readdirNames fs projectPath with
  | Some files =>
      let jsonlFiles := List.filter (λ f, endsWith f ".jsonl") files in
      match mapM (λ file,
               (λ fileStat, (file, Stats.mtimeMs fileStat))
                 <$> stat fs (join projectPath file)) jsonlFiles with
      | Some fileStats =>
          let '(closestFile, _) := foldl (closer timestamp) (None, None) fileStats in
          match truthyName closestFile with
          | Some file => Some (basename file ".jsonl")
          | None => None
          end
      | None => None
      end
  | None => None
  end.

(** The session id [getSessions] settles on for one history entry,
    before the test [!sessionId]. *)
Definition resolveSessionId (fs : FileSystem) (root : string)
    (entry : HistoryEntry.t) : option string :=
  match truthyName (HistoryEntry.sessionId entry) with
  | Some sessionId => Some sessionId
  | None =>
      let encodedProject := encodeProjectPath (HistoryEntry.project entry) in
      findSessionByTimestamp fs root encodedProject (HistoryEntry.timestamp entry)
  end.

Definition sessionOf (sessionId : string) (entry : HistoryEntry.t) : Session.t :=
  Session.mk sessionId (HistoryEntry.display entry) (HistoryEntry.timestamp entry)
    (HistoryEntry.project entry) (getProjectName (HistoryEntry.project entry)).

(** The body of the loop of [getSessions] over [sessions] and
    [seenIds]. *)
Definition collectSession (fs : FileSystem) (root : string)
    (acc : list Session.t * gset string) (entry : HistoryEntry.t)
    : list Session.t * gset string :=
  let '(sessions, seenIds) := acc in
  match truthyName (resolveSessionId fs root entry) with
  | Some sessionId =>
      if bool_decide (sessionId ∈ seenIds) then acc
      else (sessions ++ [sessionOf sessionId entry], {[sessionId]} ∪ seenIds)
  | None => acc
  end.

(** [(a, b) => b.timestamp - a.timestamp] *)
Definition byRecency (a b : Session.t) : Z :=
  Session.timestamp b - Session.timestamp a.

Definition collectSessions (fs : FileSystem) (root : string)
    (entries : list HistoryEntry.t) : list Session.t :=
  (foldl (collectSession fs root) ([], ∅) entries).1.

(** [getSessions], the computation handed to [dedupe]. *)
Definition getSessions (fs : FileSystem) (st : ClaudeStorage)
    : list Session.t * ClaudeStorage :=
  let '(entries, st') := historyEntries fs st in
  (sortWith byRecency (collectSessions fs (projectsDir st') entries), st').

Definition addProject (projects : list string) (entry : HistoryEntry.t) : list string :=
  match truthyName (Some (HistoryEntry.project entry)) with
  | Some project =>
      if bool_decide (project ∈ projects) then projects else projects ++ [project]
  | None => projects
  end.

(** [getProjects]; the [Set] keeps insertion order. *)
Definition getProjects (fs : FileSystem) (st : ClaudeStorage)
    : list string * ClaudeStorage :=
  let '(entries, st') := historyEntries fs st in
  (sortWith compareStrings (foldl addProject [] entries), st').

(** *** Conversation reader *)

(** [msg.type === "user" || msg.type === "assistant"] *)
Definition isUserOrAssistant (t : option json) : bool :=
  isTag t "user" || isTag t "assistant".

(** The body of the loop of [getConversation]: [push] appends,
    [unshift] prepends; whatever the [try] block throws skips the
    line. *)
Definition readLine (messages : list ConversationMessage) (line : bytes)
    : list ConversationMessage :=
  match JSON_parse line with
  | Some msg =>
      match getType msg with
      | Some t =>
          if isUserOrAssistant t then messages ++ [msg]
          else if isTag t "summary" then msg :: messages
          else messages
      | None => messages
      end
  | None => messages
  end.

(** [getConversation], the computation handed to [dedupe]. *)
Definition getConversation (fs : FileSystem) (st : ClaudeStorage)
    (sessionId : string) : list ConversationMessage * ClaudeStorage :=
  let '(filePath, st') := findSessionFile fs st sessionId in
  match truthyName filePath with
  | Some path =>
      match readFile fs path with
      | Some content => (foldl readLine [] (contentLines content), st')
      | None => ([], st')
      end
  | None => ([], st')
  end.

(** *** Incremental stream reader *)

(** The [for await] loop of [getConversationStream] over the lines
    still to come: the result is the final [messages] and
    [bytesConsumed].  A non-blank line on which the [try] block throws
    leaves the loop. *)
Fixpoint streamLoop (lines : list bytes)
    (messages : list ConversationMessage) (bytesConsumed : Z)
    : list ConversationMessage * Z :=
  match lines with
  | [] => (messages, bytesConsumed)
  | line :: rest =>
      let lineBytes := byteLength line + 1 in
      if nonBlank line then
        match JSON_parse line with
        | Some msg =>
            match getType msg with
            | Some t =>
                streamLoop rest
                  (if isUserOrAssistant t then messages ++ [msg] else messages)
                  (bytesConsumed + lineBytes)
            | None => (messages, bytesConsumed)
            end
        | None => (messages, bytesConsumed)
        end
      else streamLoop rest messages (bytesConsumed + lineBytes)
  end.

(** The part of [getConversationStream] after the file is open. *)
Definition readStream (fromOffset fileSize : Z) (data : bytes) : StreamResult :=
  let '(messages, bytesConsumed) := streamLoop (readline data) [] 0 in
  let actualOffset := fromOffset + bytesConsumed in
  let nextOffset := if actualOffset >? fileSize then fileSize else actualOffset in
  mkStreamResult messages nextOffset.

(** [getConversationStream] *)
Definition getConversationStream (fs : FileSystem) (st : ClaudeStorage)
    (sessionId : string) (fromOffset : Z) : StreamResult * ClaudeStorage :=
  let '(filePath, st') := findSessionFile fs st sessionId in
  match truthyName filePath with
  | None => (mkStreamResult [] 0, st')
  | Some path =>
      match stat fs path with
      | Some fileStat =>
          let fileSize := Stats.size fileStat in
          if fromOffset >=? fileSize then (mkStreamResult [] fromOffset, st')
          else
            match createReadStream fs path fromOffset with
            | Some data => (readStream fromOffset fileSize data, st')
            | None => (mkStreamResult [] fromOffset, st')
            end
      | None => (mkStreamResult [] fromOffset, st')
      end
  end.

(** [init]: the index is built and the history loaded. *)
Definition init (fs : FileSystem) (st : ClaudeStorage) : ClaudeStorage :=
  (loadHistoryCache fs (buildFileIndex fs st)).2.

End Storage.

(** ** A reader for flat JSON records

    The instance of [JSON.parse] used by the examples.  It reads [null]
    and objects whose members are string literals without escapes,
    unsigned integers or [null], with no white space between the tokens
    and JSON white space (space, TAB, LF, CR) allowed around the text.
    Everything else is refused; on the texts it accepts it yields what
    [JSON.parse] yields. *)

Module Reader.

Definition isJsonWhite (c : ascii) : bool :=
  Ascii.eqb c " "%char || Ascii.eqb c "009"%char
  || Ascii.eqb c LF || Ascii.eqb c CR.

Fixpoint skipWhite (s : bytes) : bytes :=
  match s with
  | c :: s' => if isJsonWhite c then skipWhite s' else s
  | [] => []
  end.

Definition strip (s : bytes) : bytes := rev (skipWhite (rev (skipWhite s))).

Definition isDigit (c : ascii) : bool :=
  (48 <=? nat_of_ascii c)%nat && (nat_of_ascii c <=? 57)%nat.

Definition digitValue (c : ascii) : Z := Z.of_nat (nat_of_ascii c - 48).

(** The characters of a string literal after its opening quote. *)
Fixpoint readString (s : bytes) : option (string * bytes) :=
  match s with
  | [] => None
  | c :: s' =>
      if Ascii.eqb c dquote then Some (EmptyString, s')
      else if Ascii.eqb c "\"%char || (nat_of_ascii c <? 32)%nat then None
      else match readString s' with
           | Some (str, rest) => Some (String c str, rest)
           | None => None
           end
  end.

Fixpoint readDigits (acc : Z) (s : bytes) : Z * bytes :=
  match s with
  | c :: s' => if isDigit c then readDigits (10 * acc + digitValue c) s' else (acc, s)
  | [] => (acc, [])
  end.

Definition readValue (s : bytes) : option (json * bytes) :=
  match s with
  | [] => None
  | c :: s' =>
      if Ascii.eqb c dquote then
        match readString s' with
        | Some (str, rest) => Some (JStr str, rest)
        | None => None
        end
      else if Ascii.eqb c "n"%char then
        if bool_decide (take 3 s' = bytes_of "ull") then Some (JNull, drop 3 s')
        else None
      else if Ascii.eqb c "0"%char then Some (JNum 0, s')
      else if isDigit c then
        let '(n, rest) := readDigits 0 s in Some (JNum n, rest)
      else None
  end.

(** [obj[key] = v]: a later member replaces an earlier one of the same
    name. *)
Fixpoint setField (key : string) (v : json) (fields : list (string * json))
    : list (string * json) :=
  match fields with
  | [] => [(key, v)]
  | (k, w) :: rest =>
      if String.eqb k key then (k, v) :: rest else (k, w) :: setField key v rest
  end.

(** The members of an object after the opening brace, up to and
    including the closing one. *)
Fixpoint readMembers (fuel : nat) (s : bytes) (fields : list (string * json))
    : option (list (string * json) * bytes) :=
  match fuel with
  | O => None
  | S fuel' =>
      match s with
      | c :: s1 =>
          if Ascii.eqb c dquote then
            match readString s1 with
            | Some (key, c2 :: s3) =>
                if Ascii.eqb c2 ":"%char then
                  match readValue s3 with
                  | Some (v, c4 :: s5) =>
                      if Ascii.eqb c4 ","%char then
                        readMembers fuel' s5 (setField key v fields)
                      else if Ascii.eqb c4 "}"%char then
                        Some (setField key v fields, s5)
                      else None
                  | _ => None
                  end
                else None
            | _ => None
            end
          else None
      | [] => None
      end
  end.

Definition readText (s : bytes) : option json :=
  match s with
  | [] => None
  | c :: s' =>
      if Ascii.eqb c "{"%char then
        if bool_decide (s' = bytes_of "}") then Some (JObj [])
        else match readMembers (length s') s' [] with
             | Some (fields, []) => Some (JObj fields)
             | _ => None
             end
      else if bool_decide (s = bytes_of "null") then Some JNull
      else None
  end.

Definition parse (s : bytes) : option json := readText (strip s).

(** A history record read from a parsed object, for the history-log
    examples: [project], [timestamp] and [display] present with their
    declared types, [sessionId] a string when present. *)
Definition entryOf (v : json) : option HistoryEntry.t :=
  match v with
  | JObj fields =>
      match assoc "project" fields, assoc "timestamp" fields, assoc "display" fields with
      | Some (JStr project), Some (JNum timestamp), Some (JStr display) =>
          match assoc "sessionId" fields with
          | Some (JStr sessionId) =>
              Some (HistoryEntry.mk (Some sessionId) project timestamp display)
          | None => Some (HistoryEntry.mk None project timestamp display)
          | Some _ => None
          end
      | _, _, _ => None
      end
  | _ => None
  end.

Definition parseEntry (s : bytes) : option HistoryEntry.t :=
  parse s ≫= entryOf.

End Reader.


(** ** Request coalescing: [dedupe] on the event loop

    [dedupe(key, fn)] is synchronous up to the promise it returns; the
    callback given to [finally] runs when the computation started by [fn]
    settles.  The registry and the promises are the state; a request and
    the settling of a promise are the events.  A promise is its index in
    the table of promises created so far. *)

Module Coalesce.

Inductive outcome : Type := Fulfilled | Rejected.

Record state : Type := mkState {
  (** [pendingRequests] *)
  pendingRequests : gmap string nat;
  (** every promise created by [dedupe]: its key, and its outcome once
      settled *)
  promises : list (string * option outcome);
  (** the calls of [fn], by key, in order *)
  executions : list string;
  (** the promises whose [finally] callback has deleted their key *)
  removals : list nat
}.

Definition initial : state := mkState ∅ [] [] [].

(** [dedupe(key, fn)]: the promise handed to the caller and the state
    after the call. *)
Definition dedupe (key : string) (st : state) : nat * state :=
  match pendingRequests st !! key with
  | Some existing => (existing, st)
  | None =>
      let promise := length (promises st) in
      (promise,
       mkState (<[key := promise]> (pendingRequests st))
               (promises st ++ [(key, None)])
               (executions st ++ [key])
               (removals st))
  end.

(** The computation behind [promise] finishes with outcome [o]: the
    [finally] callback runs [pendingRequests.delete(key)].  A promise
    settles once: there is no such step for a settled promise. *)
Definition settle (promise : nat) (o : outcome) (st : state) : option state :=
  match promises st !! promise with
  | Some (key, None) =>
      Some (mkState (delete key (pendingRequests st))
                    (<[promise := (key, Some o)]> (promises st))
                    (executions st)
                    (removals st ++ [promise]))
  | _ => None
  end.

Inductive event : Type :=
| Request (key : string)
| Finish (promise : nat) (o : outcome).

Definition step (st : state) (e : event) : state :=
  match e with
  | Request key => (dedupe key st).2
  | Finish promise o => default st (settle promise o st)
  end.

Definition run (events : list event) (st : state) : state :=
  foldl step st events.

(** The events of a trace that do not settle [promise]. *)
Definition leavesInFlight (promise : nat) (e : event) : bool :=
  match e with
  | Request _ => true
  | Finish p _ => negb (p =? promise)%nat
  end.

(** How many times [fn] ran for [key]. *)
Definition executionsOf (key : string) (st : state) : nat :=
  length (List.filter (String.eqb key) (executions st)).

(** What holds of every state the events lead to: the registry lists
    exactly the promises in flight, under their keys; every promise
    stands for one call of [fn]; the keys deleted so far are those of
    the settled promises, each deleted once. *)
Definition consistent (st : state) : Prop :=
  (∀ key promise,
      pendingRequests st !! key = Some promise
      ↔ promises st !! promise = Some (key, None))
  ∧ executions st = (fst <$> promises st)
  ∧ NoDup (removals st)
  ∧ (∀ promise,
       promise ∈ removals st
       ↔ ∃ key o, promises st !! promise = Some (key, Some o)).

End Coalesce.

(** ** Tailing a session and a quiescent disk *)

(** What the subscriber of a session does with [getConversationStream]:
    call it from offset [offset], feed the returned [nextOffset] into the
    next call, and stop once the offset has reached [fileSize].  The
    messages of the calls are concatenated; [None] when [fuel] calls did
    not reach the end. *)
Fixpoint streamToEnd (JSON_parse : bytes → option json) (fs : FileSystem)
    (st : ClaudeStorage) (sessionId : string) (fileSize : Z)
    (fuel : nat) (offset : Z) : option (list ConversationMessage) :=
  match fuel with
  | O => None
  | S fuel' =>
      let '(r, st') := getConversationStream JSON_parse fs st sessionId offset in
      if nextOffset r >=? fileSize then Some (messages r)
      else app (messages r)
             <$> streamToEnd JSON_parse fs st' sessionId fileSize fuel' (nextOffset r)
  end.

(** A disk at rest: directories with their entries, files with their
    content and modification time. *)
Module Disk.

Record t : Type := mk {
  directories : list (string * list Dirent.t);
  files : list (string * (bytes * Z))
}.

Fixpoint find {A : Type} (path : string) (table : list (string * A)) : option A :=
  match table with
  | [] => None
  | (p, x) :: rest => if String.eqb p path then Some x else find path rest
  end.

Definition fileSystem (d : t) : FileSystem :=
  mkFileSystem
    (λ path, find path (directories d))
    (λ path, fst <$> find path (files d))
    (λ path, (λ f, Stats.mk (byteLength f.1) f.2) <$> find path (files d))
    (λ path start,
       if start <? 0 then None
       else (λ f, drop (Z.to_nat start) f.1) <$> find path (files d)).

Definition file (name : string) : Dirent.t := Dirent.mk name false.
Definition directory (name : string) : Dirent.t := Dirent.mk name true.

End Disk.

(** ** Vocabulary of the statements *)

Section Vocabulary.

Variable JSON_parse : bytes → option json.

(** The [try] block of the readers runs through on [line]: it parses
    and its [type] can be read. *)
Definition decodes (line : bytes) : bool :=
  match JSON_parse line with
  | Some msg => bool_decide (is_Some (getType msg))
  | None => false
  end.

(** The stream reader leaves its loop at [line]. *)
Definition halts (line : bytes) : bool := nonBlank line && negb (decodes line).

(** What the stream reader appends for a line it passes. *)
Definition emits (line : bytes) : list ConversationMessage :=
  if nonBlank line then
    match JSON_parse line with
    | Some msg =>
        match getType msg with
        | Some t => if isUserOrAssistant t then [msg] else []
        | None => []
        end
    | None => []
    end
  else [].

(** The user and assistant records among parsed lines, blank or not. *)
Definition conversational (line : bytes) : list ConversationMessage :=
  match JSON_parse line with
  | Some msg =>
      match getType msg with
      | Some t => if isUserOrAssistant t then [msg] else []
      | None => []
      end
  | None => []
  end.

(** The summary records among parsed lines. *)
Definition summaries (line : bytes) : list ConversationMessage :=
  match JSON_parse line with
  | Some msg =>
      match getType msg with
      | Some t =>
          if isUserOrAssistant t then []
          else if isTag t "summary" then [msg] else []
      | None => []
      end
  | None => []
  end.

(** The lines the stream reader passes before it leaves its loop. *)
Fixpoint passed (lines : list bytes) : list bytes :=
  match lines with
  | [] => []
  | line :: rest => if halts line then [] else line :: passed rest
  end.

End Vocabulary.

(** The bytes the stream reader counts for lines it passes. *)
Definition consumedBy (lines : list bytes) : Z :=
  foldr (λ line n, byteLength line + 1 + n) 0 lines.

(** A value is a user or assistant record. *)
Definition isConversational (msg : ConversationMessage) : bool :=
  match getType msg with
  | Some t => isUserOrAssistant t
  | None => false
  end.

(** The call [getConversationStream(sessionId, fromOffset)] gets as far
    as reading: the session resolves to [path], [stat] reports [fileSize],
    the offset lies before it, and the stream opened at the offset
    delivers [data]. *)
Definition streamOpens (fs : FileSystem) (st : ClaudeStorage)
    (sessionId : string) (fromOffset : Z)
    (path : string) (fileSize : Z) (data : bytes) : Prop :=
  truthyName (findSessionFile fs st sessionId).1 = Some path
  ∧ Stats.size <$> stat fs path = Some fileSize
  ∧ fromOffset < fileSize
  ∧ createReadStream fs path fromOffset = Some data.

(** ** The engine as a transition system

    The operations callers and the watcher's notifications run on a
    [ClaudeStorage], each against the file system as it is at that
    moment. *)

Inductive operation : Type :=
| Init
| InvalidateHistoryCache
| AddToFileIndex (sessionId filePath : string)
| GetSessions
| GetProjects
| FindSessionFile (sessionId : string)
| GetConversation (sessionId : string)
| GetConversationStream (sessionId : string) (fromOffset : Z).

Section Engine.

Variable JSON_parse : bytes → option json.
Variable JSON_parse_entry : bytes → option HistoryEntry.t.

(** The state an operation leaves. *)
Definition perform (st : ClaudeStorage) (now : FileSystem * operation) : ClaudeStorage :=
  let '(fs, op) := now in
  match op with
  | Init => init JSON_parse_entry fs st
  | InvalidateHistoryCache => invalidateHistoryCache st
  | AddToFileIndex sessionId filePath => addToFileIndex st sessionId filePath
  | GetSessions => (getSessions JSON_parse_entry fs st).2
  | GetProjects => (getProjects JSON_parse_entry fs st).2
  | FindSessionFile sessionId => (findSessionFile fs st sessionId).2
  | GetConversation sessionId => (getConversation JSON_parse fs st sessionId).2
  | GetConversationStream sessionId fromOffset =>
      (getConversationStream JSON_parse fs st sessionId fromOffset).2
  end.

Definition performAll (st : ClaudeStorage) (steps : list (FileSystem * operation))
    : ClaudeStorage :=
  foldl perform st steps.

End Engine.

(** [candidates !! i] is the pair [(file, mtime)] the resolver must pick
    for [timestamp]: no candidate is nearer, and the candidates listed
    before it are farther. *)
Definition isClosest (timestamp : Z) (candidates : list (string * Z))
    (i : nat) (file : string) (mtime : Z) : Prop :=
  candidates !! i = Some (file, mtime)
  ∧ ∀ (j : nat) (f : string) (m : Z),
      candidates !! j = Some (f, m) →
      Z.abs (mtime - timestamp) ≤ Z.abs (m - timestamp)
      ∧ ((j < i)%nat → Z.abs (mtime - timestamp) < Z.abs (m - timestamp)).

(** The session-log files of a listing with the modification times [stat]
    reports for them. *)
Definition candidatesOf (fs : FileSystem) (projectPath : string)
    (files : list string) (candidates : list (string * Z)) : Prop :=
  Forall2
    (λ file c,
       c.1 = file
       ∧ Stats.mtimeMs <$> stat fs (join projectPath file) = Some c.2)
    (List.filter (λ f, endsWith f ".jsonl") files) candidates.

(** [e], standing in the history after the entries [earlier], is the
    first entry of the session [s]: it resolves to the id of [s], no
    earlier entry does, and [s] carries the metadata of [e]. *)
Definition firstEntryOf (resolve : HistoryEntry.t → option string)
    (earlier : list HistoryEntry.t) (e : HistoryEntry.t) (s : Session.t) : Prop :=
  resolve e = Some (Session.id s)
  ∧ (∀ e', e' ∈ earlier → resolve e' ≠ Some (Session.id s))
  ∧ s = sessionOf (Session.id s) e.

(** The sessions the loop of [getSessions] still appends for [entries]
    once the ids [seenIds] are taken. *)
Fixpoint collectFrom (resolve : HistoryEntry.t → option string)
    (seenIds : gset string) (entries : list HistoryEntry.t) : list Session.t :=
  match entries with
  | [] => []
  | entry :: rest =>
      match resolve entry with
      | Some sessionId =>
          if bool_decide (sessionId ∈ seenIds) then collectFrom resolve seenIds rest
          else sessionOf sessionId entry
                 :: collectFrom resolve ({[sessionId]} ∪ seenIds) rest
      | None => collectFrom resolve seenIds rest
      end
  end.

(** Most recent first. *)
Definition newerFirst (a b : Session.t) : Prop :=
  Session.timestamp b ≤ Session.timestamp a.

(** Two facts of [JSON.parse] the comparison of the readers rests on: a
    text of white space only is refused, and white space around a text
    that parses can be dropped without changing the value. *)
Definition rejectsBlank (JSON_parse : bytes → option json) : Prop :=
  ∀ s, nonBlank s = false → JSON_parse s = None.

Definition ignoresWhite (JSON_parse : bytes → option json) : Prop :=
  ∀ (w : ascii) (s : bytes) (v : json),
    isWhite w = true →
    (JSON_parse (w :: s) = Some v → JSON_parse s = Some v)
    ∧ (JSON_parse (s ++ [w]) = Some v → JSON_parse s = Some v).

(** The file at [path] is at rest with content [content]: [stat],
    [readFile] and the stream opened at any offset before the end agree
    on it. *)
Definition stableFile (fs : FileSystem) (path : string) (content : bytes) : Prop :=
  Stats.size <$> stat fs path = Some (byteLength content)
  ∧ readFile fs path = Some content
  ∧ ∀ k : nat,
      (k < length content)%nat →
      createReadStream fs path (Z.of_nat k) = Some (drop k content).

(** ** Example data *)

Module Examples.

Definition sessionPath : string := "/c/projects/-home-me-app/s1.jsonl".

(** One project directory holding one session log with [content]. *)
Definition diskWith (content : bytes) : Disk.t :=
  Disk.mk
    [("/c/projects", [Disk.directory "-home-me-app"; Disk.file "notes.txt"]);
     ("/c/projects/-home-me-app", [Disk.file "s1.jsonl"])]
    [(sessionPath, (content, 1000))].

Definition fsWith (content : bytes) : FileSystem :=
  Disk.fileSystem (diskWith content).

Definition fresh : ClaudeStorage := newStorage "/c".

Definition userLine : bytes := quoted "{'type':'user','text':'hi'}".
Definition assistantLine : bytes := quoted "{'type':'assistant','text':'ho'}".
Definition summaryLine : bytes := quoted "{'type':'summary','summary':'greeting'}".
Definition partialLine : bytes := quoted "{'type':'assistant','te".

Definition userMsg : json := JObj [("type", JStr "user"); ("text", JStr "hi")].
Definition assistantMsg : json := JObj [("type", JStr "assistant"); ("text", JStr "ho")].
Definition summaryMsg : json := JObj [("type", JStr "summary"); ("summary", JStr "greeting")].

(** Lines written with the line feed the producer ends each with. *)
Definition written (lines : list bytes) : bytes :=
  concat ((λ l, l ++ [LF]) <$> lines).

End Examples.

(** A project directory with three session logs modified at 10, 50 and
    90, and a history entry of time 55 that names no session. *)
Module ResolverExample.

(** The history log: session [a] twice, sessions [b] and [c] with the
    same timestamp, one entry without session id, one line cut
    short. *)
Definition historyLog : bytes :=
  concat
    ((λ l, quoted l ++ [LF]) <$>
     ["{'sessionId':'a','project':'/home/me/web','timestamp':10,'display':'first'}";
      "{'sessionId':'b','project':'/home/me/web','timestamp':30,'display':'second'}";
      "{'sessionId':'a','project':'/home/me/web','timestamp':99,'display':'again'}";
      "{'project':'/home/me.app','timestamp':55,'display':'fix the build'}";
      "{'sessionId':'c','project':'/srv/api','timestamp':30,'display':'third'}";
      "{'sessionId':'d','proj"]).

Definition disk : Disk.t :=
  Disk.mk
    [("/c/projects", [Disk.directory "-home-me-app"]);
     ("/c/projects/-home-me-app",
      [Disk.file "early.jsonl"; Disk.file "readme.md";
       Disk.file "middle.jsonl"; Disk.file "late.jsonl"])]
    [("/c/history.jsonl", (historyLog, 100));
     ("/c/projects/-home-me-app/early.jsonl", ([], 10));
     ("/c/projects/-home-me-app/readme.md", ([], 54));
     ("/c/projects/-home-me-app/middle.jsonl", ([], 50));
     ("/c/projects/-home-me-app/late.jsonl", ([], 90))].

Definition fs : FileSystem := Disk.fileSystem disk.

Definition entry : HistoryEntry.t :=
  HistoryEntry.mk None "/home/me.app" 55 "fix the build".

Definition candidates : list (string * Z) :=
  [("early.jsonl", 10); ("middle.jsonl", 50); ("late.jsonl", 90)].

End ResolverExample.

(** ** Vocabulary of the further properties *)

(** The directory entry [d] of the projects directory is a directory
    whose listing succeeds and holds the file [target]. *)
Definition holdsFile (fs : FileSystem) (root target : string) (d : Dirent.t) : Prop :=
  Dirent.isDirectory d = true
  ∧ ∃ files,
      readdirNames fs (join root (Dirent.name d)) = Some files ∧ target ∈ files.

(** Among the directories [dirs] of [root] there is a session log of id
    [sessionId] at [path]: a listed file with the extension [.jsonl]. *)
Definition sessionLogAt (fs : FileSystem) (root : string) (dirs : list Dirent.t)
    (sessionId path : string) : Prop :=
  ∃ (d : Dirent.t) (files : list string) (file : string),
    d ∈ dirs
    ∧ Dirent.isDirectory d = true
    ∧ readdirNames fs (join root (Dirent.name d)) = Some files
    ∧ file ∈ files
    ∧ endsWith file ".jsonl" = true
    ∧ sessionId = basename file ".jsonl"
    ∧ path = join (join root (Dirent.name d)) file.

(** ** Node's [path] module, as far as the watcher uses it *)

Module Path.

Class t : Type := mk {
  (** [basename(path)] *)
  basename : string → string;
  (** [basename(path, ext)] *)
  basenameExt : string → string → string;
  (** [dirname(path)] *)
  dirname : string → string
}.

End Path.

(** ** The file watcher: [ClaudeWatcher]

    The watcher is driven by two kinds of events: the file watcher of
    the library reports a change or an addition at a path, and a timer
    set by [setTimeout] runs its callback.  A timer is its index in the
    table of timers created so far; a timer that has run or has been
    cleared by [clearTimeout] does not run. *)

Module Watcher.

(** What the watcher emits. *)
Inductive notification : Type :=
| HistoryChange
| SessionChange (sessionId filePath : string)
| ProjectChange (projectId : string).

Record state : Type := mkState {
  (** [this.watcher] is set *)
  watching : bool;
  (** [debounceTimers] *)
  debounceTimers : gmap string nat;
  (** every timer created by [setTimeout]: the path its callback was
      made for, and whether it is still to run *)
  timers : list (string * bool);
  (** the notifications emitted so far, in order *)
  emitted : list notification
}.

(** [new ClaudeWatcher(claudeDir)] *)
Definition initial : state := mkState false ∅ [] [].

(** [clearTimeout(timer)] *)
Definition clearTimeout (timer : nat) (table : list (string * bool))
    : list (string * bool) :=
  alter (λ t, (t.1, false)) timer table.

(** [start] *)
Definition start (st : state) : state :=
  if watching st then st
  else mkState true (debounceTimers st) (timers st) (emitted st).

(** [handleChange] *)
Definition handleChange (path : string) (st : state) : state :=
  let table :=
    match debounceTimers st !! path with
    | Some existing => clearTimeout existing (timers st)
    | None => timers st
    end in
  let timer := length table in
  mkState (watching st)
          (<[path := timer]> (debounceTimers st))
          (table ++ [(path, true)])
          (emitted st).

(** [stop]: every registered timer is cleared, in whatever order, and
    the register emptied. *)
Definition stop (st : state) : state :=
  mkState false ∅
          (foldr clearTimeout (timers st) (map_to_list (debounceTimers st)).*2)
          (emitted st).

Section Machine.

Context `{Path.t}.

(** [emitChange] *)
Definition emitChange (filePath : string) : list notification :=
  if endsWith filePath "history.jsonl" then [HistoryChange]
  else if endsWith filePath ".jsonl" then
    let sessionId := Path.basenameExt filePath ".jsonl" in
    let projectId := Path.basename (Path.dirname filePath) in
    [SessionChange sessionId filePath; ProjectChange projectId]
  else [].

(** The callback of [timer] runs: there is no such step for a timer
    that has run or has been cleared. *)
Definition fire (timer : nat) (st : state) : option state :=
  match timers st !! timer with
  | Some (path, true) =>
      Some (mkState (watching st)
                    (delete path (debounceTimers st))
                    (<[timer := (path, false)]> (timers st))
                    (emitted st ++ emitChange path))
  | _ => None
  end.

Inductive event : Type :=
| Start
| Stop
| Changed (path : string)
| Timeout (timer : nat).

(** The file watcher of the library reports to [handleChange] between
    [start] and [stop] only. *)
Definition step (st : state) (e : event) : state :=
  match e with
  | Start => start st
  | Stop => stop st
  | Changed path => if watching st then handleChange path st else st
  | Timeout timer => default st (fire timer st)
  end.

Definition run (events : list event) (st : state) : state :=
  foldl step st events.

End Machine.

(** What holds of every state of the watcher: [debounceTimers] lists
    exactly the timers still to run, each under the path of its
    callback. *)
Definition consistent (st : state) : Prop :=
  ∀ path timer,
    debounceTimers st !! path = Some timer
    ↔ timers st !! timer = Some (path, true).

(** Nothing is left to run and nothing is watched. *)
Definition quiet (st : state) : Prop :=
  watching st = false
  ∧ debounceTimers st = ∅
  ∧ ∀ timer path, timers st !! timer ≠ Some (path, true).

End Watcher.

(** ** The listeners the server puts on the watcher

    [createServer] registers two listeners of its own, ahead of those of
    any stream: a history change drops the history cache, and a session
    change enters the file into the index. *)

Definition onNotification (st : ClaudeStorage) (n : Watcher.notification)
    : ClaudeStorage :=
  match n with
  | Watcher.HistoryChange => invalidateHistoryCache st
  | Watcher.SessionChange sessionId filePath => addToFileIndex st sessionId filePath
  | Watcher.ProjectChange _ => st
  end.

(** [basename(path, ".jsonl")] on a file name joined to a directory is
    the [basename] of the file name, for a file name without slash
    other than the extension itself. *)
Definition plainNames (P : Path.t) : Prop :=
  ∀ dir file : string,
    "/"%char ∉ bytes_of file → file ≠ "" → file ≠ ".jsonl" →
    Path.basenameExt (join dir file) ".jsonl" = basename file ".jsonl".

(** A [path] module for paths written without trailing slash: the
    base name is the last piece between slashes, the directory name is
    what stands before it. *)
Module PathExample.

Definition lastSegment (p : string) : string := default "" (last (splitSlash p)).

Definition parent (p : string) : string :=
  String.concat "/" (removelast (splitSlash p)).

Definition posix : Path.t :=
  Path.mk lastSegment (λ p ext, basename (lastSegment p) ext) parent.

End PathExample.

(** ** The sessions stream of the server

    The handler of [/api/sessions/stream] keeps, per connection, the
    timestamp it last saw for each session id. *)

Module SessionsStream.

(** [for (const s of sessions) knownSessions.set(s.id, s.timestamp)] *)
Definition remember (knownSessions : gmap string Z) (sessions : list Session.t)
    : gmap string Z :=
  foldl (λ known s, <[Session.id s := Session.timestamp s]> known)
        knownSessions sessions.

(** [known === undefined || known !== s.timestamp] *)
Definition isNewOrUpdated (knownSessions : gmap string Z) (s : Session.t) : bool :=
  match knownSessions !! Session.id s with
  | None => true
  | Some known => negb (known =? Session.timestamp s)
  end.

Definition newOrUpdated (knownSessions : gmap string Z) (sessions : list Session.t)
    : list Session.t :=
  List.filter (isNewOrUpdated knownSessions) sessions.

(** The start of a connection, once [getSessions] has answered
    [sessions]: the [sessions] event and the first [knownSessions]. *)
Definition connect (sessions : list Session.t) : list Session.t * gmap string Z :=
  (sessions, remember ∅ sessions).

(** [onHistoryChange], once [getSessions] has answered [sessions]: the
    [sessionsUpdate] event written, if any, and [knownSessions]
    after. *)
Definition onHistoryChange (knownSessions : gmap string Z)
    (sessions : list Session.t) : option (list Session.t) * gmap string Z :=
  let updates := newOrUpdated knownSessions sessions in
  (if (0 <? length updates)%nat then Some updates else None,
   remember knownSessions sessions).

End SessionsStream.

(** ** The session list of the web client *)

Module App.

(** [sessionMap.set(key, s)]: a [Map] keeps its keys in the order they
    were first set, and setting a key it holds keeps the key's place. *)
Fixpoint mapSet (key : string) (s : Session.t) (sessionMap : list (string * Session.t))
    : list (string * Session.t) :=
  match sessionMap with
  | [] => [(key, s)]
  | (k, v) :: rest =>
      if String.eqb k key then (k, s) :: rest else (k, v) :: mapSet key s rest
  end.

Definition setAll (sessionMap : list (string * Session.t)) (sessions : list Session.t)
    : list (string * Session.t) :=
  foldl (λ m s, mapSet (Session.id s) s m) sessionMap sessions.

(** The state update of [handleSessionsUpdate]. *)
Definition handleSessionsUpdate (prev updates : list Session.t) : list Session.t :=
  let sessionMap := setAll (setAll [] prev) updates in
  sortWith byRecency sessionMap.*2.

(** [filteredSessions] *)
Definition filteredSessions (sessions : list Session.t)
    (selectedProject : option string) : list Session.t :=
  match truthyName selectedProject with
  | Some project => List.filter (λ s, String.eqb (Session.project s) project) sessions
  | None => sessions
  end.

End App.


(** The last session of [sessions] that has the id [k]. *)
Definition latest (k : string) (sessions : list Session.t) : option Session.t :=
  last (List.filter (λ s, String.eqb (Session.id s) k) sessions).


(** ** The conversation stream of the server

    The handler of [/api/conversation/:id/stream] keeps, per
    connection, the offset up to which the session file has been
    delivered. *)

Module ConversationStream.

Record connection : Type := mk {
  (** [offset] *)
  offset : Z;
  (** the [messages] events written so far, in order *)
  written : list (list ConversationMessage)
}.

Section Handler.

Variable JSON_parse : bytes → option json.

(** The start of a connection: the first read, from the offset of the
    request, is written whatever it holds. *)
Definition connect (fs : FileSystem) (st : ClaudeStorage)
    (sessionId : string) (offsetParam : Z) : connection * ClaudeStorage :=
  let '(r, st') := getConversationStream JSON_parse fs st sessionId offsetParam in
  (mk (nextOffset r) [messages r], st').

(** [onSessionChange], against the file system as it is at the
    notification. *)
Definition onSessionChange (sessionId changedSessionId : string)
    (fs : FileSystem) (c : connection) (st : ClaudeStorage)
    : connection * ClaudeStorage :=
  if negb (String.eqb changedSessionId sessionId) then (c, st)
  else
    let '(r, st') := getConversationStream JSON_parse fs st sessionId (offset c) in
    (mk (nextOffset r)
        (if (0 <? length (messages r))%nat then written c ++ [messages r]
         else written c),
     st').

(** The notifications of a connection, one after the other: each names
    the session that changed and comes with the file system of its
    moment. *)
Definition serve (sessionId : string) (changes : list (string * FileSystem))
    (start : connection * ClaudeStorage) : connection * ClaudeStorage :=
  foldl (λ acc change, onSessionChange sessionId change.1 change.2 acc.1 acc.2)
        start changes.

End Handler.

End ConversationStream.

(** The text is empty or ends with a line feed. *)
Definition wholeLines (s : bytes) : Prop := s = [] ∨ last s = Some LF.

(** The file at [path] grows from [content] by one chunk per change:
    at each change it is at rest with the chunks so far, and the chunk
    holds no carriage return and only lines the stream reader passes. *)
Fixpoint grows (JSON_parse : bytes → option json) (path : string) (content : bytes)
    (changes : list (FileSystem * bytes)) : Prop :=
  match changes with
  | [] => True
  | (fs, chunk) :: rest =>
      stableFile fs path (content ++ chunk)
      ∧ (CR ∉ chunk)
      ∧ Forall (λ l, halts JSON_parse l = false) (readline chunk)
      ∧ grows JSON_parse path (content ++ chunk) rest
  end.


(** * Properties *)

(** ** The loop of the stream reader *)

Section StreamLoop.

Variable JSON_parse : bytes → option json.

Lemma byteLength_nonneg (line : bytes) : 0 ≤ byteLength line.
Proof. unfold byteLength. lia. Qed.

Lemma consumedBy_nonneg (lines : list bytes) : 0 ≤ consumedBy lines.
Proof.
  induction lines as [|line lines IH]; simpl; [lia|].
  pose proof (byteLength_nonneg line). lia.
Qed.

Lemma consumedBy_app (xs ys : list bytes) :
  consumedBy (xs ++ ys) = consumedBy xs + consumedBy ys.
Proof. induction xs as [|x xs IH]; simpl; lia. Qed.

(** The loop, in one equation: it appends what the passed lines emit
    and counts the bytes of the passed lines. *)
Lemma streamLoop_passed (lines : list bytes) (msgs : list ConversationMessage) (n : Z) :
  streamLoop JSON_parse lines msgs n
  = (msgs ++ concat (emits JSON_parse <$> passed JSON_parse lines),
     n + consumedBy (passed JSON_parse lines)).
Proof.
  revert msgs n. induction lines as [|line rest IH]; intros msgs n; simpl.
  - by rewrite app_nil_r, Z.add_0_r.
  - unfold halts, decodes, emits.
    destruct (nonBlank line) eqn:Hb; simpl.
    + destruct (JSON_parse line) as [msg|] eqn:Hp; simpl;
        [|by rewrite app_nil_r, Z.add_0_r].
      destruct (getType msg) as [t|] eqn:Ht; simpl;
        [|by rewrite app_nil_r, Z.add_0_r].
      rewrite IH, Hb, Hp. simpl. rewrite Ht.
      destruct (isUserOrAssistant t); simpl.
      * rewrite <- app_assoc. simpl. f_equal. lia.
      * f_equal. lia.
    + rewrite IH, Hb. simpl. f_equal. lia.
Qed.

Lemma passed_app_halt (pre rest : list bytes) (bad : bytes) :
  halts JSON_parse bad = true →
  passed JSON_parse (pre ++ bad :: rest) = passed JSON_parse pre.
Proof.
  intros Hbad. induction pre as [|l pre IH]; simpl.
  - by rewrite Hbad.
  - destruct (halts JSON_parse l); [done|]. by rewrite IH.
Qed.

Lemma passed_all (lines : list bytes) :
  Forall (λ l, halts JSON_parse l = false) lines →
  passed JSON_parse lines = lines.
Proof.
  induction 1 as [|l lines Hl _ IH]; simpl; [done|]. by rewrite Hl, IH.
Qed.

Lemma passed_prefix (lines : list bytes) :
  passed JSON_parse lines `prefix_of` lines.
Proof.
  induction lines as [|l lines IH]; simpl; [done|].
  destruct (halts JSON_parse l); [apply prefix_nil|by apply prefix_cons].
Qed.

Lemma consumedBy_prefix (xs ys : list bytes) :
  xs `prefix_of` ys → consumedBy xs ≤ consumedBy ys.
Proof.
  intros [zs ->]. rewrite consumedBy_app.
  pose proof (consumedBy_nonneg zs). lia.
Qed.

End StreamLoop.

(** ** Lines and the bytes they come from *)

Section Lines.

Lemma consumedBy_cons (line : bytes) (lines : list bytes) :
  consumedBy (line :: lines) = byteLength line + 1 + consumedBy lines.
Proof. reflexivity. Qed.

Lemma byteLength_cons (c : ascii) (s : bytes) :
  byteLength (c :: s) = 1 + byteLength s.
Proof. unfold byteLength. rewrite length_cons. lia. Qed.

Lemma readlineFrom_nil (s : bytes) : readlineFrom false s = [] → s = [].
Proof.
  destruct s as [|c s]; [done|]. simpl.
  destruct (Ascii.eqb c LF); [done|].
  destruct (Ascii.eqb c CR); [done|].
  by destruct (readlineFrom false s).
Qed.

(** A line yielded by [readline] sits in the data after the bytes of the
    lines before it, and these bytes are at least the [length + 1] the
    stream reader counts for each of those lines. *)
Lemma readlineFrom_locate (data : bytes) :
  ∀ (sawReturn : bool) (pre : list bytes) (line : bytes) (rest : list bytes),
    readlineFrom sawReturn data = pre ++ line :: rest →
    ∃ before after : bytes,
      data = before ++ line ++ after
      ∧ readlineFrom sawReturn before = pre
      ∧ consumedBy pre ≤ byteLength before.
Proof.
  induction data as [|c s IH]; intros flag pre line rest Hrl; simpl in Hrl.
  { by destruct pre. }
  destruct (Ascii.eqb c LF) eqn:HLF.
  { destruct flag.
    - destruct (IH _ _ _ _ Hrl) as (b & a & -> & Hb & Hn).
      exists (c :: b), a. split_and!; [done|by simpl; rewrite HLF|].
      rewrite byteLength_cons. lia.
    - destruct pre as [|p0 pre]; simpl in Hrl; injection Hrl as <- Hls.
      + exists [], (c :: s). by simpl.
      + destruct (IH _ _ _ _ Hls) as (b & a & -> & Hb & Hn).
        exists (c :: b), a. split_and!; [done|by simpl; rewrite HLF, Hb|].
        rewrite consumedBy_cons, byteLength_cons.
        change (byteLength []) with 0. lia. }
  destruct (Ascii.eqb c CR) eqn:HCR.
  { destruct pre as [|p0 pre]; simpl in Hrl; injection Hrl as <- Hls.
    - exists [], (c :: s). by simpl.
    - destruct (IH _ _ _ _ Hls) as (b & a & -> & Hb & Hn).
      exists (c :: b), a. split_and!; [done|by simpl; rewrite HLF, HCR, Hb|].
      rewrite consumedBy_cons, byteLength_cons.
      change (byteLength []) with 0. lia. }
  destruct (readlineFrom false s) as [|l ls] eqn:Hs; simpl in Hrl.
  { destruct pre as [|p0 [|p1 pre]]; simplify_eq/=.
    exists [], s. by simpl. }
  destruct pre as [|p0 pre]; simpl in Hrl; injection Hrl as <- Hls.
  - destruct (IH false [] l ls Hs) as (b & a & -> & Hb & _).
    apply readlineFrom_nil in Hb as ->. exists [], a. by simpl.
  - rewrite Hls in Hs.
    destruct (IH false (l :: pre) line rest Hs) as (b & a & -> & Hb & Hn).
    exists (c :: b), a. split_and!; [done|by simpl; rewrite HLF, HCR, Hb|].
    rewrite consumedBy_cons in *. rewrite !byteLength_cons. lia.
Qed.

End Lines.

(** ** The incremental stream reader *)

Section StreamReader.

Variable JSON_parse : bytes → option json.

Lemma getConversationStream_opens fs st sessionId fromOffset path fileSize data :
  streamOpens fs st sessionId fromOffset path fileSize data →
  (getConversationStream JSON_parse fs st sessionId fromOffset).1
  = readStream JSON_parse fromOffset fileSize data.
Proof.
  intros (Hpath & Hstat & Hlt & Hdata). unfold getConversationStream.
  destruct (findSessionFile fs st sessionId) as [filePath st'].
  simpl in Hpath. rewrite Hpath.
  destruct (stat fs path) as [fileStat|]; simplify_eq/=.
  destruct (Z.geb_spec fromOffset (Stats.size fileStat)); [lia|].
  by rewrite Hdata.
Qed.

Lemma readStream_passed fromOffset fileSize data :
  readStream JSON_parse fromOffset fileSize data
  = mkStreamResult
      (concat (emits JSON_parse <$> passed JSON_parse (readline data)))
      (Z.min (fromOffset + consumedBy (passed JSON_parse (readline data))) fileSize).
Proof.
  unfold readStream. rewrite streamLoop_passed, Z.add_0_l, app_nil_l.
  f_equal.
  match goal with |- context [?a >? ?b] => destruct (Z.gtb_spec a b) end; lia.
Qed.

End StreamReader.



Example partial_line_example :
  (getConversationStream Reader.parse
     (Examples.fsWith (Examples.written [Examples.userLine] ++ Examples.partialLine))
     Examples.fresh "s1" 0).1
  = mkStreamResult [Examples.userMsg] 28.
Proof. vm_compute. reflexivity. Qed.



Example blank_line_example :
  (getConversationStream Reader.parse
     (Examples.fsWith
        (Examples.written [Examples.userLine; bytes_of "  "; Examples.assistantLine]))
     Examples.fresh "s1" 0).1
  = mkStreamResult [Examples.userMsg; Examples.assistantMsg] 64.
Proof. vm_compute. reflexivity. Qed.

(** C1 -- the returned offset, as the code has it.  For a non-negative
    supplied offset: when the session file cannot be resolved the result
    is [nextOffset = 0]; otherwise [nextOffset] is at least the supplied
    offset, and it is at most the larger of the supplied offset and the
    size [stat] observed (so at most the file size whenever the supplied
    offset is); when [stat] fails it is the supplied offset. *)
Theorem nextOffset_bounds
    (JSON_parse : bytes → option json) (fs : FileSystem) (st : ClaudeStorage)
    (sessionId : string) (fromOffset : Z) :
  0 ≤ fromOffset →
  let r := (getConversationStream JSON_parse fs st sessionId fromOffset).1 in
  match truthyName (findSessionFile fs st sessionId).1 with
  | None => nextOffset r = 0
  | Some path =>
      fromOffset ≤ nextOffset r
      ∧ match stat fs path with
        | Some fileStat => nextOffset r ≤ Z.max fromOffset (Stats.size fileStat)
        | None => nextOffset r = fromOffset
        end
  end.
Proof.
  intros Hpos r. subst r. unfold getConversationStream.
  destruct (findSessionFile fs st sessionId) as [filePath st']. simpl.
  destruct (truthyName filePath) as [path|]; [|done].
  destruct (stat fs path) as [fileStat|]; simpl; [|lia].
  destruct (Z.geb_spec fromOffset (Stats.size fileStat)); simpl; [lia|].
  destruct (createReadStream fs path fromOffset) as [data|]; simpl; [|lia].
  rewrite readStream_passed. simpl.
  pose proof (consumedBy_nonneg (passed JSON_parse (readline data))). lia.
Qed.

Lemma nextOffset_bounds_witness :
  let fs := Examples.fsWith (Examples.written [Examples.userLine]) in
  let r := (getConversationStream Reader.parse fs Examples.fresh "s1" 0).1 in
  match truthyName (findSessionFile fs Examples.fresh "s1").1 with
  | None => nextOffset r = 0
  | Some path =>
      0 ≤ nextOffset r
      ∧ match stat fs path with
        | Some fileStat => nextOffset r ≤ Z.max 0 (Stats.size fileStat)
        | None => nextOffset r = 0
        end
  end.
Proof.
  apply (nextOffset_bounds Reader.parse
           (Examples.fsWith (Examples.written [Examples.userLine]))
           Examples.fresh "s1" 0).
  lia.
Defined.

(** C1 as stated fails on two exit paths: an unresolved session answers
    offset 0 to a supplied offset 5, and a supplied offset 40 past the end
    of a file of 28 bytes is handed back unchanged. *)
Lemma nextOffset_bounds_counterexample :
  let fs := Examples.fsWith (Examples.written [Examples.userLine]) in
  (0 ≤ 5
   ∧ nextOffset (getConversationStream Reader.parse fs Examples.fresh "nowhere" 5).1 = 0
   ∧ 0 < 5)
  ∧ (0 ≤ 40
     ∧ Stats.size <$> stat fs Examples.sessionPath = Some 28
     ∧ nextOffset (getConversationStream Reader.parse fs Examples.fresh "s1" 40).1 = 40
     ∧ 28 < 40).
Proof. vm_compute. repeat split; discriminate. Qed.

(** ** The file index *)

Section FileIndex.

Variable JSON_parse : bytes → option json.
Variable JSON_parse_entry : bytes → option HistoryEntry.t.

Lemma indexFile_dom projectPath (index : gmap string string) file :
  dom index ⊆ dom (indexFile projectPath index file).
Proof.
  unfold indexFile. destruct (endsWith file ".jsonl"); [|done].
  rewrite dom_insert_L. set_solver.
Qed.

Lemma indexProject_dom fs root (index : gmap string string) dir :
  dom index ⊆ dom (indexProject fs root index dir).
Proof.
  unfold indexProject. destruct (readdirNames fs _) as [files|]; [|done].
  revert index. induction files as [|f files IH]; intros index; simpl; [done|].
  etrans; [apply (indexFile_dom (join root (Dirent.name dir)) index f)|apply IH].
Qed.

Lemma buildFileIndex_dom fs st :
  dom (fileIndex st) ⊆ dom (fileIndex (buildFileIndex fs st)).
Proof.
  unfold buildFileIndex. destruct (readdir fs (projectsDir st)) as [dirs|]; [|done].
  simpl. generalize (fileIndex st) as index.
  induction (List.filter Dirent.isDirectory dirs) as [|d ds IH]; intros index; simpl; [done|].
  etrans; [apply (indexProject_dom fs (projectsDir st) index d)|apply IH].
Qed.

Lemma findSessionFile_dom fs st sessionId :
  dom (fileIndex st) ⊆ dom (fileIndex (findSessionFile fs st sessionId).2).
Proof.
  unfold findSessionFile. destruct (fileIndex st !! sessionId); [done|].
  destruct (readdir fs (projectsDir st)); [|done].
  destruct (truthyName _); [|done]. simpl. rewrite dom_insert_L. set_solver.
Qed.

Lemma loadHistoryCache_fileIndex fs st :
  fileIndex (loadHistoryCache JSON_parse_entry fs st).2 = fileIndex st.
Proof. unfold loadHistoryCache. by destruct (readFile fs _). Qed.

Lemma historyEntries_fileIndex fs st :
  fileIndex (historyEntries JSON_parse_entry fs st).2 = fileIndex st.
Proof.
  unfold historyEntries. destruct (historyCache st); [done|].
  apply loadHistoryCache_fileIndex.
Qed.

Lemma perform_dom st now :
  dom (fileIndex st) ⊆ dom (fileIndex (perform JSON_parse JSON_parse_entry st now)).
Proof.
  destruct now as [fs []]; simpl.
  - unfold init. rewrite loadHistoryCache_fileIndex. apply buildFileIndex_dom.
  - done.
  - rewrite dom_insert_L. set_solver.
  - unfold getSessions.
    pose proof (historyEntries_fileIndex fs st) as H.
    destruct (historyEntries JSON_parse_entry fs st). simpl in *. by rewrite H.
  - unfold getProjects.
    pose proof (historyEntries_fileIndex fs st) as H.
    destruct (historyEntries JSON_parse_entry fs st). simpl in *. by rewrite H.
  - apply findSessionFile_dom.
  - unfold getConversation.
    pose proof (findSessionFile_dom fs st sessionId) as H.
    destruct (findSessionFile fs st sessionId) as [filePath st']. simpl in *.
    destruct (truthyName filePath); [|done]. by destruct (readFile fs _).
  - unfold getConversationStream.
    pose proof (findSessionFile_dom fs st sessionId) as H.
    destruct (findSessionFile fs st sessionId) as [filePath st']. simpl in *.
    destruct (truthyName filePath); [|done].
    destruct (stat fs _); [|done]. destruct (_ >=? _); [done|].
    by destruct (createReadStream fs _ _).
Qed.

End FileIndex.

(** C8 -- the file index never loses a key.  Whatever sequence of
    operations the engine performs (the initial scan of [init], the
    scan-on-miss of [findSessionFile] behind the readers,
    [addToFileIndex] from a change notification, the session and project
    listings, the invalidation of the history cache), against whatever
    file system each of them meets, every session id that is a key of
    the index before is still a key after; the three operations that
    write the index do so by [Map.set], which adds or replaces. *)
Theorem fileIndex_never_shrinks
    (JSON_parse : bytes → option json)
    (JSON_parse_entry : bytes → option HistoryEntry.t)
    (steps : list (FileSystem * operation)) (st : ClaudeStorage) :
  dom (fileIndex st)
  ⊆ dom (fileIndex (performAll JSON_parse JSON_parse_entry st steps))
  ∧ (∀ fs, dom (fileIndex st) ⊆ dom (fileIndex (buildFileIndex fs st)))
  ∧ (∀ fs sessionId,
       dom (fileIndex st) ⊆ dom (fileIndex (findSessionFile fs st sessionId).2))
  ∧ (∀ sessionId filePath,
       dom (fileIndex (addToFileIndex st sessionId filePath))
       = {[sessionId]} ∪ dom (fileIndex st)).
Proof.
  split_and!.
  - revert st. induction steps as [|now steps IH]; intros st; simpl; [done|].
    etrans; [apply (perform_dom JSON_parse JSON_parse_entry st now)|apply IH].
  - intros fs. apply buildFileIndex_dom.
  - intros fs sessionId. apply findSessionFile_dom.
  - intros sessionId filePath. simpl. by rewrite dom_insert_L.
Qed.

(** ** The conversation reader *)

Section ConversationReader.

Variable JSON_parse : bytes → option json.

(** The loop of [getConversation] started with [messages] already
    holding [heads ++ tails]: summaries go in front in reverse order,
    user and assistant records go behind in order. *)
Lemma readLine_fold (lines : list bytes) (msgs : list ConversationMessage) :
  foldl (readLine JSON_parse) msgs lines
  = rev (concat (summaries JSON_parse <$> lines))
    ++ msgs ++ concat (conversational JSON_parse <$> lines).
Proof.
  revert msgs. induction lines as [|line lines IH]; intros msgs; simpl.
  - by rewrite app_nil_r.
  - rewrite IH. unfold readLine, summaries, conversational.
    destruct (JSON_parse line) as [msg|]; simpl; [|done].
    destruct (getType msg) as [t|]; simpl; [|done].
    destruct (isUserOrAssistant t); simpl.
    + by rewrite <- app_assoc.
    + destruct (isTag t "summary"); simpl; [|done].
      by rewrite <- !app_assoc.
Qed.

Lemma getConversation_read fs st sessionId path content :
  truthyName (findSessionFile fs st sessionId).1 = Some path →
  readFile fs path = Some content →
  (getConversation JSON_parse fs st sessionId).1
  = foldl (readLine JSON_parse) [] (contentLines content).
Proof.
  intros Hpath Hread. unfold getConversation.
  destruct (findSessionFile fs st sessionId) as [filePath st'].
  simpl in Hpath. by rewrite Hpath, Hread.
Qed.

End ConversationReader.

(** C4 -- summary ordering.  When [getConversation] reads the content of
    the session file, its result is the summary records of the lines in
    reverse file order, followed by the user and assistant records of the
    lines in file order, wherever the summaries stood in the file. *)
Theorem summaries_are_prepended
    (JSON_parse : bytes → option json) (fs : FileSystem) (st : ClaudeStorage)
    (sessionId path : string) (content : bytes) :
  truthyName (findSessionFile fs st sessionId).1 = Some path →
  readFile fs path = Some content →
  (getConversation JSON_parse fs st sessionId).1
  = rev (concat (summaries JSON_parse <$> contentLines content))
    ++ concat (conversational JSON_parse <$> contentLines content).
Proof.
  intros Hpath Hread.
  by rewrite (getConversation_read _ _ _ _ _ _ Hpath Hread), readLine_fold.
Qed.

(** The file with line order assistant, summary, user is read as summary,
    assistant, user. *)
Lemma summaries_are_prepended_witness :
  (getConversation Reader.parse
     (Examples.fsWith
        (Examples.written
           [Examples.assistantLine; Examples.summaryLine; Examples.userLine]))
     Examples.fresh "s1").1
  = [Examples.summaryMsg; Examples.assistantMsg; Examples.userMsg].
Proof.
  rewrite (summaries_are_prepended Reader.parse _ _ "s1" Examples.sessionPath
             (Examples.written
                [Examples.assistantLine; Examples.summaryLine; Examples.userLine])).
  - vm_compute. reflexivity.
  - vm_compute. reflexivity.
  - vm_compute. reflexivity.
Defined.

(** Two summaries come out in reverse file order. *)
Example two_summaries_example :
  (getConversation Reader.parse
     (Examples.fsWith
        (Examples.written
           [Examples.summaryLine; Examples.userLine;
            quoted "{'type':'summary','summary':'later'}"]))
     Examples.fresh "s1").1
  = [JObj [("type", JStr "summary"); ("summary", JStr "later")];
     Examples.summaryMsg; Examples.userMsg].
Proof. vm_compute. reflexivity. Qed.

(** ** The history cache *)

(** C9 -- a missing history log.  When reading [history.jsonl] fails,
    [loadHistoryCache] returns the empty sequence and memoizes it; a
    storage whose cache is not loaded then answers [getSessions] and
    [getProjects] with the empty list, and so does the storage that
    [loadHistoryCache] leaves. *)
Theorem missing_history_is_empty
    (JSON_parse_entry : bytes → option HistoryEntry.t)
    (fs : FileSystem) (st : ClaudeStorage) :
  readFile fs (join (claudeDir st) "history.jsonl") = None →
  let loaded := loadHistoryCache JSON_parse_entry fs st in
  loaded.1 = []
  ∧ historyCache loaded.2 = Some []
  ∧ (getSessions JSON_parse_entry fs loaded.2).1 = []
  ∧ (getProjects JSON_parse_entry fs loaded.2).1 = []
  ∧ (historyCache st = None →
       (getSessions JSON_parse_entry fs st).1 = []
       ∧ (getProjects JSON_parse_entry fs st).1 = []).
Proof.
  intros Hread loaded. subst loaded.
  unfold getSessions, getProjects, historyEntries, loadHistoryCache.
  rewrite Hread. split_and!; try done.
  by intros ->.
Qed.

Lemma missing_history_is_empty_witness :
  let fs := Examples.fsWith [] in
  let loaded := loadHistoryCache Reader.parseEntry fs Examples.fresh in
  loaded.1 = []
  ∧ historyCache loaded.2 = Some []
  ∧ (getSessions Reader.parseEntry fs loaded.2).1 = []
  ∧ (getProjects Reader.parseEntry fs loaded.2).1 = []
  ∧ (historyCache Examples.fresh = None →
       (getSessions Reader.parseEntry fs Examples.fresh).1 = []
       ∧ (getProjects Reader.parseEntry fs Examples.fresh).1 = []).
Proof.
  apply (missing_history_is_empty Reader.parseEntry (Examples.fsWith []) Examples.fresh).
  vm_compute. reflexivity.
Defined.

(** ** The session resolver: nearest modification time *)

Section Resolver.

Lemma endsWith_nonempty (file : string) :
  endsWith file ".jsonl" = true → file ≠ "".
Proof. intros H ->. vm_compute in H. discriminate. Qed.

(** [basename] takes exactly the extension off a name that ends with
    it. *)
Lemma basename_ext (file ext : string) :
  endsWith file ext = true →
  bytes_of (basename file ext) ++ bytes_of ext = bytes_of file.
Proof.
  intros Hends. unfold basename. rewrite Hends.
  unfold endsWith in Hends. apply bool_decide_eq_true in Hends.
  unfold bytes_of at 1. rewrite String.list_ascii_of_string_of_list_ascii.
  rewrite <- Hends at 2. apply take_drop.
Qed.

Lemma truthyName_Some (s : string) : s ≠ "" → truthyName (Some s) = Some s.
Proof. by destruct s. Qed.

(** The loop of [findSessionByTimestamp] ends on the first candidate of
    least distance. *)
Lemma closer_fold (timestamp : Z) (candidates : list (string * Z)) :
  candidates ≠ [] →
  ∃ (i : nat) (file : string) (mtime : Z),
    isClosest timestamp candidates i file mtime
    ∧ foldl (closer timestamp) (None, None) candidates
      = (Some file, Some (Z.abs (mtime - timestamp))).
Proof.
  induction candidates as [|[fx mx] l IH] using rev_ind; [done|]. intros _.
  rewrite foldl_app. simpl.
  destruct l as [|c0 l0].
  { exists 0%nat, fx, mx. split; [|done]. split; [done|].
    intros [|j] f m Hj; simplify_eq/=. split; lia. }
  destruct IH as (i & file & mtime & [Hi Hbest] & ->); [done|].
  set (l := c0 :: l0) in *. unfold closer.
  destruct (Z.ltb_spec (Z.abs (mx - timestamp)) (Z.abs (mtime - timestamp))) as [Hlt|Hge].
  - exists (length l), fx, mx. split; [|done]. split.
    + by rewrite lookup_app_r, Nat.sub_diag.
    + intros j f m Hj.
      destruct (decide (j < length l)%nat) as [Hjl|Hjl].
      * rewrite lookup_app_l in Hj by done.
        destruct (Hbest j f m Hj) as [Hle _]. split; lia.
      * rewrite lookup_app_r in Hj by lia.
        destruct (j - length l)%nat eqn:Hd; simplify_eq/=. split; lia.
  - exists i, file, mtime. split; [|done].
    pose proof (lookup_lt_Some _ _ _ Hi) as Hil. split.
    + by rewrite lookup_app_l.
    + intros j f m Hj.
      destruct (decide (j < length l)%nat) as [Hjl|Hjl].
      * rewrite lookup_app_l in Hj by done. by apply (Hbest j f m).
      * rewrite lookup_app_r in Hj by lia.
        destruct (j - length l)%nat eqn:Hd; simplify_eq/=. split; lia.
Qed.

Lemma findSessionByTimestamp_closest fs root encodedProject timestamp files candidates :
  readdirNames fs (join root encodedProject) = Some files →
  candidatesOf fs (join root encodedProject) files candidates →
  candidates ≠ [] →
  ∃ (i : nat) (file : string) (mtime : Z),
    isClosest timestamp candidates i file mtime
    ∧ findSessionByTimestamp fs root encodedProject timestamp
      = Some (basename file ".jsonl")
    ∧ bytes_of (basename file ".jsonl") ++ bytes_of ".jsonl" = bytes_of file.
Proof.
  intros Hdir Hcand Hne. unfold findSessionByTimestamp. rewrite Hdir.
  assert (mapM (λ file,
             (λ fileStat, (file, Stats.mtimeMs fileStat))
               <$> stat fs (join (join root encodedProject) file))
            (List.filter (λ f, endsWith f ".jsonl") files) = Some candidates) as ->.
  { apply mapM_Some. eapply Forall2_impl; [exact Hcand|].
    intros file [f m] [Hf Hm]. simpl in *. subst f.
    destruct (stat fs _) as [fileStat|]; simplify_eq/=. done. }
  destruct (closer_fold timestamp candidates Hne) as (i & file & mtime & Hbest & ->).
  exists i, file, mtime. split; [done|].
  assert (endsWith file ".jsonl" = true) as Hends.
  { destruct Hbest as [Hi _].
    destruct (Forall2_lookup_r _ _ _ _ _ Hcand Hi) as (file' & Hfile' & Hf & _).
    simpl in Hf. subst file'.
    apply list_elem_of_lookup_2, list_elem_of_In in Hfile'.
    by apply filter_In in Hfile' as [_ Hends]. }
  split; [|by apply basename_ext].
  rewrite truthyName_Some; [done|]. by apply endsWith_nonempty.
Qed.

End Resolver.

(** C6 -- resolution by nearest modification time.  For a history entry
    that carries no session id, [getSessions] lists the directory named by
    the encoded project path, keeps the [.jsonl] files and asks [stat] for
    each; when there is at least one, the session id is the name, minus
    [.jsonl], of the file whose modification time is nearest to the
    entry's timestamp, and of the first such file in listing order when
    several are equally near: [candidates !! i] is that file, no candidate
    is nearer to the timestamp, and those listed before it are strictly
    farther. *)
Theorem nearest_mtime_resolves
    (fs : FileSystem) (root : string) (entry : HistoryEntry.t)
    (files : list string) (candidates : list (string * Z)) :
  truthyName (HistoryEntry.sessionId entry) = None →
  let projectPath := join root (encodeProjectPath (HistoryEntry.project entry)) in
  readdirNames fs projectPath = Some files →
  candidatesOf fs projectPath files candidates →
  candidates ≠ [] →
  ∃ (i : nat) (file : string) (mtime : Z),
    isClosest (HistoryEntry.timestamp entry) candidates i file mtime
    ∧ resolveSessionId fs root entry = Some (basename file ".jsonl")
    ∧ bytes_of (basename file ".jsonl") ++ bytes_of ".jsonl" = bytes_of file.
Proof.
  intros Hnone projectPath Hdir Hcand Hne. unfold resolveSessionId.
  rewrite Hnone. by eapply findSessionByTimestamp_closest.
Qed.

(** Modification times 10, 50 and 90 against the timestamp 55. *)
Lemma nearest_mtime_resolves_witness :
  ∃ (i : nat) (file : string) (mtime : Z),
    isClosest 55 ResolverExample.candidates i file mtime
    ∧ resolveSessionId ResolverExample.fs "/c/projects" ResolverExample.entry
      = Some (basename file ".jsonl")
    ∧ bytes_of (basename file ".jsonl") ++ bytes_of ".jsonl" = bytes_of file.
Proof.
  apply (nearest_mtime_resolves ResolverExample.fs "/c/projects" ResolverExample.entry
           ["early.jsonl"; "readme.md"; "middle.jsonl"; "late.jsonl"]
           ResolverExample.candidates).
  - vm_compute. reflexivity.
  - vm_compute. reflexivity.
  - repeat constructor.
  - discriminate.
Defined.

Example nearest_mtime_example :
  resolveSessionId ResolverExample.fs "/c/projects" ResolverExample.entry = Some "middle".
Proof. vm_compute. reflexivity. Qed.

(** Equal distances: 50 and 60 are both 5 away from 55; the file listed
    first is taken. *)
Example nearest_mtime_tie_example :
  (foldl (closer 55) (None, None) [("a.jsonl", 60); ("b.jsonl", 50)]).1
  = Some "a.jsonl".
Proof. vm_compute. reflexivity. Qed.

(** ** The session list *)

Section Sorting.

Implicit Types (s x y : Session.t) (l : list Session.t).

Lemma elem_of_insertSorted x y l :
  y ∈ insertSorted byRecency x l ↔ y = x ∨ y ∈ l.
Proof.
  induction l as [|z l IH]; simpl.
  - rewrite elem_of_cons, elem_of_nil. tauto.
  - destruct (byRecency x z <=? 0).
    + by rewrite elem_of_cons.
    + rewrite !elem_of_cons, IH. tauto.
Qed.

Lemma elem_of_sortWith y l : y ∈ sortWith byRecency l ↔ y ∈ l.
Proof.
  induction l as [|x l IH]; simpl; [done|].
  by rewrite elem_of_insertSorted, IH, elem_of_cons.
Qed.

Lemma insertSorted_sorted x l :
  StronglySorted newerFirst l →
  StronglySorted newerFirst (insertSorted byRecency x l).
Proof.
  induction 1 as [|z l Hl IH Hz]; simpl; [repeat constructor|].
  unfold byRecency at 1. destruct (Z.leb_spec (Session.timestamp z - Session.timestamp x) 0).
  - constructor; [by constructor|]. constructor; [unfold newerFirst; lia|].
    eapply Forall_impl; [exact Hz|]. unfold newerFirst. intros; lia.
  - constructor; [done|]. apply Forall_forall. intros y Hy.
    apply elem_of_insertSorted in Hy as [->|Hy]; [unfold newerFirst; lia|].
    by eapply Forall_forall in Hz.
Qed.

Lemma sortWith_sorted l : StronglySorted newerFirst (sortWith byRecency l).
Proof.
  induction l as [|x l IH]; simpl; [constructor|by apply insertSorted_sorted].
Qed.

Lemma insertSorted_perm x l : insertSorted byRecency x l ≡ₚ x :: l.
Proof.
  induction l as [|z l IH]; simpl; [done|].
  destruct (byRecency x z <=? 0); [done|]. by rewrite IH, Permutation_swap.
Qed.

Lemma sortWith_perm l : sortWith byRecency l ≡ₚ l.
Proof.
  induction l as [|x l IH]; simpl; [done|]. by rewrite insertSorted_perm, IH.
Qed.

(** Stability: the sessions of one timestamp keep their order. *)
Lemma insertSorted_filter (t : Z) x l :
  filter (λ y, Session.timestamp y = t) (insertSorted byRecency x l)
  = filter (λ y, Session.timestamp y = t) (x :: l).
Proof.
  induction l as [|z l IH]; simpl; [done|].
  unfold byRecency at 1.
  destruct (Z.leb_spec (Session.timestamp z - Session.timestamp x) 0); [done|].
  rewrite filter_cons, IH, !filter_cons.
  repeat case_decide; try done; lia.
Qed.

Lemma sortWith_filter (t : Z) l :
  filter (λ y, Session.timestamp y = t) (sortWith byRecency l)
  = filter (λ y, Session.timestamp y = t) l.
Proof.
  induction l as [|x l IH]; simpl; [done|].
  by rewrite insertSorted_filter, !filter_cons, IH.
Qed.

Lemma filter_sublist_mono (P : Session.t → Prop) `{!∀ y, Decision (P y)} l k :
  l `sublist_of` k → filter P l `sublist_of` filter P k.
Proof.
  induction 1 as [|y l k _ IH|y l k _ IH]; [done| |].
  - rewrite !filter_cons. case_decide; [by constructor|done].
  - rewrite filter_cons. case_decide; [by constructor|done].
Qed.

Lemma sortWith_stable x y l :
  [x; y] `sublist_of` sortWith byRecency l →
  Session.timestamp x = Session.timestamp y →
  [x; y] `sublist_of` l.
Proof.
  intros Hsub Heq.
  apply (filter_sublist_mono (λ z, Session.timestamp z = Session.timestamp y)) in Hsub.
  rewrite sortWith_filter, !filter_cons in Hsub. simpl in Hsub.
  rewrite decide_True, decide_True in Hsub by done.
  etrans; [exact Hsub|apply sublist_filter].
Qed.

End Sorting.

Section SessionList.

Variable resolve : HistoryEntry.t → option string.

Lemma firstEntryOf_later entry earlier e s :
  resolve entry ≠ Some (Session.id s) →
  firstEntryOf resolve earlier e s →
  firstEntryOf resolve (entry :: earlier) e s.
Proof.
  intros Hne (He & Hearlier & Hs). split_and!; [done| |done].
  intros e' [->|He']%elem_of_cons; [done|by apply Hearlier].
Qed.

Lemma firstEntryOf_here sessionId entry :
  resolve entry = Some sessionId →
  firstEntryOf resolve [] entry (sessionOf sessionId entry).
Proof.
  intros Hres. split_and!; [done| |done]. by intros e' ?%elem_of_nil.
Qed.

(** Each collected session is the first entry of its id, and its id was
    not taken before. *)
Lemma collectFrom_first seenIds entries s :
  s ∈ collectFrom resolve seenIds entries →
  (Session.id s ∉ seenIds)
  ∧ (∃ h1 e h2, entries = h1 ++ e :: h2 ∧ firstEntryOf resolve h1 e s).
Proof.
  revert seenIds. induction entries as [|entry rest IH]; intros seenIds; simpl.
  { by intros ?%elem_of_nil. }
  destruct (resolve entry) as [sessionId|] eqn:Hres.
  - case_bool_decide as Hseen.
    + intros (Hs & h1 & e & h2 & -> & Hfirst)%IH. split; [done|].
      exists (entry :: h1), e, h2. split; [done|].
      apply firstEntryOf_later; [|done]. rewrite Hres. congruence.
    + intros [->|Hin]%elem_of_cons.
      * split; [done|]. exists [], entry, rest. split; [done|].
        by apply firstEntryOf_here.
      * apply IH in Hin as (Hs & h1 & e & h2 & -> & Hfirst).
        apply not_elem_of_union in Hs as [Hne%not_elem_of_singleton Hs].
        split; [done|].
        exists (entry :: h1), e, h2. split; [done|].
        apply firstEntryOf_later; [|done]. rewrite Hres. congruence.
  - intros (Hs & h1 & e & h2 & -> & Hfirst)%IH. split; [done|].
    exists (entry :: h1), e, h2. split; [done|].
    apply firstEntryOf_later; [|done]. by rewrite Hres.
Qed.

Lemma collectFrom_NoDup seenIds entries :
  NoDup (Session.id <$> collectFrom resolve seenIds entries).
Proof.
  revert seenIds. induction entries as [|entry rest IH]; intros seenIds; simpl.
  { constructor. }
  destruct (resolve entry) as [sessionId|]; [|done].
  case_bool_decide; [done|]. simpl. constructor; [|done].
  intros (s & Hid & Hs)%list_elem_of_fmap.
  apply collectFrom_first in Hs as [Hs _]. simpl in Hid. subst sessionId.
  apply Hs, elem_of_union_l. by apply elem_of_singleton.
Qed.

(** Two collected sessions stand in the order of their first entries. *)
Lemma collectFrom_order seenIds entries a b :
  [a; b] `sublist_of` collectFrom resolve seenIds entries →
  ((Session.id a ∉ seenIds) ∧ (Session.id b ∉ seenIds))
  ∧ (∃ h1 ea h2 eb h3,
        entries = h1 ++ ea :: h2 ++ eb :: h3
        ∧ firstEntryOf resolve h1 ea a
        ∧ firstEntryOf resolve (h1 ++ ea :: h2) eb b).
Proof.
  revert seenIds. induction entries as [|entry rest IH]; intros seenIds; simpl.
  { intros H. by apply sublist_nil_r in H. }
  assert (∀ seen',
    seenIds ⊆ seen' →
    (∀ x, resolve entry = Some x → x ∈ seen') →
    [a; b] `sublist_of` collectFrom resolve seen' rest →
    ((Session.id a ∉ seenIds) ∧ (Session.id b ∉ seenIds))
    ∧ (∃ h1 ea h2 eb h3,
          entry :: rest = h1 ++ ea :: h2 ++ eb :: h3
          ∧ firstEntryOf resolve h1 ea a
          ∧ firstEntryOf resolve (h1 ++ ea :: h2) eb b)) as Hskip.
  { intros seen' Hsub Hres
      ([Ha Hb] & h1 & ea & h2 & eb & h3 & -> & Hfa & Hfb)%IH.
    split; [split; intros Hx; [apply Ha|apply Hb]; by apply Hsub|].
    exists (entry :: h1), ea, h2, eb, h3. split_and!; [done| |].
    - apply firstEntryOf_later; [|done]. intros Hx. by apply Ha, Hres.
    - apply (firstEntryOf_later entry (h1 ++ ea :: h2)); [|done].
      intros Hx. by apply Hb, Hres. }
  destruct (resolve entry) as [sessionId|] eqn:Hres.
  - case_bool_decide as Hseen.
    + apply Hskip; [done|]. by intros x [= <-].
    + intros [Hsub|(l' & [= Ha Hl'] & Hb)]%sublist_cons_r.
      * apply (Hskip ({[sessionId]} ∪ seenIds)); [apply union_subseteq_r| |done].
        intros x [= <-]. apply elem_of_union_l. by apply elem_of_singleton.
      * subst a l'.
        apply singleton_sublist_l, collectFrom_first in Hb
          as (Hb & h1 & eb & h2 & -> & Hfb & Hearlier & Hmeta).
        apply not_elem_of_union in Hb as [Hne%not_elem_of_singleton Hb].
        split; [done|].
        exists [], entry, h1, eb, h2. split_and!; [done| |].
        -- by apply firstEntryOf_here.
        -- split_and!; [done| |done].
           intros e' [->|He']%elem_of_cons; [|by apply Hearlier].
           rewrite Hres. congruence.
  - intros ([Ha Hb] & h1 & ea & h2 & eb & h3 & -> & Hfa & Hfb)%IH.
    split; [done|].
    exists (entry :: h1), ea, h2, eb, h3. split_and!; [done| |].
    + apply firstEntryOf_later; [by rewrite Hres|done].
    + apply (firstEntryOf_later entry (h1 ++ ea :: h2)); [by rewrite Hres|done].
Qed.

End SessionList.

Section GetSessions.

Variable JSON_parse_entry : bytes → option HistoryEntry.t.

Lemma historyEntries_projectsDir fs st :
  projectsDir (historyEntries JSON_parse_entry fs st).2 = projectsDir st.
Proof.
  unfold historyEntries, loadHistoryCache. destruct (historyCache st); [done|].
  by destruct (readFile fs _).
Qed.

(** The loop of [getSessions] appends to [sessions] what [collectFrom]
    describes. *)
Lemma collectSession_fold fs root entries sessions seenIds :
  (foldl (collectSession fs root) (sessions, seenIds) entries).1
  = sessions
    ++ collectFrom (λ e, truthyName (resolveSessionId fs root e)) seenIds entries.
Proof.
  revert sessions seenIds.
  induction entries as [|entry rest IH]; intros sessions seenIds; simpl.
  { by rewrite app_nil_r. }
  destruct (truthyName (resolveSessionId fs root entry)) as [sessionId|]; [|apply IH].
  case_bool_decide; [apply IH|]. by rewrite IH, <- app_assoc.
Qed.

Lemma getSessions_sorted_collect fs st :
  (getSessions JSON_parse_entry fs st).1
  = sortWith byRecency
      (collectFrom (λ e, truthyName (resolveSessionId fs (projectsDir st) e)) ∅
         (historyEntries JSON_parse_entry fs st).1).
Proof.
  unfold getSessions, collectSessions.
  pose proof (historyEntries_projectsDir fs st) as Hdir.
  destruct (historyEntries JSON_parse_entry fs st) as [entries st']. simpl in *.
  by rewrite Hdir, collectSession_fold.
Qed.

End GetSessions.


(** ** Request coalescing *)

Section Coalescing.

Import Coalesce.

Lemma consistent_initial : consistent initial.
Proof.
  split_and!; try done.
  - constructor.
  - intros p. split; [by intros ?%elem_of_nil|]. by intros (k & o & ?).
Qed.

Lemma dedupe_attach key promise st :
  pendingRequests st !! key = Some promise → dedupe key st = (promise, st).
Proof. intros H. unfold dedupe. by rewrite H. Qed.

Lemma consistent_dedupe key st : consistent st → consistent (dedupe key st).2.
Proof.
  intros (Hreg & Hexec & Hnodup & Hrem). unfold dedupe.
  destruct (pendingRequests st !! key) as [existing|] eqn:Hkey; [done|].
  simpl. split_and!; simpl.
  - intros k p. destruct (decide (k = key)) as [->|Hk].
    + rewrite lookup_insert_eq. split.
      * intros [= <-]. by rewrite lookup_app_r, Nat.sub_diag.
      * intros Hp. destruct (decide (p < length (promises st))%nat) as [Hlt|Hge].
        -- rewrite lookup_app_l in Hp by done.
           apply Hreg in Hp. congruence.
        -- rewrite lookup_app_r in Hp by lia.
           destruct (p - length (promises st))%nat eqn:Hd; simplify_eq/=.
           f_equal. lia.
    + rewrite lookup_insert_ne by done. rewrite Hreg. split.
      * intros Hp. rewrite lookup_app_l; [done|]. by eapply lookup_lt_Some.
      * intros Hp. destruct (decide (p < length (promises st))%nat) as [Hlt|Hge].
        -- by rewrite lookup_app_l in Hp.
        -- rewrite lookup_app_r in Hp by lia.
           destruct (p - length (promises st))%nat eqn:Hd; simplify_eq/=.
  - by rewrite fmap_app, Hexec.
  - done.
  - intros p. rewrite Hrem. split; intros (k & o & Hp); exists k, o.
    + rewrite lookup_app_l; [done|]. by eapply lookup_lt_Some.
    + destruct (decide (p < length (promises st))%nat) as [Hlt|Hge].
      * by rewrite lookup_app_l in Hp.
      * rewrite lookup_app_r in Hp by lia.
        destruct (p - length (promises st))%nat eqn:Hd; simplify_eq/=.
Qed.

Lemma consistent_settle promise o st st' :
  consistent st → settle promise o st = Some st' → consistent st'.
Proof.
  intros (Hreg & Hexec & Hnodup & Hrem). unfold settle.
  destruct (promises st !! promise) as [[key [o'|]]|] eqn:Hp; try done.
  intros [= <-]. pose proof (lookup_lt_Some _ _ _ Hp) as Hlt.
  split_and!; simpl.
  - intros k p. destruct (decide (p = promise)) as [->|Hne].
    + rewrite list_lookup_insert_eq by done. split; [|done].
      intros Hk. destruct (decide (k = key)) as [->|Hkk].
      * by rewrite lookup_delete_eq in Hk.
      * rewrite lookup_delete_ne in Hk by done. apply Hreg in Hk. congruence.
    + rewrite list_lookup_insert_ne by done. rewrite <- Hreg.
      destruct (decide (k = key)) as [->|Hkk].
      * rewrite lookup_delete_eq. split; [done|].
        intros Hk. apply Hreg in Hp. congruence.
      * by rewrite lookup_delete_ne.
  - rewrite Hexec. apply list_eq. intros i. rewrite !list_lookup_fmap.
    destruct (decide (i = promise)) as [->|Hne].
    + by rewrite list_lookup_insert_eq, Hp.
    + by rewrite list_lookup_insert_ne.
  - apply NoDup_app. split_and!; [done| |apply NoDup_singleton].
    intros p Hin ->%list_elem_of_singleton.
    apply Hrem in Hin as (k & o'' & Hin). congruence.
  - intros p. rewrite elem_of_app, list_elem_of_singleton, Hrem.
    destruct (decide (p = promise)) as [->|Hne].
    + rewrite list_lookup_insert_eq by done. split; [eauto|by right].
    + rewrite list_lookup_insert_ne by done. split; [|by left].
      by intros [?|?].
Qed.

Lemma consistent_step st e : consistent st → consistent (step st e).
Proof.
  intros Hst. destruct e as [key|promise o]; simpl.
  - by apply consistent_dedupe.
  - destruct (settle promise o st) as [st'|] eqn:Hsettle; [|done].
    by eapply consistent_settle.
Qed.

Lemma consistent_run events st : consistent st → consistent (run events st).
Proof.
  revert st. induction events as [|e events IH]; intros st Hst; [done|].
  apply IH. by apply consistent_step.
Qed.

End Coalescing.

Section InFlight.

Import Coalesce.

Lemma executionsOf_app key (st : state) k :
  executionsOf key
    (mkState (<[k := length (promises st)]> (pendingRequests st))
             (promises st ++ [(k, None)]) (executions st ++ [k]) (removals st))
  = (executionsOf key st + (if String.eqb key k then 1 else 0))%nat.
Proof.
  unfold executionsOf. simpl. rewrite List.filter_app, length_app. simpl.
  by destruct (String.eqb key k).
Qed.

(** While the promise registered for [key] is not settled, the registry
    keeps it and [fn] is not called again for [key]. *)
Lemma inFlight_step key promise st e :
  consistent st →
  pendingRequests st !! key = Some promise →
  leavesInFlight promise e = true →
  pendingRequests (step st e) !! key = Some promise
  ∧ executionsOf key (step st e) = executionsOf key st.
Proof.
  intros (Hreg & _) Hkey Hleaves. destruct e as [k|p o]; simpl.
  - unfold dedupe. destruct (pendingRequests st !! k) as [existing|] eqn:Hk; [done|].
    assert (k ≠ key) as Hne by congruence. simpl.
    rewrite lookup_insert_ne by done. split; [done|].
    rewrite executionsOf_app.
    destruct (String.eqb_spec key k); [congruence|lia].
  - simpl in Hleaves. apply negb_true_iff, Nat.eqb_neq in Hleaves.
    unfold settle. destruct (promises st !! p) as [[k [o'|]]|] eqn:Hp; try done.
    simpl. split; [|done].
    rewrite lookup_delete_ne; [done|].
    intros ->. apply Hreg in Hp. congruence.
Qed.

Lemma inFlight_run key promise events st :
  consistent st →
  pendingRequests st !! key = Some promise →
  forallb (leavesInFlight promise) events = true →
  pendingRequests (run events st) !! key = Some promise
  ∧ executionsOf key (run events st) = executionsOf key st.
Proof.
  revert st. induction events as [|e events IH]; intros st Hst Hkey Hall; [done|].
  simpl in Hall. apply andb_true_iff in Hall as [He Hall].
  destruct (inFlight_step key promise st e Hst Hkey He) as [Hkey' Hexec].
  destruct (IH (step st e) (consistent_step _ _ Hst) Hkey' Hall) as [Hk Hx].
  simpl. split; [done|]. by rewrite Hx.
Qed.

End InFlight.

(** C7 -- request coalescing.  Take any state the engine has reached and
    a key with no computation in flight.  A first request [dedupe(key,
    fn)] calls [fn] and registers its promise.  Whatever other requests
    and completions happen next, as long as that promise is not settled a
    second request with the same key is handed the same promise, leaves
    the state as it is and does not call [fn]: [fn] has run once for the
    two.  When the computation finishes, with either outcome, the key is
    deleted from the registry, by a removal that had not happened before
    and cannot happen again; the next request with the key calls [fn]
    anew under a new promise.  In every reachable state the removals are
    the settled promises, each once. *)
Theorem coalesced_requests_share
    (events : list Coalesce.event) (key : string)
    (between : list Coalesce.event) (o : Coalesce.outcome) :
  let s0 := Coalesce.run events Coalesce.initial in
  let p1 := (Coalesce.dedupe key s0).1 in
  let s1 := (Coalesce.dedupe key s0).2 in
  let s2 := Coalesce.run between s1 in
  Coalesce.pendingRequests s0 !! key = None →
  forallb (Coalesce.leavesInFlight p1) between = true →
  Coalesce.executions s1 = Coalesce.executions s0 ++ [key]
  ∧ Coalesce.dedupe key s2 = (p1, s2)
  ∧ Coalesce.executionsOf key s2 = S (Coalesce.executionsOf key s0)
  ∧ (∃ s3,
        Coalesce.settle p1 o s2 = Some s3
        ∧ Coalesce.pendingRequests s3 !! key = None
        ∧ (p1 ∉ Coalesce.removals s2)
        ∧ Coalesce.removals s3 = Coalesce.removals s2 ++ [p1]
        ∧ (∀ o', Coalesce.settle p1 o' s3 = None)
        ∧ (Coalesce.dedupe key s3).1 ≠ p1
        ∧ Coalesce.executions (Coalesce.dedupe key s3).2
          = Coalesce.executions s3 ++ [key])
  ∧ Coalesce.consistent s2.
Proof.
  intros s0 p1 s1 s2 Hfree Hbetween.
  assert (Coalesce.consistent s0) as Hs0
    by apply consistent_run, consistent_initial.
  assert (Coalesce.consistent s1) as Hs1 by by apply consistent_dedupe.
  assert (Coalesce.consistent s2) as Hs2 by by apply consistent_run.
  assert (p1 = length (Coalesce.promises s0)
          ∧ Coalesce.pendingRequests s1 !! key = Some p1
          ∧ Coalesce.executions s1 = Coalesce.executions s0 ++ [key]
          ∧ Coalesce.executionsOf key s1 = S (Coalesce.executionsOf key s0))
    as (Hp1 & Hreg1 & Hexec1 & Hcount1).
  { subst p1 s1. unfold Coalesce.dedupe. rewrite Hfree. simpl.
    rewrite lookup_insert_eq. split_and!; try done.
    rewrite executionsOf_app, String.eqb_refl. lia. }
  destruct (inFlight_run key p1 between s1 Hs1 Hreg1 Hbetween) as [Hreg2 Hcount2].
  fold s2 in Hreg2, Hcount2.
  split_and!; [done|by apply dedupe_attach|congruence| |done].
  pose proof Hs2 as (Hreg & _ & _ & Hrem).
  pose proof (proj1 (Hreg key p1) Hreg2) as Hflight.
  unfold Coalesce.settle at 1. rewrite Hflight. eexists. split; [done|]. simpl.
  pose proof (lookup_lt_Some _ _ _ Hflight) as Hlt.
  split_and!.
  - apply lookup_delete_eq.
  - intros (k & o' & Hsettled)%Hrem. congruence.
  - done.
  - intros o'. unfold Coalesce.settle. simpl.
    by rewrite list_lookup_insert_eq.
  - unfold Coalesce.dedupe. simpl. rewrite lookup_delete_eq. simpl.
    rewrite length_insert. lia.
  - unfold Coalesce.dedupe. simpl. by rewrite lookup_delete_eq.
Qed.

(** Two overlapping [getSessions] requests among other traffic. *)
Lemma coalesced_requests_share_witness :
  let events :=
    [Coalesce.Request "getSessions"; Coalesce.Finish 0 Coalesce.Fulfilled;
     Coalesce.Request "getConversation:s1"] in
  let between :=
    [Coalesce.Request "getConversation:s1"; Coalesce.Finish 1 Coalesce.Rejected;
     Coalesce.Request "getConversation:s2"] in
  let key := "getSessions" in
  let s0 := Coalesce.run events Coalesce.initial in
  let p1 := (Coalesce.dedupe key s0).1 in
  let s1 := (Coalesce.dedupe key s0).2 in
  let s2 := Coalesce.run between s1 in
  Coalesce.executions s1 = Coalesce.executions s0 ++ [key]
  ∧ Coalesce.dedupe key s2 = (p1, s2)
  ∧ Coalesce.executionsOf key s2 = S (Coalesce.executionsOf key s0)
  ∧ (∃ s3,
        Coalesce.settle p1 Coalesce.Rejected s2 = Some s3
        ∧ Coalesce.pendingRequests s3 !! key = None
        ∧ (p1 ∉ Coalesce.removals s2)
        ∧ Coalesce.removals s3 = Coalesce.removals s2 ++ [p1]
        ∧ (∀ o', Coalesce.settle p1 o' s3 = None)
        ∧ (Coalesce.dedupe key s3).1 ≠ p1
        ∧ Coalesce.executions (Coalesce.dedupe key s3).2
          = Coalesce.executions s3 ++ [key])
  ∧ Coalesce.consistent s2.
Proof.
  apply (coalesced_requests_share
           [Coalesce.Request "getSessions"; Coalesce.Finish 0 Coalesce.Fulfilled;
            Coalesce.Request "getConversation:s1"]
           "getSessions"
           [Coalesce.Request "getConversation:s1"; Coalesce.Finish 1 Coalesce.Rejected;
            Coalesce.Request "getConversation:s2"]
           Coalesce.Rejected).
  - vm_compute. reflexivity.
  - vm_compute. reflexivity.
Defined.

Example coalescing_example :
  let s1 := Coalesce.run [Coalesce.Request "getSessions"] Coalesce.initial in
  Coalesce.dedupe "getSessions" s1 = (0%nat, s1)
  ∧ Coalesce.executions s1 = ["getSessions"].
Proof. vm_compute. split; reflexivity. Qed.

(** ** Tail reading against full reading *)

Section WhiteSpace.

Lemma truthy_rev (s : bytes) : truthy (rev s) = truthy s.
Proof.
  destruct s as [|c s]; [done|]. simpl. by destruct (rev s).
Qed.

Lemma truthy_trimStart (s : bytes) :
  truthy (trimStart s) = negb (forallb isWhite s).
Proof.
  induction s as [|c s IH]; simpl; [done|]. by destruct (isWhite c).
Qed.

Lemma forallb_trimStart (s : bytes) :
  forallb isWhite (trimStart s) = forallb isWhite s.
Proof.
  induction s as [|c s IH]; simpl; [done|].
  destruct (isWhite c) eqn:Hc; simpl; [done|]. by rewrite Hc.
Qed.

Lemma forallb_rev (s : bytes) : forallb isWhite (rev s) = forallb isWhite s.
Proof.
  induction s as [|c s IH]; simpl; [done|].
  rewrite forallb_app, IH. simpl. rewrite andb_true_r. apply andb_comm.
Qed.

(** A line is blank when all its characters are white space. *)
Lemma nonBlank_forallb (s : bytes) : nonBlank s = negb (forallb isWhite s).
Proof.
  unfold nonBlank, trim, trimEnd.
  by rewrite truthy_rev, truthy_trimStart, forallb_rev, forallb_trimStart.
Qed.

Lemma nonBlank_cons (w : ascii) (s : bytes) :
  isWhite w = true → nonBlank (w :: s) = nonBlank s.
Proof. intros Hw. rewrite !nonBlank_forallb. simpl. by rewrite Hw. Qed.

Lemma nonBlank_snoc (w : ascii) (s : bytes) :
  isWhite w = true → nonBlank (s ++ [w]) = nonBlank s.
Proof.
  intros Hw. rewrite !nonBlank_forallb, forallb_app. simpl.
  by rewrite Hw, !andb_true_r.
Qed.

Lemma trimEnd_snoc (w : ascii) (s : bytes) :
  trimEnd (s ++ [w]) = if isWhite w then trimEnd s else s ++ [w].
Proof.
  unfold trimEnd. rewrite rev_app_distr. simpl.
  destruct (isWhite w); [done|]. simpl. by rewrite rev_involutive.
Qed.

Lemma isWhite_LF : isWhite LF = true.
Proof. reflexivity. Qed.

End WhiteSpace.

Section SplitLines.

Lemma splitLF_nonempty (s : bytes) : splitLF s ≠ [].
Proof.
  induction s as [|c s IH]; simpl; [done|].
  destruct (Ascii.eqb c LF); [done|]. by destruct (splitLF s).
Qed.

Lemma consumedBy_pushFront (c : ascii) (ls : list bytes) :
  ls ≠ [] → consumedBy (pushFront c ls) = 1 + consumedBy ls.
Proof.
  destruct ls as [|l ls]; [done|]. intros _. unfold pushFront.
  rewrite !consumedBy_cons, byteLength_cons. lia.
Qed.

Lemma consumedBy_splitLF (s : bytes) : consumedBy (splitLF s) = byteLength s + 1.
Proof.
  induction s as [|c s IH]; simpl; [done|]. rewrite byteLength_cons.
  destruct (Ascii.eqb c LF).
  - rewrite consumedBy_cons, IH. change (byteLength []) with 0. lia.
  - rewrite consumedBy_pushFront, IH by apply splitLF_nonempty. lia.
Qed.

(** Without carriage returns, [readline] cuts where [split("\n")] cuts,
    and leaves out the empty piece after a final line feed. *)
Lemma readline_splitLF (s : bytes) :
  CR ∉ s →
  splitLF s = readline s ++ [[]]
  ∨ (readline s ≠ [] ∧ splitLF s = readline s).
Proof.
  unfold readline. induction s as [|c s IH]; intros Hcr; simpl; [by left|].
  apply not_elem_of_cons in Hcr as [Hc Hcr]. specialize (IH Hcr).
  destruct (Ascii.eqb c LF); [|destruct (Ascii.eqb_spec c CR) as [->|_]; [done|]].
  - destruct IH as [->|[Hne ->]]; [by left|by right].
  - destruct IH as [->|[Hne ->]].
    + destruct (readlineFrom false s) as [|l ls]; [by right|by left].
    + right. split; [|done]. by destruct (readlineFrom false s).
Qed.

Lemma consumedBy_readline (s : bytes) :
  CR ∉ s → byteLength s ≤ consumedBy (readline s).
Proof.
  intros Hcr. pose proof (consumedBy_splitLF s) as Hs.
  destruct (readline_splitLF s Hcr) as [H|[_ H]]; rewrite H in Hs.
  - rewrite consumedBy_app in Hs. change (consumedBy [[]]) with 1 in Hs. lia.
  - lia.
Qed.

Lemma splitLF_snoc (s : bytes) (w : ascii) :
  splitLF (s ++ [w])
  = if Ascii.eqb w LF then splitLF s ++ [[]]
    else match splitLF s with
         | [] => [[w]]
         | l :: ls => removelast (l :: ls) ++ [List.last (l :: ls) [] ++ [w]]
         end.
Proof.
  induction s as [|c s IH]; simpl.
  - by destruct (Ascii.eqb w LF).
  - rewrite IH. pose proof (splitLF_nonempty s) as Hne.
    destruct (Ascii.eqb c LF), (Ascii.eqb w LF); simpl; try done.
    + by destruct (splitLF s).
    + by destruct (splitLF s).
    + destruct (splitLF s) as [|l [|l' ls]]; simpl; try done.
Qed.

End SplitLines.

Section Talk.

Variable JSON_parse : bytes → option json.
Hypothesis Hblank : rejectsBlank JSON_parse.
Hypothesis Hwhite : ignoresWhite JSON_parse.

(** The user and assistant records of a list of lines. *)
Let talk (lines : list bytes) : list ConversationMessage :=
  concat (conversational JSON_parse <$> lines).

(** Every piece of [s] between line feeds is blank or decodes. *)
Let good (s : bytes) : Prop :=
  Forall (λ l, halts JSON_parse l = false) (splitLF s).

Lemma talk_app xs ys : talk (xs ++ ys) = talk xs ++ talk ys.
Proof. unfold talk. by rewrite fmap_app, concat_app. Qed.

Lemma talk_cons l ls : talk (l :: ls) = conversational JSON_parse l ++ talk ls.
Proof. reflexivity. Qed.

Lemma conversational_blank l :
  nonBlank l = false → conversational JSON_parse l = [].
Proof. intros Hl. unfold conversational. by rewrite (Hblank l Hl). Qed.

Lemma emits_conversational l : emits JSON_parse l = conversational JSON_parse l.
Proof.
  unfold emits. destruct (nonBlank l) eqn:Hl; [done|].
  by rewrite conversational_blank.
Qed.

Lemma halts_blank l : nonBlank l = false → halts JSON_parse l = false.
Proof. intros Hl. unfold halts. by rewrite Hl. Qed.

(** Dropping a white character at either end of a line that does not
    stop the reader changes neither that nor its record. *)
Lemma white_dropped l l' :
  nonBlank l' = nonBlank l →
  (∀ v, JSON_parse l = Some v → JSON_parse l' = Some v) →
  halts JSON_parse l = false →
  halts JSON_parse l' = false
  ∧ conversational JSON_parse l' = conversational JSON_parse l.
Proof.
  intros Hnb Hparse Hhalt. unfold halts in Hhalt.
  destruct (nonBlank l) eqn:Hl; simpl in Hhalt.
  - apply negb_false_iff in Hhalt. unfold decodes in Hhalt.
    destruct (JSON_parse l) as [v|] eqn:Hv; [|done].
    pose proof (Hparse v eq_refl) as Hv'.
    unfold halts, decodes, conversational. rewrite Hv', Hv, Hhalt.
    by rewrite andb_false_r.
  - split; [by apply halts_blank; rewrite Hnb|].
    rewrite !conversational_blank; [done|done|by rewrite Hnb].
Qed.

Lemma front_dropped w s :
  isWhite w = true → good (w :: s) →
  good s ∧ talk (splitLF s) = talk (splitLF (w :: s)).
Proof.
  unfold good. intros Hw Hgood. simpl in *.
  destruct (Ascii.eqb w LF).
  - apply Forall_cons in Hgood as [_ Hgood]. split; [done|].
    unfold talk. simpl. by rewrite conversational_blank.
  - pose proof (splitLF_nonempty s) as Hne.
    destruct (splitLF s) as [|l ls]; [done|]. simpl in Hgood.
    apply Forall_cons in Hgood as [Hl Hls].
    destruct (white_dropped (w :: l) l) as [Hh Hc];
      [|intros v; apply (proj1 (Hwhite w l v Hw))|done|].
    { symmetry. by apply nonBlank_cons. }
    split; [by constructor|]. unfold talk. simpl. by rewrite Hc.
Qed.

Lemma trimStart_talk s :
  good s → good (trimStart s) ∧ talk (splitLF (trimStart s)) = talk (splitLF s).
Proof.
  induction s as [|w s IH]; intros Hgood; simpl; [done|].
  destruct (isWhite w) eqn:Hw; [|done].
  destruct (front_dropped w s Hw Hgood) as [Hs Heq].
  destruct (IH Hs) as [Hs' Heq']. split; [done|]. by rewrite Heq', Heq.
Qed.

Lemma back_dropped w s :
  isWhite w = true → good (s ++ [w]) →
  good s ∧ talk (splitLF s) = talk (splitLF (s ++ [w])).
Proof.
  unfold good. intros Hw. rewrite splitLF_snoc.
  destruct (Ascii.eqb w LF).
  - intros [Hgood _]%Forall_app. split; [done|].
    rewrite talk_app. unfold talk at 3. simpl.
    by rewrite conversational_blank, !app_nil_r.
  - pose proof (splitLF_nonempty s) as Hne.
    destruct (splitLF s) as [|l ls] eqn:Hs; [done|].
    rewrite (app_removelast_last [] (l:=l :: ls)) at 3 4 by done.
    set (front := removelast (l :: ls)). set (final := List.last (l :: ls) []).
    intros [Hfront [Hfinal _]%Forall_cons]%Forall_app.
    destruct (white_dropped (final ++ [w]) final) as [Hh Hc];
      [|intros v; apply (proj2 (Hwhite w final v Hw))|done|].
    { symmetry. by apply nonBlank_snoc. }
    split.
    + apply Forall_app. split; [done|]. by constructor.
    + rewrite !talk_app. unfold talk at 2 4. simpl. by rewrite Hc.
Qed.

Lemma trimEnd_talk s :
  good s → good (trimEnd s) ∧ talk (splitLF (trimEnd s)) = talk (splitLF s).
Proof.
  induction s as [|w s IH] using rev_ind; intros Hgood; [done|].
  rewrite trimEnd_snoc. destruct (isWhite w) eqn:Hw; [|done].
  destruct (back_dropped w s Hw Hgood) as [Hs Heq].
  destruct (IH Hs) as [Hs' Heq']. split; [done|]. by rewrite Heq', Heq.
Qed.

Lemma filter_truthy_talk lines : talk (List.filter truthy lines) = talk lines.
Proof.
  induction lines as [|l lines IH]; [done|].
  destruct l as [|c l]; cbn [List.filter truthy].
  - by rewrite IH, talk_cons, conversational_blank.
  - by rewrite !talk_cons, IH.
Qed.

(** The full reader's view of the content holds the same user and
    assistant records as the pieces between the line feeds. *)
Lemma contentLines_talk s :
  good s → talk (contentLines s) = talk (splitLF s).
Proof.
  intros Hgood. unfold contentLines, trim. rewrite filter_truthy_talk.
  destruct (trimStart_talk s Hgood) as [Hs Heq].
  destruct (trimEnd_talk _ Hs) as [_ Heq']. by rewrite Heq', Heq.
Qed.

End Talk.

Section ExactLines.

(** Without carriage returns the bytes before a line are exactly those
    the stream reader counts for the lines before it, and reading on
    from the start of the line yields that line first. *)
Lemma readline_locate_exact (data : bytes) :
  ∀ (pre : list bytes) (line : bytes) (rest : list bytes),
    CR ∉ data →
    readline data = pre ++ line :: rest →
    ∃ before after : bytes,
      data = before ++ line ++ after
      ∧ byteLength before = consumedBy pre
      ∧ readline (line ++ after) = line :: rest.
Proof.
  unfold readline.
  induction data as [|c s IH]; intros pre line rest Hcr Hrl; simpl in Hrl.
  { by destruct pre. }
  apply not_elem_of_cons in Hcr as [Hc Hcr].
  destruct (Ascii.eqb c LF) eqn:HLF.
  { destruct pre as [|p0 pre]; simpl in Hrl; injection Hrl as <- Hls.
    - exists [], (c :: s). split_and!; [done|done|]. simpl. by rewrite HLF, Hls.
    - destruct (IH _ _ _ Hcr Hls) as (b & a & -> & Hb & Ha).
      exists (c :: b), a. split_and!; [done| |done].
      rewrite consumedBy_cons, byteLength_cons, Hb.
      change (byteLength []) with 0. lia. }
  destruct (Ascii.eqb_spec c CR) as [->|_]; [done|].
  destruct (readlineFrom false s) as [|l ls] eqn:Hs; simpl in Hrl.
  { apply readlineFrom_nil in Hs as ->.
    destruct pre as [|p0 [|p1 pre]]; simplify_eq/=.
    exists [], []. split_and!; [done|done|]. simpl. rewrite HLF.
    by destruct (Ascii.eqb_spec c CR). }
  destruct pre as [|p0 pre]; simpl in Hrl; injection Hrl as <- Hls.
  - destruct (IH [] l ls Hcr eq_refl) as (b & a & Hdata & Hb & Ha).
    assert (b = []) as -> by (destruct b; [done|]; rewrite byteLength_cons in Hb;
                                 pose proof (byteLength_nonneg b);
                                 change (consumedBy []) with 0 in Hb; lia).
    simpl in Hdata. subst s. exists [], a. split_and!; [done|done|].
    simpl. rewrite HLF. destruct (Ascii.eqb_spec c CR); [done|].
    by rewrite Ha, Hls.
  - destruct (IH (l :: pre) line rest Hcr (f_equal (cons l) Hls))
      as (b & a & -> & Hb & Ha).
    exists (c :: b), a. split_and!; [done| |done].
    rewrite consumedBy_cons, !byteLength_cons in *. lia.
Qed.

End ExactLines.

Section Tail.

Variable JSON_parse : bytes → option json.
Variable fs : FileSystem.
Variable sessionId path : string.
Variable content : bytes.
Hypothesis Hstable : stableFile fs path content.

(** The session resolves to [path] in state [st]. *)
Let resolvesTo (st : ClaudeStorage) : Prop :=
  truthyName (findSessionFile fs st sessionId).1 = Some path.

Lemma findSessionFile_again st :
  resolvesTo st →
  findSessionFile fs (findSessionFile fs st sessionId).2 sessionId
  = findSessionFile fs st sessionId.
Proof.
  unfold resolvesTo, findSessionFile.
  destruct (fileIndex st !! sessionId) as [p|] eqn:Hidx; simpl.
  { by rewrite Hidx. }
  destruct (readdir fs (projectsDir st)) as [dirs|]; [|done].
  destruct (truthyName (findNonNull _)) as [filePath|]; [|done].
  simpl. by rewrite lookup_insert_eq.
Qed.

Lemma getConversationStream_state st fromOffset :
  (getConversationStream JSON_parse fs st sessionId fromOffset).2
  = (findSessionFile fs st sessionId).2.
Proof.
  unfold getConversationStream.
  destruct (findSessionFile fs st sessionId) as [filePath st'].
  destruct (truthyName filePath); [|done].
  destruct (stat fs _); [|done]. destruct (_ >=? _); [done|].
  by destruct (createReadStream fs _ _).
Qed.

Lemma resolvesTo_next st fromOffset :
  resolvesTo st →
  resolvesTo (getConversationStream JSON_parse fs st sessionId fromOffset).2.
Proof.
  intros Hst. unfold resolvesTo.
  by rewrite getConversationStream_state, findSessionFile_again.
Qed.

(** A call from an offset [k] before the end reads the content from
    byte [k] on. *)
Lemma call_before_end st (k : nat) :
  resolvesTo st → (k < length content)%nat →
  (getConversationStream JSON_parse fs st sessionId (Z.of_nat k)).1
  = readStream JSON_parse (Z.of_nat k) (byteLength content) (drop k content).
Proof.
  intros Hst Hk.
  apply (getConversationStream_opens JSON_parse fs st sessionId (Z.of_nat k) path).
  destruct Hstable as (Hstat & _ & Hstream).
  split_and!; [done|done|unfold byteLength; lia|by apply Hstream].
Qed.

Lemma call_on_empty st :
  resolvesTo st → content = [] →
  (getConversationStream JSON_parse fs st sessionId 0).1 = mkStreamResult [] 0.
Proof.
  intros Hst ->. unfold getConversationStream. unfold resolvesTo in Hst.
  destruct (findSessionFile fs st sessionId) as [filePath st']. simpl in Hst.
  rewrite Hst. destruct Hstable as (Hstat & _).
  destruct (stat fs path) as [fileStat|]; simplify_eq/=.
  by rewrite Hstat.
Qed.

(** When no line stops the reader, the first call from offset 0 returns
    the records of all lines and reaches the end. *)
Lemma tail_reaches_end st fuel :
  resolvesTo st → CR ∉ content →
  Forall (λ l, halts JSON_parse l = false) (readline content) →
  streamToEnd JSON_parse fs st sessionId (byteLength content) (S fuel) 0
  = Some (concat (emits JSON_parse <$> readline content)).
Proof.
  intros Hst Hcr Hall. simpl.
  destruct (getConversationStream JSON_parse fs st sessionId 0) as [r st'] eqn:Hcall.
  assert (r = (getConversationStream JSON_parse fs st sessionId 0).1) as Hr
    by by rewrite Hcall.
  destruct (decide (content = [])) as [Hempty|Hne].
  - rewrite call_on_empty in Hr by done. subst r. by rewrite Hempty.
  - assert (0 < length content)%nat as Hlen.
    { clear -Hne. destruct content; [done|simpl; lia]. }
    pose proof (call_before_end st 0 Hst Hlen) as Hread.
    change (Z.of_nat 0) with 0 in Hread. rewrite Hread in Hr.
    rewrite drop_0, readStream_passed, (passed_all _ _ Hall) in Hr.
    pose proof (consumedBy_readline content Hcr) as Hle.
    subst r. simpl. rewrite Z.min_r by lia.
    by destruct (Z.geb_spec (byteLength content) (byteLength content)); [|lia].
Qed.

(** A line that stops the reader is never passed: from its first byte
    on, every call returns nothing and the same offset. *)
Lemma tail_stuck_at (before bad after : bytes) (rest : list bytes) :
  content = before ++ bad ++ after →
  readline (bad ++ after) = bad :: rest →
  halts JSON_parse bad = true →
  ∀ fuel st,
    resolvesTo st →
    streamToEnd JSON_parse fs st sessionId (byteLength content) fuel
      (byteLength before) = None.
Proof.
  intros Hcontent Hlines Hhalt.
  assert (bad ≠ []) as Hbad.
  { intros ->. by vm_compute in Hhalt. }
  assert (length before < length content)%nat as Hlt.
  { rewrite Hcontent, !length_app. destruct bad; [done|]. simpl. lia. }
  induction fuel as [|fuel IH]; intros st Hst; [done|]. simpl.
  pose proof (call_before_end st (length before) Hst Hlt) as Hcall.
  pose proof (resolvesTo_next st (byteLength before) Hst) as Hnext.
  unfold byteLength in *.
  destruct (getConversationStream JSON_parse fs st sessionId
              (Z.of_nat (length before))) as [r st'].
  simpl in Hcall, Hnext. subst r.
  replace (drop (length before) content) with (bad ++ after)
    by (by rewrite Hcontent, drop_app_length).
  rewrite readStream_passed, Hlines.
  simpl. rewrite Hhalt. simpl. rewrite Z.add_0_r, Z.min_l by lia.
  destruct (Z.geb_spec (Z.of_nat (length before)) (Z.of_nat (length content)));
    [lia|].
  by rewrite (IH st' Hnext).
Qed.

Lemma tail_never_ends st (pre : list bytes) (bad : bytes) (rest : list bytes) :
  resolvesTo st → CR ∉ content →
  readline content = pre ++ bad :: rest →
  Forall (λ l, halts JSON_parse l = false) pre →
  halts JSON_parse bad = true →
  ∀ fuel,
    streamToEnd JSON_parse fs st sessionId (byteLength content) fuel 0 = None.
Proof.
  intros Hst Hcr Hlines Hpre Hhalt fuel.
  destruct (readline_locate_exact content pre bad rest Hcr Hlines)
    as (before & after & Hcontent & Hbefore & Hrest).
  pose proof (tail_stuck_at before bad after rest Hcontent Hrest Hhalt) as Hstuck.
  assert (bad ≠ []) as Hbad.
  { intros ->. by vm_compute in Hhalt. }
  assert (length before < length content)%nat as Hlt.
  { rewrite Hcontent, !length_app. destruct bad; [done|]. simpl. lia. }
  destruct fuel as [|fuel]; [done|]. simpl.
  pose proof (call_before_end st 0 Hst ltac:(lia)) as Hcall.
  change (Z.of_nat 0) with 0 in Hcall.
  pose proof (resolvesTo_next st 0 Hst) as Hnext.
  destruct (getConversationStream JSON_parse fs st sessionId 0) as [r st'].
  simpl in Hcall, Hnext. subst r.
  rewrite drop_0, readStream_passed, Hlines.
  rewrite (passed_app_halt _ _ _ _ Hhalt), (passed_all _ _ Hpre). simpl.
  rewrite <- Hbefore, Z.add_0_l. unfold byteLength in *. rewrite Z.min_l by lia.
  destruct (Z.geb_spec (Z.of_nat (length before)) (Z.of_nat (length content)));
    [lia|].
  by rewrite (Hstuck fuel st' Hnext).
Qed.

(** The lines either all pass, or there is a first one that stops the
    reader. *)
Lemma first_halting (lines : list bytes) :
  Forall (λ l, halts JSON_parse l = false) lines
  ∨ ∃ pre bad rest,
      lines = pre ++ bad :: rest
      ∧ Forall (λ l, halts JSON_parse l = false) pre
      ∧ halts JSON_parse bad = true.
Proof.
  induction lines as [|l lines IH]; [by left|].
  destruct (halts JSON_parse l) eqn:Hl.
  - right. exists [], l, lines. by split_and!.
  - destruct IH as [IH|(pre & bad & rest & -> & Hpre & Hbad)].
    + left. by constructor.
    + right. exists (l :: pre), bad, rest. split_and!; [done| |done].
      by constructor.
Qed.

End Tail.

Section FullReading.

Variable JSON_parse : bytes → option json.

Lemma conversational_kept lines :
  List.filter isConversational (concat (conversational JSON_parse <$> lines))
  = concat (conversational JSON_parse <$> lines).
Proof.
  induction lines as [|l lines IH]; [done|].
  rewrite fmap_cons, concat_cons, List.filter_app, IH. f_equal.
  unfold conversational.
  destruct (JSON_parse l) as [msg|]; [|done].
  destruct (getType msg) as [t|] eqn:Ht; [|done].
  destruct (isUserOrAssistant t) eqn:Hua; [|done].
  simpl. unfold isConversational. by rewrite Ht, Hua.
Qed.

Lemma summaries_dropped lines :
  List.filter isConversational (rev (concat (summaries JSON_parse <$> lines))) = [].
Proof.
  induction lines as [|l lines IH]; [done|].
  rewrite fmap_cons, concat_cons, rev_app_distr, List.filter_app, IH, app_nil_l.
  unfold summaries.
  destruct (JSON_parse l) as [msg|]; [|done].
  destruct (getType msg) as [t|] eqn:Ht; [|done].
  destruct (isUserOrAssistant t) eqn:Hua; [done|].
  destruct (isTag t "summary"); [|done].
  simpl. unfold isConversational. by rewrite Ht, Hua.
Qed.

(** The user and assistant records [getConversation] returns. *)
Lemma getConversation_conversational fs st sessionId path content :
  truthyName (findSessionFile fs st sessionId).1 = Some path →
  readFile fs path = Some content →
  List.filter isConversational (getConversation JSON_parse fs st sessionId).1
  = concat (conversational JSON_parse <$> contentLines content).
Proof.
  intros Hpath Hread.
  rewrite (getConversation_read _ _ _ _ _ _ Hpath Hread), readLine_fold.
  by rewrite app_nil_l, List.filter_app, summaries_dropped, conversational_kept.
Qed.

Hypothesis Hblank : rejectsBlank JSON_parse.
Hypothesis Hwhite : ignoresWhite JSON_parse.

(** When every line passes, the stream reader's records of the lines are
    the full reader's user and assistant records. *)
Lemma passing_lines_agree content :
  CR ∉ content →
  Forall (λ l, halts JSON_parse l = false) (readline content) →
  concat (emits JSON_parse <$> readline content)
  = concat (conversational JSON_parse <$> contentLines content).
Proof.
  intros Hcr Hall.
  assert (Forall (λ l, halts JSON_parse l = false) (splitLF content)
          ∧ concat (conversational JSON_parse <$> splitLF content)
            = concat (conversational JSON_parse <$> readline content))
    as [Hgood Hsame].
  { destruct (readline_splitLF content Hcr) as [->|[_ ->]]; [|done]. split.
    - apply Forall_app. split; [done|]. by repeat constructor.
    - rewrite fmap_app, concat_app. simpl.
      by rewrite (conversational_blank _ Hblank []), !app_nil_r. }
  rewrite (contentLines_talk _ Hblank Hwhite content Hgood), Hsame.
  f_equal. apply list_fmap_ext. intros _ l _.
  by apply emits_conversational.
Qed.

End FullReading.

(** ** The reader of the examples obeys the two laws of [JSON.parse] *)

Section ReaderLaws.

Import Reader.

Lemma readText_white (c : ascii) (t : bytes) :
  isWhite c = true → readText (c :: t) = None.
Proof.
  intros Hc. unfold readText.
  destruct (Ascii.eqb_spec c "{"%char) as [->|_]; [discriminate Hc|].
  rewrite bool_decide_eq_false_2; [done|].
  intros [= -> _]. discriminate Hc.
Qed.

Lemma readString_suffix (s : bytes) (str : string) (rest : bytes) :
  readString s = Some (str, rest) → ∃ k, s = k ++ rest.
Proof.
  revert str. induction s as [|c s IH]; intros str; simpl; [done|].
  destruct (Ascii.eqb c dquote).
  { intros [= _ <-]. by exists [c]. }
  destruct (_ || _); [done|].
  destruct (readString s) as [[str' rest']|]; [|done].
  intros [= _ <-]. destruct (IH str' eq_refl) as [k ->]. by exists (c :: k).
Qed.

Lemma readDigits_suffix (s : bytes) (acc n : Z) (rest : bytes) :
  readDigits acc s = (n, rest) → ∃ k, s = k ++ rest.
Proof.
  revert acc. induction s as [|c s IH]; intros acc; simpl.
  { intros [= _ <-]. by exists []. }
  destruct (isDigit c).
  - intros [k ->]%IH. by exists (c :: k).
  - intros [= _ <-]. by exists [].
Qed.

Lemma readValue_suffix (s : bytes) (v : json) (rest : bytes) :
  readValue s = Some (v, rest) → ∃ k, s = k ++ rest.
Proof.
  unfold readValue. destruct s as [|c s]; [done|].
  destruct (Ascii.eqb c dquote).
  { destruct (readString s) as [[str rest']|] eqn:Hs; [|done].
    intros [= _ <-]. apply readString_suffix in Hs as [k ->]. by exists (c :: k). }
  destruct (Ascii.eqb c "n"%char).
  { case_bool_decide; [|done]. intros [= _ <-].
    exists (c :: take 3 s). simpl. by rewrite take_drop. }
  destruct (Ascii.eqb c "0"%char).
  { intros [= _ <-]. by exists [c]. }
  destruct (isDigit c); [|done].
  destruct (readDigits 0 (c :: s)) as [n rest'] eqn:Hd.
  intros [= _ <-]. by apply readDigits_suffix in Hd.
Qed.

Lemma readMembers_end (fuel : nat) :
  ∀ (s : bytes) (fields fields' : list (string * json)) (rest : bytes),
    readMembers fuel s fields = Some (fields', rest) →
    ∃ k, s = k ++ "}"%char :: rest.
Proof.
  induction fuel as [|fuel IH]; intros s fields fields' rest; simpl; [done|].
  destruct s as [|c s1]; [done|].
  destruct (Ascii.eqb c dquote); [|done].
  destruct (readString s1) as [[key [|c2 s3]]|] eqn:Hkey; try done.
  destruct (Ascii.eqb c2 ":"%char); [|done].
  destruct (readValue s3) as [[v [|c4 s5]]|] eqn:Hval; try done.
  apply readString_suffix in Hkey as [k1 ->].
  apply readValue_suffix in Hval as [k2 ->].
  destruct (Ascii.eqb c4 ","%char).
  { intros [k3 ->]%IH. exists (c :: k1 ++ c2 :: k2 ++ c4 :: k3).
    simpl. by repeat (rewrite <- app_assoc; simpl). }
  destruct (Ascii.eqb_spec c4 "}"%char) as [->|_]; [|done].
  intros [= _ <-]. exists (c :: k1 ++ c2 :: k2).
  simpl. by repeat (rewrite <- app_assoc; simpl).
Qed.

(** A text the reader accepts ends with a character that is not white
    space. *)
Lemma readText_last (x : bytes) (v : json) :
  readText x = Some v → ∃ y c, x = y ++ [c] ∧ isWhite c = false.
Proof.
  unfold readText. destruct x as [|c s]; [done|].
  destruct (Ascii.eqb c "{"%char).
  - case_bool_decide as Hs.
    { intros _. exists [c], "}"%char. by rewrite Hs. }
    destruct (readMembers (length s) s []) as [[fields [|? ?]]|] eqn:Hm; try done.
    intros _. apply readMembers_end in Hm as [k ->].
    by exists (c :: k), "}"%char.
  - case_bool_decide as Hs; [|done].
    intros _. rewrite Hs. by exists (bytes_of "nul"), "l"%char.
Qed.

Lemma skipWhite_app (x y : bytes) :
  skipWhite (x ++ y)
  = if forallb isJsonWhite x then skipWhite y else skipWhite x ++ y.
Proof.
  induction x as [|c x IH]; simpl; [done|]. by destruct (isJsonWhite c).
Qed.

Lemma skipWhite_all (x : bytes) : forallb isJsonWhite x = true → skipWhite x = [].
Proof.
  induction x as [|c x IH]; simpl; [done|]. by destruct (isJsonWhite c).
Qed.

Lemma skipWhite_Forall (P : ascii → Prop) (x : bytes) :
  Forall P x → Forall P (skipWhite x).
Proof.
  induction 1 as [|c x Hc Hx IH]; simpl; [done|].
  destruct (isJsonWhite c); [done|by constructor].
Qed.

Lemma isJsonWhite_isWhite (c : ascii) : isJsonWhite c = true → isWhite c = true.
Proof.
  unfold isJsonWhite.
  destruct (Ascii.eqb_spec c " "%char) as [->|_]; [done|].
  destruct (Ascii.eqb_spec c "009"%char) as [->|_]; [done|].
  destruct (Ascii.eqb_spec c LF) as [->|_]; [done|].
  by destruct (Ascii.eqb_spec c CR) as [->|_].
Qed.

Local Arguments readText : simpl never.

Lemma parse_rejectsBlank : rejectsBlank parse.
Proof.
  intros s Hs. rewrite nonBlank_forallb in Hs. apply negb_false_iff in Hs.
  assert (Forall (λ c, isWhite c = true) (strip s)) as Hall.
  { unfold strip. apply Forall_rev, skipWhite_Forall, Forall_rev, skipWhite_Forall.
    apply Forall_forall. intros c Hc. apply list_elem_of_In in Hc.
    by eapply forallb_forall in Hs. }
  unfold parse. destruct (strip s) as [|c t]; [done|].
  apply Forall_cons in Hall as [Hc _]. by apply readText_white.
Qed.

Lemma parse_ignoresWhite : ignoresWhite parse.
Proof.
  intros w s v Hw. unfold parse, strip. split.
  - simpl. destruct (isJsonWhite w) eqn:Hj; [done|].
    simpl. rewrite skipWhite_app. simpl. rewrite Hj.
    destruct (forallb isJsonWhite (rev s)); simpl.
    + by rewrite readText_white.
    + rewrite rev_app_distr. simpl. by rewrite readText_white.
  - rewrite skipWhite_app. simpl.
    destruct (forallb isJsonWhite s) eqn:Hs.
    + rewrite (skipWhite_all s Hs). simpl.
      destruct (isJsonWhite w) eqn:Hj; simpl; [done|].
      rewrite Hj. simpl. by rewrite readText_white.
    + rewrite rev_app_distr. simpl.
      destruct (isJsonWhite w) eqn:Hj; [done|].
      simpl. rewrite rev_involutive.
      intros (y & c & Heq & Hc)%readText_last.
      apply app_inj_tail in Heq as [_ ->]. congruence.
Qed.

End ReaderLaws.

Lemma fsWith_stable (content : bytes) :
  stableFile (Examples.fsWith content) Examples.sessionPath content.
Proof.
  split_and!; [reflexivity|reflexivity|].
  intros k _. cbn. destruct (Z.ltb_spec (Z.of_nat k) 0); [lia|].
  by rewrite Nat2Z.id.
Qed.



Example tail_example :
  let content :=
    Examples.written
      [Examples.userLine; bytes_of "  "; Examples.summaryLine;
       bytes_of " " ++ Examples.assistantLine; []] in
  let fs := Examples.fsWith content in
  streamToEnd Reader.parse fs Examples.fresh "s1" (byteLength content) 1 0
  = Some [Examples.userMsg; Examples.assistantMsg]
  ∧ (getConversation Reader.parse fs Examples.fresh "s1").1
    = [Examples.summaryMsg; Examples.userMsg; Examples.assistantMsg].
Proof. vm_compute. split; reflexivity. Qed.


(** With CR LF line endings the reader counts one byte per ending where
    the file has two, so the next call starts early: here it starts on
    the record again and delivers it a second time. *)
Example crlf_redelivery_example :
  let record := quoted "{'type':'user'}" in
  let content :=
    concat (replicate 16 [CR; LF]) ++ record ++ [CR; LF] in
  let fs := Examples.fsWith content in
  streamToEnd Reader.parse fs Examples.fresh "s1" (byteLength content) 3 0
  = Some [JObj [("type", JStr "user")]; JObj [("type", JStr "user")]]
  ∧ List.filter isConversational
      (getConversation Reader.parse fs Examples.fresh "s1").1
    = [JObj [("type", JStr "user")]].
Proof. vm_compute. split; reflexivity. Qed.

(** The history of the example: session [a] keeps the metadata of its
    first entry, the entry without session id resolves to [middle], and
    [b] stays ahead of [c], which has the same timestamp and comes later
    in the log. *)
Example session_list_example :
  Session.id <$> (getSessions Reader.parseEntry ResolverExample.fs (newStorage "/c")).1
  = ["middle"; "b"; "c"; "a"]
  ∧ Session.display
      <$> (getSessions Reader.parseEntry ResolverExample.fs (newStorage "/c")).1
    = ["fix the build"; "second"; "third"; "first"]
  ∧ (getProjects Reader.parseEntry ResolverExample.fs (newStorage "/c")).1
    = ["/home/me.app"; "/home/me/web"; "/srv/api"].
Proof. vm_compute. repeat split; reflexivity. Qed.

(** * Further properties of the engine *)

(** ** Project paths and names *)

Section ProjectPaths.

Lemma append_cons (c : ascii) (a b : string) :
  String c a +:+ b = String c (a +:+ b).
Proof. reflexivity. Qed.

Lemma bytes_of_append (a b : string) :
  bytes_of (a +:+ b) = bytes_of a ++ bytes_of b.
Proof.
  induction a as [|c a IH]; [done|].
  rewrite append_cons. unfold bytes_of in *. simpl. by rewrite IH.
Qed.

Lemma mapChars_append (f : ascii → ascii) (a b : string) :
  mapChars f (a +:+ b) = mapChars f a +:+ mapChars f b.
Proof.
  induction a as [|c a IH]; [done|].
  rewrite append_cons. simpl. by rewrite IH, append_cons.
Qed.

Lemma splitSlash_nonempty (s : string) : splitSlash s ≠ [].
Proof.
  induction s as [|c s IH]; simpl; [done|].
  destruct (Ascii.eqb c "/"%char); [done|]. by destruct (splitSlash s).
Qed.

(** A name without slash is one piece. *)
Lemma splitSlash_plain (name : string) :
  "/"%char ∉ bytes_of name → splitSlash name = [name].
Proof.
  induction name as [|c s IH]; [done|]. intros Hno.
  apply not_elem_of_cons in Hno as [Hc Hs]. simpl.
  destruct (Ascii.eqb_spec c "/"%char) as [->|_]; [done|].
  by rewrite (IH Hs).
Qed.

Lemma splitSlash_append (a b : string) :
  splitSlash (a +:+ "/" +:+ b) = splitSlash a ++ splitSlash b.
Proof.
  induction a as [|c a IH]; [done|].
  rewrite append_cons. simpl. rewrite IH.
  destruct (Ascii.eqb c "/"%char); [done|].
  pose proof (splitSlash_nonempty a). by destruct (splitSlash a).
Qed.

Lemma last_snoc_filter (f : string → bool) (xs : list string) (x : string) :
  f x = true → last (List.filter f (xs ++ [x])) = Some x.
Proof.
  intros Hx. rewrite List.filter_app. simpl. rewrite Hx. apply last_snoc.
Qed.

End ProjectPaths.

(** X1 -- the encoded project path.  [encodeProjectPath] yields a name of
    the same length that holds neither a slash nor a dot, keeps every
    other character where it was, and is left unchanged by a second
    encoding.  It does not tell a slash from a dot: two paths that differ
    only in that have the same encoding. *)
Theorem encodeProjectPath_flat (path a b : string) :
  ("/"%char ∉ bytes_of (encodeProjectPath path))
  ∧ ("."%char ∉ bytes_of (encodeProjectPath path))
  ∧ length (bytes_of (encodeProjectPath path)) = length (bytes_of path)
  ∧ (∀ (i : nat) (c : ascii),
       bytes_of path !! i = Some c → c ≠ "/"%char → c ≠ "."%char →
       bytes_of (encodeProjectPath path) !! i = Some c)
  ∧ encodeProjectPath (encodeProjectPath path) = encodeProjectPath path
  ∧ encodeProjectPath (a +:+ "/" +:+ b) = encodeProjectPath (a +:+ "." +:+ b).
Proof.
  unfold encodeProjectPath. split_and!.
  - induction path as [|c s IH]; [by intros ?%elem_of_nil|].
    simpl. intros [Hc|Hs]%elem_of_cons; [|by apply IH].
    destruct (Ascii.eqb_spec c "/"%char); [done|].
    by destruct (Ascii.eqb_spec c "."%char).
  - induction path as [|c s IH]; [by intros ?%elem_of_nil|].
    simpl. intros [Hc|Hs]%elem_of_cons; [|by apply IH].
    destruct (Ascii.eqb_spec c "/"%char); [done|].
    by destruct (Ascii.eqb_spec c "."%char).
  - induction path as [|c s IH]; [done|]. simpl. by rewrite IH.
  - induction path as [|c s IH]; intros [|i] c' Hi Hs Hd; simplify_eq/=.
    + destruct (Ascii.eqb_spec c' "/"%char); [done|].
      by destruct (Ascii.eqb_spec c' "."%char).
    + by apply IH.
  - induction path as [|c s IH]; [done|]. simpl. rewrite IH. f_equal.
    destruct (Ascii.eqb_spec c "/"%char) as [->|Hs]; [done|].
    destruct (Ascii.eqb_spec c "."%char) as [->|Hd]; [done|]. simpl.
    destruct (Ascii.eqb_spec c "/"%char); [done|].
    by destruct (Ascii.eqb_spec c "."%char).
  - by rewrite !mapChars_append.
Qed.



(** ** Locating session files *)

Section Locate.

Lemma join_nonempty (dir name : string) : join dir name ≠ "".
Proof.
  intros H. apply (f_equal bytes_of) in H. unfold join in H.
  rewrite !bytes_of_append in H. by destruct (bytes_of dir).
Qed.

Lemma probeProject_Some fs root target d :
  (∃ files, readdirNames fs (join root (Dirent.name d)) = Some files ∧ target ∈ files) →
  probeProject fs root target d = Some (join (join root (Dirent.name d)) target).
Proof.
  intros (files & Hdir & Hin). unfold probeProject. rewrite Hdir.
  by rewrite bool_decide_eq_true_2.
Qed.

Lemma probeProject_None fs root target d :
  ¬ (∃ files, readdirNames fs (join root (Dirent.name d)) = Some files ∧ target ∈ files) →
  probeProject fs root target d = None.
Proof.
  intros Hno. unfold probeProject.
  destruct (readdirNames fs _) as [files|] eqn:Hdir; [|done].
  case_bool_decide; [|done]. destruct Hno. by exists files.
Qed.

(** The scan answers with the first listed directory that holds the
    file. *)
Lemma findNonNull_first fs root target (before after : list Dirent.t) d :
  holdsFile fs root target d →
  (∀ d', d' ∈ before → ¬ holdsFile fs root target d') →
  findNonNull
    (probeProject fs root target
       <$> List.filter Dirent.isDirectory (before ++ d :: after))
  = Some (join (join root (Dirent.name d)) target).
Proof.
  intros [Hdir Hfiles] Hbefore.
  induction before as [|d' before IH]; simpl.
  - rewrite Hdir. simpl. by rewrite probeProject_Some.
  - destruct (Dirent.isDirectory d') eqn:Hd'; simpl.
    + rewrite probeProject_None.
      * apply IH. intros d'' Hin. apply Hbefore. by right.
      * intros Hf. apply (Hbefore d'); [by left|]. by split.
    + apply IH. intros d'' Hin. apply Hbefore. by right.
Qed.

Lemma findNonNull_none fs root target (dirs : list Dirent.t) :
  (∀ d, d ∈ dirs → ¬ holdsFile fs root target d) →
  findNonNull (probeProject fs root target <$> List.filter Dirent.isDirectory dirs)
  = None.
Proof.
  induction dirs as [|d dirs IH]; intros Hno; simpl; [done|].
  assert (∀ d', d' ∈ dirs → ¬ holdsFile fs root target d') as Hrest.
  { intros d' Hin. apply Hno. by right. }
  destruct (Dirent.isDirectory d) eqn:Hd; simpl; [|by apply IH].
  rewrite probeProject_None; [by apply IH|].
  intros Hf. apply (Hno d); [by left|]. by split.
Qed.

End Locate.

(** X3 -- a resolved session stays resolved.  When [findSessionFile]
    answers with a path, the index of the state it leaves maps the session
    to that path; from then on the same question is answered from the
    index alone, whatever has become of the file system, and the state no
    longer changes.  The lookup touches no other key of the index and not
    the history cache. *)
Theorem findSessionFile_cached
    (fs : FileSystem) (st st' : ClaudeStorage) (sessionId path : string) :
  findSessionFile fs st sessionId = (Some path, st') →
  fileIndex st' !! sessionId = Some path
  ∧ (∀ fs', findSessionFile fs' st' sessionId = (Some path, st'))
  ∧ (∀ other, other ≠ sessionId → fileIndex st' !! other = fileIndex st !! other)
  ∧ historyCache st' = historyCache st.
Proof.
  unfold findSessionFile.
  destruct (fileIndex st !! sessionId) as [p|] eqn:Hidx.
  { intros [= -> <-]. split_and!; try done. intros fs'. by rewrite Hidx. }
  destruct (readdir fs (projectsDir st)) as [dirs|]; [|done].
  destruct (truthyName (findNonNull _)) as [filePath|]; [|done].
  intros [= -> <-]. simpl. split_and!; try done.
  - apply lookup_insert_eq.
  - intros fs'. simpl. by rewrite lookup_insert_eq.
  - intros other Hne. by rewrite lookup_insert_ne.
Qed.

Lemma findSessionFile_cached_witness :
  let fs := Examples.fsWith [] in
  let st' := (findSessionFile fs Examples.fresh "s1").2 in
  fileIndex st' !! "s1" = Some Examples.sessionPath
  ∧ (∀ fs', findSessionFile fs' st' "s1" = (Some Examples.sessionPath, st'))
  ∧ (∀ other, other ≠ "s1" → fileIndex st' !! other = fileIndex Examples.fresh !! other)
  ∧ historyCache st' = historyCache Examples.fresh.
Proof.
  apply (findSessionFile_cached (Examples.fsWith []) Examples.fresh).
  vm_compute. reflexivity.
Defined.

(** X4 -- the scan on a miss.  When the index has no entry for the
    session and the projects directory can be listed, [findSessionFile]
    answers with the file [<sessionId>.jsonl] of the first listed
    directory whose listing succeeds and holds it, and records that path
    under the session id; when no listed directory holds it, the answer is
    [null] and the state is left as it was. *)
Theorem findSessionFile_scan
    (fs : FileSystem) (st : ClaudeStorage) (sessionId : string)
    (dirs : list Dirent.t) :
  fileIndex st !! sessionId = None →
  readdir fs (projectsDir st) = Some dirs →
  let target := sessionId +:+ ".jsonl" in
  (∀ before d after,
     dirs = before ++ d :: after →
     holdsFile fs (projectsDir st) target d →
     (∀ d', d' ∈ before → ¬ holdsFile fs (projectsDir st) target d') →
     let path := join (join (projectsDir st) (Dirent.name d)) target in
     findSessionFile fs st sessionId
     = (Some path, withFileIndex st (<[sessionId := path]> (fileIndex st))))
  ∧ ((∀ d, d ∈ dirs → ¬ holdsFile fs (projectsDir st) target d) →
       findSessionFile fs st sessionId = (None, st)).
Proof.
  intros Hmiss Hroot target. subst target.
  unfold findSessionFile. rewrite Hmiss, Hroot. split.
  - intros before d after -> Hd Hbefore. cbv zeta.
    rewrite (findNonNull_first fs _ _ before after d Hd Hbefore).
    by rewrite truthyName_Some by apply join_nonempty.
  - intros Hno. by rewrite (findNonNull_none fs _ _ dirs Hno).
Qed.

Lemma findSessionFile_scan_witness :
  let fs := Examples.fsWith [] in
  let st := Examples.fresh in
  let dirs := [Disk.directory "-home-me-app"; Disk.file "notes.txt"] in
  let target := "s1" +:+ ".jsonl" in
  (∀ before d after,
     dirs = before ++ d :: after →
     holdsFile fs (projectsDir st) target d →
     (∀ d', d' ∈ before → ¬ holdsFile fs (projectsDir st) target d') →
     let path := join (join (projectsDir st) (Dirent.name d)) target in
     findSessionFile fs st "s1"
     = (Some path, withFileIndex st (<[("s1" : string) := path]> (fileIndex st))))
  ∧ ((∀ d, d ∈ dirs → ¬ holdsFile fs (projectsDir st) target d) →
       findSessionFile fs st "s1" = (None, st)).
Proof.
  apply (findSessionFile_scan (Examples.fsWith []) Examples.fresh "s1"
           [Disk.directory "-home-me-app"; Disk.file "notes.txt"]).
  - vm_compute. reflexivity.
  - vm_compute. reflexivity.
Defined.

Example findSessionFile_example :
  (findSessionFile (Examples.fsWith []) Examples.fresh "s1").1
  = Some Examples.sessionPath
  ∧ (findSessionFile (Examples.fsWith []) Examples.fresh "s2").1 = None.
Proof. vm_compute. split; reflexivity. Qed.

(** ** The initial scan *)

Section InitialScan.

(** The loop over the files of one directory: what the index holds
    afterwards was there before or is a session log of the listing, and
    every session log of the listing has its id in the index. *)
Lemma indexFile_fold projectPath (files : list string) (index : gmap string string) :
  let index' := foldl (indexFile projectPath) index files in
  (∀ sid path,
     index' !! sid = Some path →
     index !! sid = Some path
     ∨ ∃ file, file ∈ files ∧ endsWith file ".jsonl" = true
               ∧ sid = basename file ".jsonl" ∧ path = join projectPath file)
  ∧ (∀ sid, is_Some (index !! sid) → is_Some (index' !! sid))
  ∧ (∀ file, file ∈ files → endsWith file ".jsonl" = true →
             is_Some (index' !! basename file ".jsonl")).
Proof.
  revert index. induction files as [|f files IH]; intros index; simpl.
  { split_and!; [by left|done|by intros ? ?%elem_of_nil]. }
  destruct (IH (indexFile projectPath index f)) as (Hsound & Hmono & Hcomplete).
  assert (∀ sid, is_Some (index !! sid) →
                 is_Some (indexFile projectPath index f !! sid)) as Hstep.
  { intros sid Hsid. unfold indexFile. destruct (endsWith f ".jsonl"); [|done].
    destruct (decide (basename f ".jsonl" = sid)) as [<-|Hne].
    - by rewrite lookup_insert_eq.
    - by rewrite lookup_insert_ne. }
  split_and!.
  - intros sid path [Hold|(file & Hin & Hends & -> & ->)]%Hsound.
    + unfold indexFile in Hold. destruct (endsWith f ".jsonl") eqn:Hf; [|by left].
      destruct (decide (basename f ".jsonl" = sid)) as [<-|Hne].
      * rewrite lookup_insert_eq in Hold. injection Hold as <-.
        right. exists f. split_and!; [by left|done..].
      * rewrite lookup_insert_ne in Hold by done. by left.
    + right. exists file. split_and!; [by right|done..].
  - intros sid Hsid. by apply Hmono, Hstep.
  - intros file [->|Hin]%elem_of_cons Hends; [|by apply Hcomplete].
    apply Hmono. unfold indexFile. rewrite Hends. by rewrite lookup_insert_eq.
Qed.

Lemma indexProject_fold fs root (dirs : list Dirent.t) (index : gmap string string) :
  Forall (λ d, Dirent.isDirectory d = true) dirs →
  let index' := foldl (indexProject fs root) index dirs in
  (∀ sid path,
     index' !! sid = Some path →
     index !! sid = Some path ∨ sessionLogAt fs root dirs sid path)
  ∧ (∀ sid, is_Some (index !! sid) → is_Some (index' !! sid))
  ∧ (∀ sid path, sessionLogAt fs root dirs sid path → is_Some (index' !! sid)).
Proof.
  intros Hdirs. revert index.
  induction Hdirs as [|d dirs Hd _ IH]; intros index; simpl.
  { split_and!; [by left|done|].
    by intros sid path (d & ? & ? & ?%elem_of_nil & _). }
  destruct (IH (indexProject fs root index d)) as (Hsound & Hmono & Hcomplete).
  assert (∀ sid path,
            sessionLogAt fs root dirs sid path →
            sessionLogAt fs root (d :: dirs) sid path) as Hweaken.
  { intros sid path (d' & files & file & Hin & Hrest).
    exists d', files, file. split; [by right|done]. }
  unfold indexProject in *.
  destruct (readdirNames fs (join root (Dirent.name d))) as [files|] eqn:Hlist.
  - destruct (indexFile_fold (join root (Dirent.name d)) files index)
      as (Hs1 & Hm1 & Hc1).
    split_and!.
    + intros sid path [Hold|Hlog]%Hsound; [|right; by apply Hweaken].
      apply Hs1 in Hold as [Hold|(file & Hin & Hends & -> & ->)]; [by left|].
      right. exists d, files, file. split_and!; [by left|done..].
    + intros sid Hsid. by apply Hmono, Hm1.
    + intros sid path (d' & files' & file & [->|Hin]%elem_of_cons & Hdir
                         & Hlist' & Hfile & Hends & -> & ->).
      * rewrite Hlist in Hlist'. injection Hlist' as <-.
        by apply Hmono, Hc1.
      * apply (Hcomplete _ (join (join root (Dirent.name d')) file)).
        by exists d', files', file.
  - split_and!.
    + intros sid path [Hold|Hlog]%Hsound; [by left|right; by apply Hweaken].
    + done.
    + intros sid path (d' & files' & file & [->|Hin]%elem_of_cons & Hdir
                         & Hlist' & Hrest).
      * by rewrite Hlist in Hlist'.
      * apply (Hcomplete sid path). by exists d', files', file.
Qed.

Lemma Forall_filter_isDirectory (dirs : list Dirent.t) :
  Forall (λ d, Dirent.isDirectory d = true) (List.filter Dirent.isDirectory dirs).
Proof.
  apply Forall_forall. intros d Hd. apply list_elem_of_In in Hd.
  by apply filter_In in Hd as [_ Hd].
Qed.

Lemma sessionLogAt_filter fs root (dirs : list Dirent.t) sid path :
  sessionLogAt fs root (List.filter Dirent.isDirectory dirs) sid path
  ↔ sessionLogAt fs root dirs sid path.
Proof.
  split; intros (d & files & file & Hin & Hdir & Hrest);
    exists d, files, file; (split; [|by split]).
  - apply list_elem_of_In in Hin. apply filter_In in Hin as [Hin _].
    by apply list_elem_of_In.
  - apply list_elem_of_In, filter_In. split; [by apply list_elem_of_In|done].
Qed.

End InitialScan.

(** X5 -- the initial scan.  When the projects directory cannot be
    listed, [buildFileIndex] leaves the storage as it is.  Otherwise every
    entry of the index it leaves was there before or maps the id of a
    session log, found in a listed project directory whose own listing
    succeeded, to the path of that log; every such log has its id in the
    index; and a project directory that cannot be listed only loses its
    own logs.  The history cache is not touched. *)
Theorem buildFileIndex_scan (fs : FileSystem) (st : ClaudeStorage) :
  match readdir fs (projectsDir st) with
  | None => buildFileIndex fs st = st
  | Some dirs =>
      let index' := fileIndex (buildFileIndex fs st) in
      (∀ sid path,
         index' !! sid = Some path →
         fileIndex st !! sid = Some path
         ∨ sessionLogAt fs (projectsDir st) dirs sid path)
      ∧ (∀ sid path,
           sessionLogAt fs (projectsDir st) dirs sid path → is_Some (index' !! sid))
      ∧ historyCache (buildFileIndex fs st) = historyCache st
  end.
Proof.
  unfold buildFileIndex.
  destruct (readdir fs (projectsDir st)) as [dirs|]; [|done]. simpl.
  destruct (indexProject_fold fs (projectsDir st)
              (List.filter Dirent.isDirectory dirs) (fileIndex st)
              (Forall_filter_isDirectory dirs)) as (Hsound & _ & Hcomplete).
  split_and!; [| |done].
  - intros sid path [Hold|Hlog]%Hsound; [by left|right].
    by apply sessionLogAt_filter.
  - intros sid path Hlog. apply (Hcomplete sid path).
    by apply sessionLogAt_filter.
Qed.

Example buildFileIndex_example :
  fileIndex (buildFileIndex ResolverExample.fs (newStorage "/c")) !! "middle"
  = Some "/c/projects/-home-me-app/middle.jsonl"
  ∧ fileIndex (buildFileIndex ResolverExample.fs (newStorage "/c")) !! "readme" = None
  ∧ buildFileIndex ResolverExample.fs (newStorage "/nowhere") = newStorage "/nowhere".
Proof. vm_compute. repeat split; reflexivity. Qed.

(** ** The history cache and the project list *)

Section History.

Variable JSON_parse_entry : bytes → option HistoryEntry.t.

Lemma pushEntry_fold (lines : list bytes) (entries : list HistoryEntry.t) :
  foldl (pushEntry JSON_parse_entry) entries lines
  = entries ++ omap JSON_parse_entry lines.
Proof.
  revert entries. induction lines as [|l lines IH]; intros entries; simpl.
  { by rewrite app_nil_r. }
  rewrite IH. unfold pushEntry.
  destruct (JSON_parse_entry l); [by rewrite <- app_assoc|done].
Qed.

Lemma historyEntries_loaded fs st entries :
  historyCache st = Some entries →
  historyEntries JSON_parse_entry fs st = (entries, st).
Proof. intros H. unfold historyEntries. by rewrite H. Qed.

Lemma historyEntries_cache fs st :
  historyCache (historyEntries JSON_parse_entry fs st).2
  = Some (historyEntries JSON_parse_entry fs st).1.
Proof.
  unfold historyEntries. destruct (historyCache st) eqn:Hc; [done|].
  unfold loadHistoryCache. by destruct (readFile fs _).
Qed.

Lemma addProject_fold (entries : list HistoryEntry.t) (projects : list string) :
  let projects' := foldl addProject projects entries in
  (NoDup projects → NoDup projects')
  ∧ (∀ p, p ∈ projects'
          ↔ p ∈ projects ∨ (p ≠ "" ∧ ∃ e, e ∈ entries ∧ HistoryEntry.project e = p)).
Proof.
  revert projects. induction entries as [|e entries IH]; intros projects; simpl.
  { split; [done|]. intros p. split; [by left|].
    intros [?|(_ & e & ?%elem_of_nil & _)]; done. }
  destruct (IH (addProject projects e)) as [Hnodup Hmem].
  assert (NoDup projects → NoDup (addProject projects e)) as Hstep.
  { intros Hp. unfold addProject.
    destruct (HistoryEntry.project e) as [|c s]; simpl; [done|].
    case_bool_decide; [done|].
    apply NoDup_app. split_and!; [done| |apply NoDup_singleton].
    by intros x Hx ->%list_elem_of_singleton. }
  assert (∀ p, p ∈ addProject projects e
               ↔ p ∈ projects ∨ (p ≠ "" ∧ HistoryEntry.project e = p)) as Hadd.
  { intros p. unfold addProject.
    destruct (HistoryEntry.project e) as [|c s] eqn:Hproj; simpl.
    - split; [by left|]. intros [?|[? <-]]; done.
    - case_bool_decide as Hin.
      + split; [by left|]. intros [?|[_ <-]]; done.
      + rewrite elem_of_app, list_elem_of_singleton. split.
        * intros [?| ->]; [by left|by right].
        * intros [?|[_ <-]]; [by left|by right]. }
  split; [by intros ?%Hstep%Hnodup|].
  intros p. rewrite Hmem, Hadd. split.
  - intros [[?|[Hne Hp]]|(Hne & e' & Hin & Hp)]; [by left|right..].
    + split; [done|]. exists e. split; [by left|done].
    + split; [done|]. exists e'. split; [by right|done].
  - intros [?|(Hne & e' & [->|Hin]%elem_of_cons & Hp)].
    + by left; left.
    + by left; right.
    + right. split; [done|]. by exists e'.
Qed.

End History.

Section StringOrder.

Lemma compareStrings_le (a b : string) :
  (compareStrings a b <=? 0) = true ↔ String.le a b.
Proof.
  unfold compareStrings, String.le, String.leb.
  destruct (String.compare a b); simpl; split; done.
Qed.

Lemma elem_of_insertSorted_strings (x y : string) (l : list string) :
  y ∈ insertSorted compareStrings x l ↔ y = x ∨ y ∈ l.
Proof.
  induction l as [|z l IH]; simpl.
  - rewrite elem_of_cons, elem_of_nil. tauto.
  - destruct (compareStrings x z <=? 0).
    + by rewrite elem_of_cons.
    + rewrite !elem_of_cons, IH. tauto.
Qed.

Lemma insertSorted_strings_perm (x : string) (l : list string) :
  insertSorted compareStrings x l ≡ₚ x :: l.
Proof.
  induction l as [|z l IH]; simpl; [done|].
  destruct (compareStrings x z <=? 0); [done|]. by rewrite IH, Permutation_swap.
Qed.

Lemma sortWith_strings_perm (l : list string) : sortWith compareStrings l ≡ₚ l.
Proof.
  induction l as [|x l IH]; simpl; [done|].
  by rewrite insertSorted_strings_perm, IH.
Qed.

Lemma insertSorted_strings_sorted (x : string) (l : list string) :
  StronglySorted String.le l →
  StronglySorted String.le (insertSorted compareStrings x l).
Proof.
  induction 1 as [|z l Hl IH Hz]; simpl; [repeat constructor|].
  destruct (compareStrings x z <=? 0) eqn:Hxz.
  - apply compareStrings_le in Hxz.
    constructor; [by constructor|]. constructor; [done|].
    eapply Forall_impl; [exact Hz|]. intros y Hy. by etrans.
  - assert (String.le z x) as Hzx.
    { destruct (total String.le x z) as [Hle|Hle]; [|done].
      apply compareStrings_le in Hle. congruence. }
    constructor; [done|]. apply Forall_forall. intros y Hy.
    apply elem_of_insertSorted_strings in Hy as [->|Hy]; [done|].
    by eapply Forall_forall in Hz.
Qed.

Lemma sortWith_strings_sorted (l : list string) :
  StronglySorted String.le (sortWith compareStrings l).
Proof.
  induction l as [|x l IH]; simpl; [constructor|].
  by apply insertSorted_strings_sorted.
Qed.

End StringOrder.

(** X6 -- the project list.  Whatever the history, the list
    [getProjects] returns holds no project twice, is in ascending string
    order, and holds exactly the non-empty [project] values of the history
    entries. *)
Theorem getProjects_sorted_distinct
    (JSON_parse_entry : bytes → option HistoryEntry.t)
    (fs : FileSystem) (st : ClaudeStorage) :
  let projects := (getProjects JSON_parse_entry fs st).1 in
  let entries := (historyEntries JSON_parse_entry fs st).1 in
  NoDup projects
  ∧ StronglySorted String.le projects
  ∧ (∀ p, p ∈ projects
          ↔ p ≠ "" ∧ ∃ e, e ∈ entries ∧ HistoryEntry.project e = p).
Proof.
  intros projects entries. subst projects entries. unfold getProjects.
  destruct (historyEntries JSON_parse_entry fs st) as [entries st']. simpl.
  destruct (addProject_fold entries []) as [Hnodup Hmem].
  split_and!.
  - rewrite sortWith_strings_perm. apply Hnodup. constructor.
  - apply sortWith_strings_sorted.
  - intros p. rewrite sortWith_strings_perm, Hmem. split; [|by right].
    by intros [?%elem_of_nil|?].
Qed.

(** X7 -- the history is read once.  After a first read the entries are
    served from the cache: [getProjects] on the state left by one call
    answers as that call did, against whatever the file system has become,
    and changes the state no more.  After [invalidateHistoryCache] the
    next call reads the log again and answers as a storage that never
    loaded it. *)
Theorem history_is_memoized
    (JSON_parse_entry : bytes → option HistoryEntry.t)
    (fs fs' : FileSystem) (st : ClaudeStorage) :
  let first := getProjects JSON_parse_entry fs st in
  getProjects JSON_parse_entry fs' first.2 = first
  ∧ (getProjects JSON_parse_entry fs' (invalidateHistoryCache first.2)).1
    = (getProjects JSON_parse_entry fs' (invalidateHistoryCache st)).1
  ∧ (loadHistoryCache JSON_parse_entry fs' st).1
    = match readFile fs' (join (claudeDir st) "history.jsonl") with
      | Some content => omap JSON_parse_entry (contentLines content)
      | None => []
      end.
Proof.
  intros first. subst first. unfold getProjects.
  pose proof (historyEntries_cache JSON_parse_entry fs st) as Hcache.
  destruct (historyEntries JSON_parse_entry fs st) as [entries st'] eqn:Hfirst.
  simpl in *. split_and!.
  - by rewrite (historyEntries_loaded _ fs' st' entries Hcache).
  - assert (claudeDir st' = claudeDir st) as Hdir.
    { unfold historyEntries, loadHistoryCache in Hfirst.
      destruct (historyCache st); [by injection Hfirst as _ <-|].
      by destruct (readFile fs _); injection Hfirst as _ <-. }
    unfold historyEntries, invalidateHistoryCache, loadHistoryCache. simpl.
    rewrite Hdir. by destruct (readFile fs' _).
  - unfold loadHistoryCache. destruct (readFile fs' _); [|done].
    simpl. by rewrite pushEntry_fold.
Qed.

Example history_is_memoized_example :
  let st := (getProjects Reader.parseEntry ResolverExample.fs (newStorage "/c")).2 in
  (getProjects Reader.parseEntry (Examples.fsWith []) st).1
  = ["/home/me.app"; "/home/me/web"; "/srv/api"]
  ∧ (getProjects Reader.parseEntry (Examples.fsWith []) (invalidateHistoryCache st)).1
    = [].
Proof. vm_compute. split; reflexivity. Qed.

(** ** More on the session list *)

Section SessionListMore.

Variable resolve : HistoryEntry.t → option string.

(** Every entry that resolves to an id has that id taken already or
    among the collected sessions. *)
Lemma collectFrom_complete seenIds entries e sessionId :
  e ∈ entries → resolve e = Some sessionId →
  sessionId ∈ seenIds
  ∨ sessionId ∈ (Session.id <$> collectFrom resolve seenIds entries).
Proof.
  revert seenIds. induction entries as [|entry rest IH]; intros seenIds Hin Hres.
  { by apply elem_of_nil in Hin. }
  simpl. apply elem_of_cons in Hin as [<-|Hin].
  - rewrite Hres. case_bool_decide; [by left|]. right. simpl. by left.
  - destruct (resolve entry) as [other|] eqn:Hentry; [|by apply IH].
    case_bool_decide as Hseen; [by apply IH|].
    destruct (IH ({[other]} ∪ seenIds) Hin Hres) as [Hs|Hs].
    + apply elem_of_union in Hs as [->%elem_of_singleton|Hs]; [|by left].
      right. simpl. by left.
    + right. simpl. by right.
Qed.

Lemma collectFrom_length seenIds entries :
  (length (collectFrom resolve seenIds entries) ≤ length entries)%nat.
Proof.
  revert seenIds. induction entries as [|entry rest IH]; intros seenIds; simpl.
  { done. }
  destruct (resolve entry); [|by etrans; [apply IH|lia]].
  case_bool_decide; [by etrans; [apply IH|lia]|].
  simpl. specialize (IH ({[s]} ∪ seenIds)). lia.
Qed.

End SessionListMore.

(** X8 -- the session list is complete and repeatable.  Every history
    entry that resolves to a non-empty session id has a session of that
    id in the list [getSessions] returns, and the list is no longer than
    the history.  A second call on the state the first one leaves,
    against the same file system, returns the same list and the same
    state. *)
Theorem getSessions_complete_repeatable
    (JSON_parse_entry : bytes → option HistoryEntry.t)
    (fs : FileSystem) (st : ClaudeStorage) :
  let first := getSessions JSON_parse_entry fs st in
  let entries := (historyEntries JSON_parse_entry fs st).1 in
  (∀ e sessionId,
     e ∈ entries →
     truthyName (resolveSessionId fs (projectsDir st) e) = Some sessionId →
     ∃ s, s ∈ first.1 ∧ Session.id s = sessionId)
  ∧ (length first.1 ≤ length entries)%nat
  ∧ getSessions JSON_parse_entry fs first.2 = first.
Proof.
  intros first entries. subst first. split_and!.
  - intros e sessionId He Hres. rewrite getSessions_sorted_collect.
    destruct (collectFrom_complete
                (λ e, truthyName (resolveSessionId fs (projectsDir st) e))
                ∅ entries e sessionId He Hres) as [Hs|Hs].
    { by apply elem_of_empty in Hs. }
    apply list_elem_of_fmap in Hs as (s & -> & Hs). exists s. split; [|done].
    by apply elem_of_sortWith.
  - rewrite getSessions_sorted_collect, sortWith_perm. apply collectFrom_length.
  - unfold getSessions.
    pose proof (historyEntries_cache JSON_parse_entry fs st) as Hcache.
    destruct (historyEntries JSON_parse_entry fs st) as [es st']. simpl in *.
    by rewrite (historyEntries_loaded _ fs st' es Hcache).
Qed.

(** X9 -- when the resolution by modification time gives up.
    [findSessionByTimestamp] answers [null] when the project directory
    cannot be listed, when it holds no file with the extension [.jsonl],
    and when [stat] fails on any one of those files, whatever the others
    are.  A history entry without session id is then left out of the
    session list. *)
Theorem findSessionByTimestamp_gives_up
    (fs : FileSystem) (root encodedProject : string) (timestamp : Z) :
  (readdirNames fs (join root encodedProject) = None
   ∨ ∃ files,
       readdirNames fs (join root encodedProject) = Some files
       ∧ (List.filter (λ f, endsWith f ".jsonl") files = []
          ∨ ∃ file,
              file ∈ List.filter (λ f, endsWith f ".jsonl") files
              ∧ stat fs (join (join root encodedProject) file) = None)) →
  findSessionByTimestamp fs root encodedProject timestamp = None
  ∧ ∀ entry seen,
      truthyName (HistoryEntry.sessionId entry) = None →
      encodeProjectPath (HistoryEntry.project entry) = encodedProject →
      HistoryEntry.timestamp entry = timestamp →
      collectSession fs root seen entry = seen.
Proof.
  intros Hcase.
  assert (findSessionByTimestamp fs root encodedProject timestamp = None) as Hnone.
  { unfold findSessionByTimestamp.
    destruct Hcase as [->|(files & -> & [->|(file & Hin & Hstat)])]; [done|done|].
    destruct (mapM _ _) as [fileStats|] eqn:HmapM; [|done].
    apply mapM_Some in HmapM.
    apply list_elem_of_lookup in Hin as [i Hi].
    destruct (Forall2_lookup_l _ _ _ _ _ HmapM Hi) as (y & _ & Hy).
    by rewrite Hstat in Hy. }
  split; [done|]. intros entry [sessions seenIds] Hid <- <-.
  unfold collectSession, resolveSessionId. by rewrite Hid, Hnone.
Qed.

Lemma findSessionByTimestamp_gives_up_witness :
  findSessionByTimestamp ResolverExample.fs "/c/projects" "-srv-api" 30 = None
  ∧ ∀ entry seen,
      truthyName (HistoryEntry.sessionId entry) = None →
      encodeProjectPath (HistoryEntry.project entry) = "-srv-api" →
      HistoryEntry.timestamp entry = 30 →
      collectSession ResolverExample.fs "/c/projects" seen entry = seen.
Proof.
  apply (findSessionByTimestamp_gives_up ResolverExample.fs "/c/projects" "-srv-api" 30).
  left. vm_compute. reflexivity.
Defined.

(** ** A session log that grows *)

Section Growth.

Variable JSON_parse : bytes → option json.

Lemma pushFront_app (c : ascii) (xs ys : list bytes) :
  xs ≠ [] → pushFront c (xs ++ ys) = pushFront c xs ++ ys.
Proof. by destruct xs. Qed.

(** A line does not reach across a line feed. *)
Lemma readline_app_LF (x y : bytes) :
  CR ∉ x → readline (x ++ LF :: y) = readline (x ++ [LF]) ++ readline y.
Proof.
  unfold readline. induction x as [|c x IH]; intros Hcr; [done|].
  apply not_elem_of_cons in Hcr as [Hc Hcr]. simpl.
  destruct (Ascii.eqb c LF); [by rewrite IH|].
  destruct (Ascii.eqb_spec c CR) as [->|_]; [done|].
  rewrite IH by done. apply pushFront_app.
  intros Hnil%readlineFrom_nil. by destruct x.
Qed.

Lemma readline_app (old new : bytes) :
  CR ∉ old → old = [] ∨ last old = Some LF →
  readline (old ++ new) = readline old ++ readline new.
Proof.
  intros Hcr [->|Hlast]; [done|].
  apply last_Some in Hlast as [x ->].
  rewrite <- app_assoc. simpl. apply readline_app_LF.
  intros Hx. apply Hcr, elem_of_app. by left.
Qed.

Lemma truthyName_inv (p path : string) : truthyName (Some p) = Some path → p = path.
Proof. destruct p; simpl; congruence. Qed.

Lemma truthyName_idem (name : option string) (path : string) :
  truthyName name = Some path → truthyName (Some path) = Some path.
Proof. destruct name as [[|c p]|]; simpl; by intros [= <-]. Qed.

(** Once resolved, the session is answered from the index, whatever the
    file system. *)
Lemma findSessionFile_kept fs st sessionId path :
  truthyName (findSessionFile fs st sessionId).1 = Some path →
  ∀ fs', findSessionFile fs' (findSessionFile fs st sessionId).2 sessionId
         = (Some path, (findSessionFile fs st sessionId).2).
Proof.
  unfold findSessionFile.
  destruct (fileIndex st !! sessionId) as [p|] eqn:Hidx; simpl.
  { intros ->%truthyName_inv fs'. by rewrite Hidx. }
  destruct (readdir fs (projectsDir st)) as [dirs|]; [|done].
  destruct (truthyName (findNonNull _)) as [filePath|]; [|done].
  simpl. intros ->%truthyName_inv fs'. by rewrite lookup_insert_eq.
Qed.

(** A call from any offset up to the end of a file at rest. *)
Lemma call_at fs st sessionId path content (k : nat) :
  stableFile fs path content →
  truthyName (findSessionFile fs st sessionId).1 = Some path →
  (k ≤ length content)%nat →
  (getConversationStream JSON_parse fs st sessionId (Z.of_nat k)).1
  = mkStreamResult
      (concat (emits JSON_parse <$> passed JSON_parse (readline (drop k content))))
      (Z.min (Z.of_nat k + consumedBy (passed JSON_parse (readline (drop k content))))
             (byteLength content)).
Proof.
  intros Hstable Hst Hk.
  destruct (decide (k < length content)%nat) as [Hlt|Hge].
  - rewrite (call_before_end JSON_parse fs sessionId path content Hstable st k Hst Hlt).
    apply readStream_passed.
  - assert (k = length content) as -> by lia.
    rewrite drop_all. change (readline []) with (@nil bytes). simpl.
    unfold getConversationStream.
    destruct (findSessionFile fs st sessionId) as [filePath st']. simpl in Hst.
    rewrite Hst. destruct Hstable as (Hstat & _).
    destruct (stat fs path) as [fileStat|]; simplify_eq/=.
    unfold byteLength in *. rewrite Hstat.
    destruct (Z.geb_spec (Z.of_nat (length content)) (Z.of_nat (length content)));
      [|lia].
    simpl. f_equal. lia.
Qed.

End Growth.



Example appended_records_example :
  let old := Examples.written [Examples.userLine; Examples.summaryLine] in
  let new := Examples.written [Examples.assistantLine] ++ Examples.partialLine in
  let first :=
    getConversationStream Reader.parse (Examples.fsWith old) Examples.fresh "s1" 0 in
  let second :=
    getConversationStream Reader.parse (Examples.fsWith (old ++ new)) first.2 "s1"
      (nextOffset first.1) in
  messages first.1 = [Examples.userMsg]
  ∧ messages second.1 = [Examples.assistantMsg]
  ∧ nextOffset second.1 = byteLength old + byteLength (Examples.written [Examples.assistantLine]).
Proof. vm_compute. repeat split; reflexivity. Qed.

(** ** What the readers select *)

Section Selection.

Variable JSON_parse : bytes → option json.

Lemma elem_of_concat_fmap {A B : Type} (f : A → list B) (xs : list A) (y : B) :
  y ∈ concat (f <$> xs) ↔ ∃ x, x ∈ xs ∧ y ∈ f x.
Proof.
  induction xs as [|x xs IH]; simpl.
  - split; [by intros ?%elem_of_nil|]. by intros (x & ?%elem_of_nil & _).
  - rewrite elem_of_app, IH. split.
    + intros [Hy|(x' & Hx' & Hy)].
      * exists x. split; [by left|done].
      * exists x'. split; [by right|done].
    + intros (x' & [->|Hx']%elem_of_cons & Hy); [by left|].
      right. by exists x'.
Qed.

Lemma conversational_elem (line : bytes) (msg : ConversationMessage) :
  msg ∈ conversational JSON_parse line →
  JSON_parse line = Some msg ∧ isConversational msg = true.
Proof.
  unfold conversational, isConversational.
  destruct (JSON_parse line) as [m|]; [|by intros ?%elem_of_nil].
  destruct (getType m) as [t|] eqn:Ht; [|by intros ?%elem_of_nil].
  destruct (isUserOrAssistant t) eqn:Hua; [|by intros ?%elem_of_nil].
  intros ->%list_elem_of_singleton. by rewrite Ht.
Qed.

Lemma summaries_elem (line : bytes) (msg : ConversationMessage) :
  msg ∈ summaries JSON_parse line →
  JSON_parse line = Some msg
  ∧ ∃ t, getType msg = Some t
         ∧ isUserOrAssistant t = false ∧ isTag t "summary" = true.
Proof.
  unfold summaries.
  destruct (JSON_parse line) as [m|]; [|by intros ?%elem_of_nil].
  destruct (getType m) as [t|] eqn:Ht; [|by intros ?%elem_of_nil].
  destruct (isUserOrAssistant t) eqn:Hua; [by intros ?%elem_of_nil|].
  destruct (isTag t "summary") eqn:Hsum; [|by intros ?%elem_of_nil].
  intros ->%list_elem_of_singleton. split; [done|]. by exists t.
Qed.

Lemma emits_elem (line : bytes) (msg : ConversationMessage) :
  msg ∈ emits JSON_parse line →
  nonBlank line = true ∧ msg ∈ conversational JSON_parse line.
Proof.
  unfold emits, conversational.
  destruct (nonBlank line); [done|by intros ?%elem_of_nil].
Qed.

End Selection.

(** X11 -- what the two readers return.  Every message of
    [getConversation] is the value [JSON.parse] gives for a non-empty
    line of the resolved session file, and its [type] is [user],
    [assistant] or [summary]; every message of [getConversationStream]
    is the value of a non-blank line [readline] yields for the stream
    opened at the offset, and its [type] is [user] or [assistant], never
    [summary].  Records of any other type, values without readable
    [type] and lines that do not parse are in neither result; a session
    that does not resolve or a file that cannot be read gives no
    message. *)
Theorem readers_select_by_type
    (JSON_parse : bytes → option json) (fs : FileSystem) (st : ClaudeStorage)
    (sessionId : string) (fromOffset : Z) :
  (∀ msg,
     msg ∈ (getConversation JSON_parse fs st sessionId).1 →
     (∃ t, getType msg = Some t
           ∧ (isUserOrAssistant t || isTag t "summary") = true)
     ∧ ∃ path content line,
         (findSessionFile fs st sessionId).1 = Some path
         ∧ readFile fs path = Some content
         ∧ line ∈ contentLines content
         ∧ line ≠ []
         ∧ JSON_parse line = Some msg)
  ∧ (∀ msg,
       msg ∈ messages (getConversationStream JSON_parse fs st sessionId fromOffset).1 →
       (∃ t, getType msg = Some t ∧ isUserOrAssistant t = true)
       ∧ ∃ path data line,
           (findSessionFile fs st sessionId).1 = Some path
           ∧ createReadStream fs path fromOffset = Some data
           ∧ line ∈ readline data
           ∧ nonBlank line = true
           ∧ JSON_parse line = Some msg).
Proof.
  split.
  - intros msg. unfold getConversation.
    destruct (findSessionFile fs st sessionId) as [[[|c p]|] st']; simpl;
      try by intros ?%elem_of_nil.
    destruct (readFile fs (String c p)) as [content|] eqn:Hread; simpl;
      [|by intros ?%elem_of_nil].
    rewrite readLine_fold, app_nil_l, elem_of_app.
    assert (∀ line, line ∈ contentLines content → line ≠ []) as Hne.
    { intros line Hline%list_elem_of_In. unfold contentLines in Hline.
      apply filter_In in Hline as [_ Hline]. by intros ->. }
    intros [Hsum|Hconv].
    + apply list_elem_of_In, in_rev, list_elem_of_In in Hsum.
      apply elem_of_concat_fmap in Hsum as (line & Hline & Hmsg).
      apply summaries_elem in Hmsg as (Hparse & t & Ht & Hua & Htag).
      split; [exists t; by rewrite Htag, orb_true_r|].
      exists (String c p), content, line. split_and!; auto.
    + apply elem_of_concat_fmap in Hconv as (line & Hline & Hmsg).
      apply conversational_elem in Hmsg as (Hparse & Hconv).
      unfold isConversational in Hconv.
      destruct (getType msg) as [t|] eqn:Ht; [|done].
      split; [exists t; by rewrite Hconv|].
      exists (String c p), content, line. split_and!; auto.
  - intros msg. unfold getConversationStream.
    destruct (findSessionFile fs st sessionId) as [[[|c p]|] st']; simpl;
      try by intros ?%elem_of_nil.
    destruct (stat fs (String c p)) as [fileStat|]; simpl;
      [|by intros ?%elem_of_nil].
    destruct (fromOffset >=? Stats.size fileStat); simpl;
      [by intros ?%elem_of_nil|].
    destruct (createReadStream fs (String c p) fromOffset) as [data|] eqn:Hdata;
      simpl; [|by intros ?%elem_of_nil].
    rewrite readStream_passed. simpl.
    intros (line & Hline & Hmsg)%elem_of_concat_fmap.
    apply emits_elem in Hmsg as (Hblank & Hmsg).
    apply conversational_elem in Hmsg as (Hparse & Hconv).
    unfold isConversational in Hconv.
    destruct (getType msg) as [t|] eqn:Ht; [|done].
    split; [by exists t|].
    exists (String c p), data, line. split_and!; auto.
    destruct (passed_prefix JSON_parse (readline data)) as [rest Hrest].
    rewrite Hrest. apply elem_of_app. by left.
Qed.

(** ** One computation in flight per key *)

(** X12 -- single flight.  In every state the requests and completions
    lead to, the promise [dedupe] hands out for a key is a promise
    created for that key and not yet settled, no two unsettled promises
    have the same key, and the registry holds the keys of the unsettled
    promises and no other. *)
Theorem dedupe_single_flight (events : list Coalesce.event) (key : string) :
  let st := Coalesce.run events Coalesce.initial in
  let promise := (Coalesce.dedupe key st).1 in
  let st' := (Coalesce.dedupe key st).2 in
  Coalesce.promises st' !! promise = Some (key, None)
  ∧ (∀ k p q,
       Coalesce.promises st' !! p = Some (k, None) →
       Coalesce.promises st' !! q = Some (k, None) → p = q)
  ∧ (∀ k,
       is_Some (Coalesce.pendingRequests st' !! k)
       ↔ ∃ p, Coalesce.promises st' !! p = Some (k, None)).
Proof.
  intros st promise st'.
  assert (Coalesce.consistent st) as Hst
    by apply consistent_run, consistent_initial.
  assert (Coalesce.consistent st') as Hst' by by apply consistent_dedupe.
  destruct Hst' as (Hreg' & _). destruct Hst as (Hreg & _).
  split_and!.
  - apply Hreg'. subst promise st'. unfold Coalesce.dedupe.
    destruct (Coalesce.pendingRequests st !! key) as [existing|] eqn:Hkey; simpl.
    + done.
    + apply lookup_insert_eq.
  - intros k p q Hp%Hreg' Hq%Hreg'. congruence.
  - intros k. split.
    + intros [p Hp]. exists p. by apply Hreg'.
    + intros [p Hp]. exists p. by apply Hreg'.
Qed.

(** ** The watcher's debounce timers *)

Section WatcherTimers.

Import Watcher.

Context `{Path.t}.

Lemma watcher_consistent_initial : consistent initial.
Proof. intros path timer. split; intros Hl; by rewrite ?lookup_empty in Hl. Qed.

Lemma handleChange_table path st :
  ∃ table,
    length table = length (timers st)
    ∧ handleChange path st
      = mkState (watching st) (<[path := length (timers st)]> (debounceTimers st))
                (table ++ [(path, true)]) (emitted st)
    ∧ (∀ timer p,
         table !! timer = Some (p, true)
         ↔ timers st !! timer = Some (p, true)
           ∧ debounceTimers st !! path ≠ Some timer).
Proof.
  unfold handleChange.
  destruct (debounceTimers st !! path) as [existing|] eqn:Hpath.
  - exists (clearTimeout existing (timers st)). unfold clearTimeout.
    rewrite length_alter. split_and!; [done|done|].
    intros timer p. destruct (decide (timer = existing)) as [->|Hne].
    + rewrite list_lookup_alter_eq. split.
      * destruct (timers st !! existing) as [[q b]|]; simpl; by intros [=].
      * by intros [_ []].
    + rewrite list_lookup_alter_ne by done. split; [|by intros [? _]].
      intros Hl. split; [done|congruence].
  - exists (timers st). split_and!; [done|done|].
    intros timer p. split; [|by intros [? _]]. by intros Hl.
Qed.

Lemma consistent_handleChange path st :
  consistent st → consistent (handleChange path st).
Proof.
  intros Hst. destruct (handleChange_table path st) as (table & Hlen & -> & Htable).
  unfold consistent in *. intros p timer. simpl.
  destruct (decide (timer < length table)%nat) as [Hlt|Hge].
  - rewrite lookup_app_l by done. rewrite Htable, <- Hst.
    destruct (decide (p = path)) as [->|Hp].
    + rewrite lookup_insert_eq. split; [intros [= <-]; lia|].
      intros [Hl Hne]. congruence.
    + rewrite lookup_insert_ne by done. split; [|by intros [? _]].
      intros Hl. split; [done|]. intros Hpath.
      apply Hst in Hl. apply Hst in Hpath. congruence.
  - rewrite lookup_app_r by lia.
    destruct (decide (p = path)) as [->|Hp].
    + rewrite lookup_insert_eq. split.
      * intros [= <-]. by rewrite Hlen, Nat.sub_diag.
      * intros Hl. destruct (timer - length table)%nat eqn:Hd; simplify_eq/=.
        f_equal. lia.
    + rewrite lookup_insert_ne by done. split.
      * intros Hl%Hst. apply lookup_lt_Some in Hl. lia.
      * intros Hl. destruct (timer - length table)%nat eqn:Hd; simplify_eq/=.
Qed.

Lemma consistent_fire timer st st' :
  consistent st → fire timer st = Some st' → consistent st'.
Proof.
  intros Hst. unfold fire.
  destruct (timers st !! timer) as [[path [|]]|] eqn:Htimer; try done.
  intros [= <-]. pose proof (lookup_lt_Some _ _ _ Htimer) as Hlt.
  unfold consistent in *. intros p t. simpl.
  destruct (decide (t = timer)) as [->|Hne].
  - rewrite list_lookup_insert_eq by done. split; [|done].
    intros Hp. destruct (decide (p = path)) as [->|Hpp].
    + by rewrite lookup_delete_eq in Hp.
    + rewrite lookup_delete_ne in Hp by done. apply Hst in Hp. congruence.
  - rewrite list_lookup_insert_ne by done. rewrite <- Hst.
    destruct (decide (p = path)) as [->|Hpp].
    + rewrite lookup_delete_eq. split; [done|].
      intros Hp. apply Hst in Htimer. congruence.
    + by rewrite lookup_delete_ne.
Qed.

(** Clearing the timers [cleared] leaves the other timers as they
    were. *)
Lemma clearTimeout_all (cleared : list nat) (table : list (string * bool))
    (timer : nat) (p : string) :
  foldr clearTimeout table cleared !! timer = Some (p, true)
  ↔ table !! timer = Some (p, true) ∧ timer ∉ cleared.
Proof.
  induction cleared as [|c cleared IH]; simpl.
  - split; [|by intros [? _]]. intros Hl. split; [done|]. by intros ?%elem_of_nil.
  - unfold clearTimeout at 1. rewrite not_elem_of_cons.
    destruct (decide (timer = c)) as [->|Hne].
    + rewrite list_lookup_alter_eq. split; [|by intros (_ & [] & _)].
      destruct (foldr clearTimeout table cleared !! c) as [[q b]|]; simpl;
        by intros [=].
    + rewrite list_lookup_alter_ne by done. rewrite IH. tauto.
Qed.

Lemma quiet_stop st : consistent st → quiet (stop st).
Proof.
  intros Hst. split_and!; [done|done|]. intros timer path. simpl.
  intros [Htimer Hnot]%clearTimeout_all. apply Hnot.
  apply Hst in Htimer. apply list_elem_of_fmap.
  exists (path, timer). split; [done|]. by apply elem_of_map_to_list.
Qed.

Lemma quiet_consistent st : quiet st → consistent st.
Proof.
  intros (_ & Hmap & Htimers) path timer. rewrite Hmap, lookup_empty.
  split; [done|]. intros Hl. by apply Htimers in Hl.
Qed.

Lemma watcher_consistent_step st e : consistent st → consistent (step st e).
Proof.
  intros Hst. destruct e as [| |path|timer]; simpl.
  - unfold start. by destruct (watching st).
  - by apply quiet_consistent, quiet_stop.
  - destruct (watching st); [by apply consistent_handleChange|done].
  - destruct (fire timer st) as [st'|] eqn:Hfire; [|done].
    by eapply consistent_fire.
Qed.

Lemma watcher_consistent_run events st :
  consistent st → consistent (run events st).
Proof.
  revert st. induction events as [|e events IH]; intros st Hst; [done|].
  apply IH. by apply watcher_consistent_step.
Qed.

Lemma quiet_step st e :
  quiet st → e ≠ Start → quiet (step st e) ∧ emitted (step st e) = emitted st.
Proof.
  intros Hq He. pose proof Hq as (Hwatch & Hmap & Htimers).
  destruct e as [| |path|timer]; simpl.
  - done.
  - split; [|done]. by apply quiet_stop, quiet_consistent.
  - by rewrite Hwatch.
  - unfold fire. destruct (timers st !! timer) as [[path [|]]|] eqn:Htimer; try done.
    by apply Htimers in Htimer.
Qed.

Lemma quiet_run events st :
  quiet st → Start ∉ events →
  quiet (run events st) ∧ emitted (run events st) = emitted st.
Proof.
  revert st. induction events as [|e events IH]; intros st Hq Hno; [done|].
  apply not_elem_of_cons in Hno as [He Hno].
  destruct (quiet_step st e Hq) as [Hq' Hsame]; [done|].
  destruct (IH (step st e) Hq' Hno) as [Hq'' Hsame'].
  simpl. split; [done|]. by rewrite Hsame'.
Qed.

(** A burst of changes at one path while the watcher runs. *)
Lemma burst_state path (n : nat) st :
  consistent st → watching st = true →
  let st' := run (replicate (S n) (Changed path)) st in
  consistent st'
  ∧ watching st' = true
  ∧ is_Some (debounceTimers st' !! path)
  ∧ emitted st' = emitted st.
Proof.
  revert st. induction n as [|n IH]; intros st Hst Hwatch.
  - simpl. rewrite Hwatch.
    split_and!; [by apply consistent_handleChange|done| |done].
    unfold handleChange. simpl. rewrite lookup_insert_eq. by eexists.
  - change (replicate (S (S n)) (Changed path))
      with (Changed path :: replicate (S n) (Changed path)).
    simpl. rewrite Hwatch.
    destruct (IH (handleChange path st)) as (Hc & Hw & Hsome & Hem);
      [by apply consistent_handleChange|done|].
    split_and!; try done.
Qed.

End WatcherTimers.

(** X13 -- debouncing.  While the watcher runs, however many changes are
    reported at one path in a row, they emit nothing and leave exactly
    one timer to run for the path, the one registered under it; a change
    at another path leaves it registered.  When that timer runs, the
    notifications of the path are emitted once, the path leaves the
    register and no timer for the path is left to run. *)
Theorem burst_emits_once `{Path.t}
    (events : list Watcher.event) (path : string) (n : nat) :
  let st := Watcher.run events Watcher.initial in
  let st' := Watcher.run (replicate (S n) (Watcher.Changed path)) st in
  Watcher.watching st = true →
  ∃ timer,
    Watcher.debounceTimers st' !! path = Some timer
    ∧ (∀ t, Watcher.timers st' !! t = Some (path, true) → t = timer)
    ∧ Watcher.emitted st' = Watcher.emitted st
    ∧ (∀ other,
         other ≠ path →
         Watcher.debounceTimers (Watcher.step st' (Watcher.Changed other)) !! path
         = Some timer)
    ∧ ∃ st'',
        Watcher.fire timer st' = Some st''
        ∧ Watcher.emitted st'' = Watcher.emitted st ++ Watcher.emitChange path
        ∧ Watcher.debounceTimers st'' !! path = None
        ∧ (∀ t, Watcher.timers st'' !! t ≠ Some (path, true))
        ∧ Watcher.fire timer st'' = None.
Proof.
  intros st st' Hwatch.
  assert (Watcher.consistent st) as Hst
    by apply watcher_consistent_run, watcher_consistent_initial.
  destruct (burst_state path n st Hst Hwatch) as (Hst' & Hwatch' & [timer Htimer] & Hem).
  fold st' in Hst', Hwatch', Htimer, Hem.
  exists timer. split_and!; [done| |done| |].
  - intros t Ht%Hst'. congruence.
  - intros other Hother. simpl. rewrite Hwatch'. unfold Watcher.handleChange. simpl.
    by rewrite lookup_insert_ne.
  - pose proof (proj1 (Hst' path timer) Htimer) as Hpending.
    unfold Watcher.fire at 1. rewrite Hpending. eexists. split; [done|].
    pose proof (lookup_lt_Some _ _ _ Hpending) as Hlt.
    assert (Watcher.consistent
              (Watcher.mkState (Watcher.watching st')
                 (delete path (Watcher.debounceTimers st'))
                 (<[timer := (path, false)]> (Watcher.timers st'))
                 (Watcher.emitted st' ++ Watcher.emitChange path))) as Hst''.
    { apply (consistent_fire timer st'); [done|]. unfold Watcher.fire.
      by rewrite Hpending. }
    simpl. split_and!.
    + by rewrite Hem.
    + apply lookup_delete_eq.
    + intros t Ht. apply Hst'' in Ht. simpl in Ht.
      by rewrite lookup_delete_eq in Ht.
    + unfold Watcher.fire. simpl. by rewrite list_lookup_insert_eq.
Qed.

Lemma burst_emits_once_witness :
  let path := "/c/projects/-home-me-app/s1.jsonl" in
  let st :=
    Watcher.run (H:=PathExample.posix)
      [Watcher.Start; Watcher.Changed "/c/history.jsonl"] Watcher.initial in
  let st' :=
    Watcher.run (H:=PathExample.posix) (replicate 3 (Watcher.Changed path)) st in
  ∃ timer,
    Watcher.debounceTimers st' !! path = Some timer
    ∧ (∀ t, Watcher.timers st' !! t = Some (path, true) → t = timer)
    ∧ Watcher.emitted st' = Watcher.emitted st
    ∧ (∀ other,
         other ≠ path →
         Watcher.debounceTimers
           (Watcher.step (H:=PathExample.posix) st' (Watcher.Changed other)) !! path
         = Some timer)
    ∧ ∃ st'',
        Watcher.fire (H:=PathExample.posix) timer st' = Some st''
        ∧ Watcher.emitted st''
          = Watcher.emitted st ++ Watcher.emitChange (H:=PathExample.posix) path
        ∧ Watcher.debounceTimers st'' !! path = None
        ∧ (∀ t, Watcher.timers st'' !! t ≠ Some (path, true))
        ∧ Watcher.fire (H:=PathExample.posix) timer st'' = None.
Proof.
  apply (burst_emits_once (H:=PathExample.posix)
           [Watcher.Start; Watcher.Changed "/c/history.jsonl"]
           "/c/projects/-home-me-app/s1.jsonl" 2).
  vm_compute. reflexivity.
Defined.

Example debounce_example :
  let path := "/c/projects/-home-me-app/s1.jsonl" in
  Watcher.emitted
    (Watcher.run (H:=PathExample.posix)
       [Watcher.Start; Watcher.Changed path; Watcher.Changed path;
        Watcher.Timeout 0; Watcher.Changed path; Watcher.Timeout 1;
        Watcher.Timeout 2; Watcher.Timeout 2]
       Watcher.initial)
  = [Watcher.SessionChange "s1" path; Watcher.ProjectChange "-home-me-app"].
Proof. vm_compute. reflexivity. Qed.

(** X14 -- stopping.  After [stop], in any state the watcher has
    reached, nothing is emitted any more, whatever changes are reported
    and whichever timers come due, until [start] is called again: every
    timer that was to run has been cleared and the register is empty. *)
Theorem stop_silences `{Path.t} (events later : list Watcher.event) :
  let st := Watcher.step (Watcher.run events Watcher.initial) Watcher.Stop in
  Watcher.Start ∉ later →
  Watcher.emitted (Watcher.run later st) = Watcher.emitted st
  ∧ Watcher.emitted st = Watcher.emitted (Watcher.run events Watcher.initial)
  ∧ Watcher.debounceTimers (Watcher.run later st) = ∅
  ∧ ∀ timer, Watcher.fire timer (Watcher.run later st) = None.
Proof.
  intros st Hno.
  assert (Watcher.quiet st) as Hquiet.
  { apply quiet_stop, watcher_consistent_run, watcher_consistent_initial. }
  destruct (quiet_run later st Hquiet Hno) as [(Hwatch & Hmap & Htimers) Hsame].
  split_and!; [done|done|done|].
  intros timer. unfold Watcher.fire.
  destruct (Watcher.timers _ !! timer) as [[path [|]]|] eqn:Htimer; try done.
  by apply Htimers in Htimer.
Qed.

Lemma stop_silences_witness :
  let path := "/c/projects/-home-me-app/s1.jsonl" in
  let events := [Watcher.Start; Watcher.Changed path; Watcher.Changed "/c/history.jsonl"] in
  let later := [Watcher.Timeout 0; Watcher.Changed path; Watcher.Timeout 1; Watcher.Stop] in
  let st :=
    Watcher.step (H:=PathExample.posix)
      (Watcher.run (H:=PathExample.posix) events Watcher.initial) Watcher.Stop in
  Watcher.emitted (Watcher.run (H:=PathExample.posix) later st) = Watcher.emitted st
  ∧ Watcher.emitted st
    = Watcher.emitted (Watcher.run (H:=PathExample.posix) events Watcher.initial)
  ∧ Watcher.debounceTimers (Watcher.run (H:=PathExample.posix) later st) = ∅
  ∧ ∀ timer,
      Watcher.fire (H:=PathExample.posix) timer
        (Watcher.run (H:=PathExample.posix) later st) = None.
Proof.
  apply (stop_silences (H:=PathExample.posix)
           [Watcher.Start; Watcher.Changed "/c/projects/-home-me-app/s1.jsonl";
            Watcher.Changed "/c/history.jsonl"]
           [Watcher.Timeout 0; Watcher.Changed "/c/projects/-home-me-app/s1.jsonl";
            Watcher.Timeout 1; Watcher.Stop]).
  intros Hin. repeat (apply elem_of_cons in Hin as [Hin|Hin]; [discriminate|]).
  by apply elem_of_nil in Hin.
Defined.

(** ** From a change on disk to the file index *)

Section Wiring.

Lemma endsWith_spec (s suffix : string) :
  endsWith s suffix = true ↔ ∃ pre, bytes_of s = pre ++ bytes_of suffix.
Proof.
  unfold endsWith. rewrite bool_decide_eq_true. split.
  - set (n := (length (bytes_of s) - length (bytes_of suffix))%nat).
    intros Hdrop. exists (take n (bytes_of s)).
    rewrite <- Hdrop. by rewrite take_drop.
  - intros [pre ->]. rewrite length_app.
    replace (length pre + length (bytes_of suffix) - length (bytes_of suffix))%nat
      with (length pre) by lia.
    by rewrite drop_app_length.
Qed.

(** A suffix without slash is looked for in the file name alone. *)
Lemma endsWith_join (dir file suffix : string) :
  "/"%char ∉ bytes_of suffix →
  endsWith (join dir file) suffix = endsWith file suffix.
Proof.
  intros Hno. apply eq_true_iff_eq. rewrite !endsWith_spec.
  unfold join. rewrite !bytes_of_append. change (bytes_of "/") with ["/"%char].
  simpl. split.
  - intros [pre Heq]. apply app_eq_app in Heq as [l [[_ Hsuf]|[_ Hfile]]].
    + exfalso. apply Hno. rewrite Hsuf. apply elem_of_app. right. by left.
    + destruct l as [|c l].
      * exfalso. apply Hno. simpl in Hfile. rewrite <- Hfile. by left.
      * simpl in Hfile. injection Hfile as _ Hfile. by exists l.
  - intros [pre ->]. exists (bytes_of dir ++ "/"%char :: pre).
    by rewrite <- app_assoc.
Qed.

End Wiring.

(** X15 -- from the watcher to the index.  Take a [path] module that
    treats a file name joined to a directory as the file name, and a
    file with the extension [.jsonl] in a directory.  When the timer of
    its path runs and the file name does not end with [history.jsonl],
    the server's listeners enter the file into the index exactly as the
    initial scan does for that file, and [findSessionFile] answers for
    its session id with the path, from the index, whatever the file
    system; the history cache is left alone.  When the file name ends
    with [history.jsonl] the change counts as a change of the history:
    the cache is dropped and the index is left as it was. *)
Theorem watcher_feeds_index `{P : Path.t}
    (st : ClaudeStorage) (dir file : string) :
  plainNames P →
  "/"%char ∉ bytes_of file →
  endsWith file ".jsonl" = true →
  file ≠ ".jsonl" →
  let path := join dir file in
  let st' := foldl onNotification st (Watcher.emitChange path) in
  (endsWith file "history.jsonl" = false →
     st' = withFileIndex st (indexFile dir (fileIndex st) file)
     ∧ historyCache st' = historyCache st
     ∧ ∀ fs, findSessionFile fs st' (basename file ".jsonl") = (Some path, st'))
  ∧ (endsWith file "history.jsonl" = true →
       st' = invalidateHistoryCache st
       ∧ fileIndex st' = fileIndex st).
Proof.
  intros Hplain Hslash Hext Hne path st'. subst st' path.
  unfold Watcher.emitChange.
  rewrite !endsWith_join by (apply (bool_decide_unpack _); vm_compute; exact I).
  rewrite Hext. split; intros Hhist; rewrite Hhist; simpl; [|done].
  rewrite (Hplain dir file Hslash (endsWith_nonempty file Hext) Hne).
  unfold addToFileIndex, indexFile. rewrite Hext. split_and!; [done|done|].
  intros fs. unfold findSessionFile. simpl. by rewrite lookup_insert_eq.
Qed.

Section PathExampleLaws.

Lemma lastSegment_join (dir file : string) :
  "/"%char ∉ bytes_of file → PathExample.lastSegment (join dir file) = file.
Proof.
  intros Hno. unfold PathExample.lastSegment, join.
  rewrite splitSlash_append, (splitSlash_plain file Hno).
  by rewrite last_snoc.
Qed.

Lemma posix_plainNames : plainNames PathExample.posix.
Proof.
  intros dir file Hno _ _. simpl. by rewrite lastSegment_join.
Qed.

End PathExampleLaws.

Lemma watcher_feeds_index_witness :
  let st := Examples.fresh in
  let dir := "/c/projects/-home-me-app" in
  let file := "s1.jsonl" in
  let path := join dir file in
  let st' :=
    foldl onNotification st (Watcher.emitChange (H:=PathExample.posix) path) in
  (endsWith file "history.jsonl" = false →
     st' = withFileIndex st (indexFile dir (fileIndex st) file)
     ∧ historyCache st' = historyCache st
     ∧ ∀ fs, findSessionFile fs st' (basename file ".jsonl") = (Some path, st'))
  ∧ (endsWith file "history.jsonl" = true →
       st' = invalidateHistoryCache st
       ∧ fileIndex st' = fileIndex st).
Proof.
  apply (watcher_feeds_index (P:=PathExample.posix) Examples.fresh
           "/c/projects/-home-me-app" "s1.jsonl").
  - exact posix_plainNames.
  - apply (bool_decide_unpack _). vm_compute. exact I.
  - vm_compute. reflexivity.
  - discriminate.
Defined.

(** A session log whose name ends with [history.jsonl] is taken for the
    history: its change reaches no session stream and does not enter
    the index. *)
Example history_suffix_example :
  Watcher.emitChange (H:=PathExample.posix) "/c/projects/-home-me-app/chat-history.jsonl"
  = [Watcher.HistoryChange]
  ∧ Watcher.emitChange (H:=PathExample.posix) "/c/projects/-home-me-app/s1.jsonl"
    = [Watcher.SessionChange "s1" "/c/projects/-home-me-app/s1.jsonl";
       Watcher.ProjectChange "-home-me-app"]
  ∧ Watcher.emitChange (H:=PathExample.posix) "/c/projects/-home-me-app/notes.txt" = [].
Proof. vm_compute. repeat split; reflexivity. Qed.

(** ** The sessions stream *)

Section KnownSessions.

Import SessionsStream.

Lemma remember_cons known s sessions :
  remember known (s :: sessions)
  = remember (<[Session.id s := Session.timestamp s]> known) sessions.
Proof. reflexivity. Qed.

Lemma remember_lookup_notin sessions known (k : string) :
  k ∉ Session.id <$> sessions → remember known sessions !! k = known !! k.
Proof.
  revert known. induction sessions as [|s sessions IH]; intros known Hk; [done|].
  rewrite fmap_cons in Hk. apply not_elem_of_cons in Hk as [Hne Hk].
  rewrite remember_cons, IH by done. by rewrite lookup_insert_ne.
Qed.

Lemma remember_lookup_in sessions known s :
  NoDup (Session.id <$> sessions) → s ∈ sessions →
  remember known sessions !! Session.id s = Some (Session.timestamp s).
Proof.
  revert known. induction sessions as [|s0 sessions IH]; intros known Hnodup Hs.
  { by apply elem_of_nil in Hs. }
  rewrite fmap_cons in Hnodup. apply NoDup_cons in Hnodup as [Hfresh Hnodup].
  rewrite remember_cons. apply elem_of_cons in Hs as [->|Hs].
  - rewrite remember_lookup_notin by done. apply lookup_insert_eq.
  - by apply IH.
Qed.

Lemma written_update (updates : list Session.t) :
  default [] (if (0 <? length updates)%nat then Some updates else None) = updates.
Proof. by destruct updates. Qed.

Lemma elem_of_newOrUpdated known sessions s :
  s ∈ newOrUpdated known sessions
  ↔ s ∈ sessions ∧ known !! Session.id s ≠ Some (Session.timestamp s).
Proof.
  unfold newOrUpdated. rewrite !list_elem_of_In, filter_In.
  unfold isNewOrUpdated. destruct (known !! Session.id s) as [t|].
  - rewrite negb_true_iff, Z.eqb_neq. split; intros [? ?]; split; congruence.
  - split; intros [? ?]; by split.
Qed.

Lemma newOrUpdated_sublist known sessions :
  newOrUpdated known sessions `sublist_of` sessions.
Proof.
  unfold newOrUpdated. induction sessions as [|s sessions IH]; simpl; [done|].
  destruct (isNewOrUpdated known s); [by apply sublist_skip|by apply sublist_cons].
Qed.

Lemma newOrUpdated_remembered known sessions :
  NoDup (Session.id <$> sessions) →
  newOrUpdated (remember known sessions) sessions = [].
Proof.
  intros Hnodup. apply elem_of_nil_inv.
  intros s [Hs Hne]%elem_of_newOrUpdated.
  by rewrite remember_lookup_in in Hne.
Qed.

End KnownSessions.

Section SessionIds.

Variable JSON_parse_entry : bytes → option HistoryEntry.t.

Lemma getSessions_NoDup fs st :
  NoDup (Session.id <$> (getSessions JSON_parse_entry fs st).1).
Proof.
  rewrite getSessions_sorted_collect, sortWith_perm. apply collectFrom_NoDup.
Qed.

End SessionIds.

(** X16 -- what the sessions stream writes.  A connection starts from
    the session list [prev]; at a history change [getSessions] answers
    [next].  The [sessionsUpdate] event then holds, in the order of
    [next], exactly the sessions of [next] whose id was not in [prev] or
    whose timestamp differs from the one [prev] had for the id; no event
    is written when there is none, so none is written when the list is
    as before.  A second change that finds the same list writes nothing.
    A session of [prev] that is no longer listed is not reported, and
    its id stays known. *)
Theorem sessions_stream_sends_differences
    (JSON_parse_entry : bytes → option HistoryEntry.t)
    (fs1 fs2 : FileSystem) (st1 st2 : ClaudeStorage) :
  let prev := (getSessions JSON_parse_entry fs1 st1).1 in
  let next := (getSessions JSON_parse_entry fs2 st2).1 in
  let known := (SessionsStream.connect prev).2 in
  let update := (SessionsStream.onHistoryChange known next).1 in
  let known' := (SessionsStream.onHistoryChange known next).2 in
  (∀ s,
     s ∈ default [] update
     ↔ s ∈ next
       ∧ ∀ s', s' ∈ prev → Session.id s' = Session.id s →
               Session.timestamp s' ≠ Session.timestamp s)
  ∧ update ≠ Some []
  ∧ default [] update `sublist_of` next
  ∧ (next = prev → update = None)
  ∧ (SessionsStream.onHistoryChange known' next).1 = None
  ∧ (∀ s, s ∈ prev ∨ s ∈ next → is_Some (known' !! Session.id s)).
Proof.
  intros prev next known update known'.
  pose proof (getSessions_NoDup JSON_parse_entry fs1 st1) as Hprev.
  pose proof (getSessions_NoDup JSON_parse_entry fs2 st2) as Hnext.
  fold prev in Hprev. fold next in Hnext.
  assert (∀ s,
            s ∈ SessionsStream.newOrUpdated known next
            ↔ s ∈ next
              ∧ ∀ s', s' ∈ prev → Session.id s' = Session.id s →
                      Session.timestamp s' ≠ Session.timestamp s) as Hdiff.
  { intros s. rewrite elem_of_newOrUpdated. subst known. simpl.
    split; intros [Hs Hne]; (split; [done|]).
    - intros s' Hs' Hid Hts. apply Hne.
      by rewrite <- Hid, <- Hts, remember_lookup_in.
    - destruct (decide (Session.id s ∈ Session.id <$> prev)) as [Hin|Hout].
      + apply list_elem_of_fmap in Hin as (s' & Hid & Hs').
        rewrite Hid, remember_lookup_in by done.
        intros [= Hts]. by apply (Hne s' Hs').
      + by rewrite remember_lookup_notin, lookup_empty. }
  subst update known'. unfold SessionsStream.onHistoryChange. simpl.
  rewrite written_update. split_and!.
  - done.
  - by destruct (SessionsStream.newOrUpdated known next).
  - apply newOrUpdated_sublist.
  - intros Heq.
    assert (SessionsStream.newOrUpdated known next = []) as ->; [|done].
    apply elem_of_nil_inv. intros s [Hs Hne]%Hdiff.
    rewrite Heq in Hs. by apply (Hne s Hs).
  - by rewrite newOrUpdated_remembered.
  - intros s [Hs|Hs].
    + destruct (decide (Session.id s ∈ Session.id <$> next)) as [Hin|Hout].
      * apply list_elem_of_fmap in Hin as (s' & Hid & Hs').
        rewrite Hid, remember_lookup_in by done. by eexists.
      * rewrite remember_lookup_notin by done. subst known. simpl.
        rewrite remember_lookup_in by done. by eexists.
    + rewrite remember_lookup_in by done. by eexists.
Qed.

(** ** Later entries of a listed session *)

Section LaterEntries.

Variable resolve : HistoryEntry.t → option string.

Lemma collectFrom_seen seenIds entries :
  (∀ e sessionId, e ∈ entries → resolve e = Some sessionId → sessionId ∈ seenIds) →
  collectFrom resolve seenIds entries = [].
Proof.
  induction entries as [|entry rest IH]; intros Hseen; [done|]. simpl.
  destruct (resolve entry) as [sessionId|] eqn:Hres.
  - rewrite bool_decide_eq_true_2 by (apply (Hseen entry); [by left|done]).
    apply IH. intros e i He. apply Hseen. by right.
  - apply IH. intros e i He. apply Hseen. by right.
Qed.

Lemma collectFrom_app_known seenIds entries extra :
  (∀ e sessionId,
     e ∈ extra → resolve e = Some sessionId →
     sessionId ∈ seenIds ∨ ∃ e0, e0 ∈ entries ∧ resolve e0 = Some sessionId) →
  collectFrom resolve seenIds (entries ++ extra) = collectFrom resolve seenIds entries.
Proof.
  revert seenIds. induction entries as [|entry rest IH]; intros seenIds Hknown.
  - simpl. apply collectFrom_seen. intros e i He Hres.
    destruct (Hknown e i He Hres) as [?|(e0 & ?%elem_of_nil & _)]; done.
  - simpl. destruct (resolve entry) as [sessionId|] eqn:Hentry.
    + case_bool_decide as Hseen.
      * apply IH. intros e i He Hres.
        destruct (Hknown e i He Hres) as [?|(e0 & [->|He0]%elem_of_cons & Hres0)].
        -- by left.
        -- left. congruence.
        -- right. by exists e0.
      * f_equal. apply IH. intros e i He Hres.
        destruct (Hknown e i He Hres) as [?|(e0 & [->|He0]%elem_of_cons & Hres0)].
        -- left. apply elem_of_union. by right.
        -- left. apply elem_of_union. left. apply elem_of_singleton. congruence.
        -- right. by exists e0.
    + apply IH. intros e i He Hres.
      destruct (Hknown e i He Hres) as [?|(e0 & [->|He0]%elem_of_cons & Hres0)].
      * by left.
      * congruence.
      * right. by exists e0.
Qed.

End LaterEntries.

(** X17 -- later entries of a listed session.  When the history holds
    further entries after [entries], each of them for a session that an
    entry of [entries] already resolves to (or for none), the session
    list is what it is for [entries] alone: a session keeps the
    timestamp and place of its first entry.  The sessions stream of a
    connection that has seen that list writes nothing at such a
    change. *)
Theorem later_entries_change_nothing
    (JSON_parse_entry : bytes → option HistoryEntry.t)
    (fs : FileSystem) (st : ClaudeStorage)
    (entries extra : list HistoryEntry.t) (knownSessions : gmap string Z) :
  let resolve e := truthyName (resolveSessionId fs (projectsDir st) e) in
  historyCache st = Some entries →
  (∀ e sessionId,
     e ∈ extra → resolve e = Some sessionId →
     ∃ e0, e0 ∈ entries ∧ resolve e0 = Some sessionId) →
  let before := (getSessions JSON_parse_entry fs st).1 in
  let after :=
    (getSessions JSON_parse_entry fs
       (withHistoryCache st (Some (entries ++ extra)))).1 in
  after = before
  ∧ (SessionsStream.onHistoryChange
       (SessionsStream.onHistoryChange knownSessions before).2 after).1 = None.
Proof.
  intros resolve Hcache Hknown before after.
  assert (after = before) as Hsame.
  { subst before after. rewrite !getSessions_sorted_collect.
    rewrite (historyEntries_loaded _ fs st entries Hcache).
    rewrite (historyEntries_loaded _ fs (withHistoryCache st (Some (entries ++ extra)))
               (entries ++ extra) eq_refl).
    simpl. f_equal. apply collectFrom_app_known.
    intros e i He Hres. right. by apply (Hknown e i). }
  split; [done|]. rewrite Hsame. unfold SessionsStream.onHistoryChange. simpl.
  rewrite newOrUpdated_remembered; [done|].
  apply getSessions_NoDup.
Qed.

Lemma later_entries_change_nothing_witness :
  let entries :=
    [HistoryEntry.mk (Some "a") "/home/me/web" 10 "first";
     HistoryEntry.mk None "/home/me.app" 55 "fix the build"] in
  let extra :=
    [HistoryEntry.mk (Some "a") "/home/me/web" 99 "again";
     HistoryEntry.mk (Some "middle") "/home/me.app" 120 "and the tests";
     HistoryEntry.mk None "/nowhere" 130 "lost"] in
  let st := withHistoryCache (newStorage "/c") (Some entries) in
  let before := (getSessions Reader.parseEntry ResolverExample.fs st).1 in
  let after :=
    (getSessions Reader.parseEntry ResolverExample.fs
       (withHistoryCache st (Some (entries ++ extra)))).1 in
  after = before
  ∧ (SessionsStream.onHistoryChange
       (SessionsStream.onHistoryChange ∅ before).2 after).1 = None.
Proof.
  apply (later_entries_change_nothing Reader.parseEntry ResolverExample.fs
           (withHistoryCache (newStorage "/c")
              (Some [HistoryEntry.mk (Some "a") "/home/me/web" 10 "first";
                     HistoryEntry.mk None "/home/me.app" 55 "fix the build"]))
           _
           [HistoryEntry.mk (Some "a") "/home/me/web" 99 "again";
            HistoryEntry.mk (Some "middle") "/home/me.app" 120 "and the tests";
            HistoryEntry.mk None "/nowhere" 130 "lost"]
           ∅).
  - reflexivity.
  - intros e sessionId He Hres.
    repeat (apply elem_of_cons in He as [->|He]).
    + exists (HistoryEntry.mk (Some "a") "/home/me/web" 10 "first").
      split; [by left|]. vm_compute in Hres. by vm_compute.
    + exists (HistoryEntry.mk None "/home/me.app" 55 "fix the build").
      split; [right; by left|]. vm_compute in Hres. by vm_compute.
    + vm_compute in Hres. discriminate.
    + by apply elem_of_nil in He.
Defined.

(** ** The session list of the web client *)

Section ClientList.

Import App.

Lemma latest_cons (k : string) (s : Session.t) (sessions : list Session.t) :
  latest k (s :: sessions)
  = match latest k sessions with
    | Some v => Some v
    | None => if String.eqb (Session.id s) k then Some s else None
    end.
Proof.
  unfold latest. simpl. destruct (String.eqb (Session.id s) k).
  - by rewrite last_cons.
  - by destruct (last _).
Qed.

Lemma latest_Some (k : string) (sessions : list Session.t) (s : Session.t) :
  latest k sessions = Some s → s ∈ sessions ∧ Session.id s = k.
Proof.
  induction sessions as [|s0 sessions IH]; [done|]. rewrite latest_cons.
  destruct (latest k sessions) as [v|].
  - intros [= ->]. destruct IH as [Hs Hid]; [done|]. split; [by right|done].
  - destruct (String.eqb_spec (Session.id s0) k) as [Hid|]; [|done].
    intros [= ->]. split; [by left|done].
Qed.

Lemma latest_None (k : string) (sessions : list Session.t) :
  latest k sessions = None ↔ k ∉ Session.id <$> sessions.
Proof.
  induction sessions as [|s0 sessions IH].
  { split; [|done]. by intros _ ?%elem_of_nil. }
  rewrite latest_cons, fmap_cons, not_elem_of_cons, <- IH.
  destruct (latest k sessions) as [v|]; [split; [done|by intros [_ ?]]|].
  destruct (String.eqb_spec (Session.id s0) k) as [Hid|Hid].
  - split; [done|]. by intros [[] _].
  - split; [|done]. intros _. split; [congruence|done].
Qed.

Lemma latest_NoDup (k : string) (sessions : list Session.t) (s : Session.t) :
  NoDup (Session.id <$> sessions) →
  latest k sessions = Some s ↔ s ∈ sessions ∧ Session.id s = k.
Proof.
  intros Hnodup. split; [apply latest_Some|]. intros [Hs <-].
  induction sessions as [|s0 sessions IH]; [by apply elem_of_nil in Hs|].
  rewrite fmap_cons in Hnodup. apply NoDup_cons in Hnodup as [Hfresh Hnodup].
  rewrite latest_cons. apply elem_of_cons in Hs as [->|Hs].
  - apply latest_None in Hfresh as ->. by rewrite String.eqb_refl.
  - by rewrite IH.
Qed.

Lemma mapSet_keys key s (m : list (string * Session.t)) (k : string) :
  k ∈ (mapSet key s m).*1 ↔ k = key ∨ k ∈ m.*1.
Proof.
  induction m as [|[k0 v0] m IH]; simpl.
  - rewrite list_elem_of_singleton. split; [by left|]. intros [?|?%elem_of_nil]; done.
  - destruct (String.eqb_spec k0 key) as [->|Hne]; simpl.
    + rewrite elem_of_cons. tauto.
    + rewrite !elem_of_cons, IH. tauto.
Qed.

Lemma mapSet_NoDup key s (m : list (string * Session.t)) :
  NoDup m.*1 → NoDup (mapSet key s m).*1.
Proof.
  induction m as [|[k0 v0] m IH]; simpl.
  - intros _. apply NoDup_singleton.
  - intros [Hfresh Hnodup]%NoDup_cons.
    destruct (String.eqb_spec k0 key) as [->|Hne]; simpl.
    + by apply NoDup_cons.
    + apply NoDup_cons. split; [|by apply IH].
      rewrite mapSet_keys. intros [?|?]; done.
Qed.

Lemma mapSet_elem key s (m : list (string * Session.t)) (k : string) (v : Session.t) :
  NoDup m.*1 →
  (k, v) ∈ mapSet key s m ↔ (k = key ∧ v = s) ∨ (k ≠ key ∧ (k, v) ∈ m).
Proof.
  induction m as [|[k0 v0] m IH]; simpl.
  - intros _. rewrite list_elem_of_singleton. split.
    + intros [= -> ->]. by left.
    + intros [[-> ->]|[_ ?%elem_of_nil]]; done.
  - intros [Hfresh Hnodup]%NoDup_cons.
    destruct (String.eqb_spec k0 key) as [->|Hne].
    + rewrite !elem_of_cons. split.
      * intros [[= -> ->]|Hin]; [by left|]. right. split; [|by right].
        intros ->. apply Hfresh. by apply (list_elem_of_fmap_2 fst _ (key, v)).
      * intros [[-> ->]|[Hk [[= -> ->]|Hin]]]; [by left|done|by right].
    + rewrite !elem_of_cons, (IH Hnodup). split.
      * intros [[= -> ->]|[[-> ->]|[Hk Hin]]].
        -- right. split; [done|by left].
        -- by left.
        -- right. split; [done|by right].
      * intros [[-> ->]|[Hk [[= -> ->]|Hin]]].
        -- right. by left.
        -- by left.
        -- right. right. by split.
Qed.

Lemma setAll_NoDup (sessions : list Session.t) (m : list (string * Session.t)) :
  NoDup m.*1 → NoDup (setAll m sessions).*1.
Proof.
  revert m. induction sessions as [|s sessions IH]; intros m Hm; [done|].
  apply IH. by apply mapSet_NoDup.
Qed.

(** The entry of a key after [setAll]: the last session set under it,
    or the entry the map had. *)
Lemma setAll_elem (sessions : list Session.t) (m : list (string * Session.t))
    (k : string) (v : Session.t) :
  NoDup m.*1 →
  (k, v) ∈ setAll m sessions
  ↔ latest k sessions = Some v ∨ (latest k sessions = None ∧ (k, v) ∈ m).
Proof.
  revert m. induction sessions as [|s sessions IH]; intros m Hm.
  - simpl. split; [by right|]. by intros [?|[_ ?]].
  - change (setAll m (s :: sessions))
      with (setAll (mapSet (Session.id s) s m) sessions).
    rewrite (IH _ (mapSet_NoDup _ _ _ Hm)), latest_cons, (mapSet_elem _ _ _ _ _ Hm).
    destruct (latest k sessions) as [w|].
    + split; (intros [?|[? _]]; [by left|done]).
    + destruct (String.eqb_spec (Session.id s) k) as [Hid|Hid].
      * split.
        -- intros [?|[_ [[_ ->]|[Hk _]]]]; [done|by left|congruence].
        -- intros [[= ->]|[? _]]; [|done]. right. split; [done|]. by left.
      * split.
        -- intros [?|[_ [[Hk _]|[_ Hin]]]]; [done|congruence|]. by right.
        -- intros [?|[_ Hin]]; [done|]. right. split; [done|]. right.
           split; [congruence|done].
Qed.

Lemma keyed_ids (m : list (string * Session.t)) :
  (∀ k v, (k, v) ∈ m → k = Session.id v) → Session.id <$> m.*2 = m.*1.
Proof.
  induction m as [|[k0 v0] m IH]; intros Hkeyed; [done|]. simpl.
  rewrite (Hkeyed k0 v0) by by left. f_equal. apply IH.
  intros k v Hin. apply Hkeyed. by right.
Qed.

(** The sessions of the map [handleSessionsUpdate] builds. *)
Lemma merged_elem (prev updates : list Session.t) (k : string) (v : Session.t) :
  (k, v) ∈ setAll (setAll [] prev) updates
  ↔ k = Session.id v
    ∧ (latest k updates = Some v
       ∨ (latest k updates = None ∧ latest k prev = Some v)).
Proof.
  rewrite setAll_elem by (apply setAll_NoDup; constructor).
  rewrite setAll_elem by constructor. split.
  - intros [Hu|[Hu [Hp|[_ ?%elem_of_nil]]]]; [| |done].
    + split; [|by left]. by apply latest_Some in Hu as [_ <-].
    + split; [|by right]. by apply latest_Some in Hp as [_ <-].
  - intros [_ [Hu|[Hu Hp]]]; [by left|]. right. split; [done|by left].
Qed.

(** The list [handleSessionsUpdate] returns. *)
Lemma merged_list (prev updates : list Session.t) :
  StronglySorted newerFirst (handleSessionsUpdate prev updates)
  ∧ NoDup (Session.id <$> handleSessionsUpdate prev updates)
  ∧ (∀ s,
       s ∈ handleSessionsUpdate prev updates
       ↔ latest (Session.id s) updates = Some s
         ∨ (latest (Session.id s) updates = None
            ∧ latest (Session.id s) prev = Some s)).
Proof.
  unfold handleSessionsUpdate. cbv zeta.
  assert (∀ s,
            s ∈ (setAll (setAll [] prev) updates).*2
            ↔ latest (Session.id s) updates = Some s
              ∨ (latest (Session.id s) updates = None
                 ∧ latest (Session.id s) prev = Some s)) as Helem.
  { intros s. rewrite list_elem_of_fmap. split.
    - intros ([k v] & -> & Hin). simpl.
      apply merged_elem in Hin as [-> Hin]. done.
    - intros Hs. exists (Session.id s, s). split; [done|].
      by apply merged_elem. }
  split_and!.
  - apply sortWith_sorted.
  - rewrite sortWith_perm, keyed_ids.
    + apply setAll_NoDup, setAll_NoDup. constructor.
    + intros k v Hin. by apply merged_elem in Hin as [? _].
  - intros s. by rewrite elem_of_sortWith.
Qed.

End ClientList.

(** X18 -- the client's merge.  [handleSessionsUpdate] returns a list
    sorted by timestamp, newest first, in which no two sessions have the
    same id.  It holds, for each id, the last session of [updates] with
    that id, and when [updates] has none with the id, the last session
    of the previous list with it: an update replaces the session of its
    id and no session is ever dropped. *)
Theorem handleSessionsUpdate_merges (prev updates : list Session.t) :
  let result := App.handleSessionsUpdate prev updates in
  StronglySorted newerFirst result
  ∧ NoDup (Session.id <$> result)
  ∧ (∀ s,
       s ∈ result
       ↔ latest (Session.id s) updates = Some s
         ∨ (latest (Session.id s) updates = None
            ∧ latest (Session.id s) prev = Some s))
  ∧ (∀ s, s ∈ prev ∨ s ∈ updates → Session.id s ∈ Session.id <$> result).
Proof.
  intros result. subst result.
  destruct (merged_list prev updates) as (Hsorted & Hnodup & Helem).
  split_and!; [done|done|done|].
  intros s Hs.
  assert (∃ v, v ∈ App.handleSessionsUpdate prev updates
               ∧ Session.id v = Session.id s) as (v & Hv & <-).
  { destruct (latest (Session.id s) updates) as [v|] eqn:Hu.
    - exists v. pose proof (latest_Some _ _ _ Hu) as [_ Hid].
      split; [|done]. apply Helem. left. by rewrite Hid.
    - destruct (latest (Session.id s) prev) as [v|] eqn:Hp.
      + exists v. pose proof (latest_Some _ _ _ Hp) as [_ Hid].
        split; [|done]. apply Helem. right. by rewrite Hid.
      + apply latest_None in Hu, Hp. destruct Hs as [Hs|Hs].
        * destruct Hp. by apply list_elem_of_fmap_2.
        * destruct Hu. by apply list_elem_of_fmap_2. }
  by apply list_elem_of_fmap_2.
Qed.

Example handleSessionsUpdate_example :
  let a := Session.mk "a" "first" 10 "/home/me/web" "web" in
  let b := Session.mk "b" "second" 30 "/home/me/web" "web" in
  let a' := Session.mk "a" "first" 50 "/home/me/web" "web" in
  let c := Session.mk "c" "third" 40 "/srv/api" "api" in
  App.handleSessionsUpdate [b; a] [c; a'] = [a'; c; b]
  ∧ App.filteredSessions (App.handleSessionsUpdate [b; a] [c; a']) (Some "/srv/api") = [c]
  ∧ App.filteredSessions [b; a] (Some "") = [b; a].
Proof. vm_compute. repeat split; reflexivity. Qed.

(** ** Server and client together *)

Section Sync.

Lemma NoDup_ids_inj (sessions : list Session.t) (a b : Session.t) :
  NoDup (Session.id <$> sessions) →
  a ∈ sessions → b ∈ sessions → Session.id a = Session.id b → a = b.
Proof.
  induction sessions as [|s sessions IH]; intros Hnodup Ha Hb Hid.
  { by apply elem_of_nil in Ha. }
  rewrite fmap_cons in Hnodup. apply NoDup_cons in Hnodup as [Hfresh Hnodup].
  apply elem_of_cons in Ha as [->|Ha]; apply elem_of_cons in Hb as [->|Hb].
  - done.
  - destruct Hfresh. rewrite Hid. by apply list_elem_of_fmap_2.
  - destruct Hfresh. rewrite <- Hid. by apply list_elem_of_fmap_2.
  - by apply IH.
Qed.

(** What the client shows after the server has compared [next] with
    [prev], for lists without repeated id. *)
Lemma shown_elem (prev next : list Session.t) (s : Session.t) :
  NoDup (Session.id <$> prev) →
  NoDup (Session.id <$> next) →
  (∀ p, p ∈ prev →
        ∃ s', s' ∈ next ∧ Session.id s' = Session.id p
              ∧ (Session.timestamp s' = Session.timestamp p → s' = p)) →
  let updates :=
    SessionsStream.newOrUpdated (SessionsStream.remember ∅ prev) next in
  s ∈ updates ∨ ((Session.id s ∉ Session.id <$> updates) ∧ s ∈ prev) ↔ s ∈ next.
Proof.
  intros Hprev Hnext Hkept updates.
  assert (∀ x, x ∈ next → x ∉ updates →
               ∃ p, p ∈ prev ∧ Session.id p = Session.id x
                    ∧ Session.timestamp p = Session.timestamp x) as Hsilent.
  { intros x Hx Hnot.
    destruct (decide (SessionsStream.remember ∅ prev !! Session.id x
                      = Some (Session.timestamp x))) as [Hknown|Hnew].
    - destruct (decide (Session.id x ∈ Session.id <$> prev)) as [Hin|Hout].
      + apply list_elem_of_fmap in Hin as (p & Hid & Hp). exists p.
        rewrite Hid, remember_lookup_in in Hknown by done.
        split_and!; [done|done|congruence].
      + by rewrite remember_lookup_notin, lookup_empty in Hknown.
    - destruct Hnot. by apply elem_of_newOrUpdated. }
  split.
  - intros [Hs|[Hid Hs]]; [by apply elem_of_newOrUpdated in Hs as [? _]|].
    destruct (Hkept s Hs) as (s' & Hs' & Hid' & Hsame).
    assert (s' ∉ updates) as Hnot.
    { intros Hin. apply Hid. rewrite <- Hid'. by apply list_elem_of_fmap_2. }
    destruct (Hsilent s' Hs' Hnot) as (p & Hp & Hidp & Hts).
    assert (p = s) as -> by (apply (NoDup_ids_inj prev); [done..|congruence]).
    by rewrite <- (Hsame (eq_sym Hts)).
  - intros Hs.
    destruct (decide (SessionsStream.remember ∅ prev !! Session.id s
                      = Some (Session.timestamp s))) as [Hknown|Hnew];
      [|left; by apply elem_of_newOrUpdated].
    assert (s ∉ updates) as Hnot by by intros [_ ?]%elem_of_newOrUpdated.
    right. split.
    + intros (u & Hid & Hu)%list_elem_of_fmap.
      pose proof (proj1 (elem_of_newOrUpdated _ _ _) Hu) as [Hu' _].
      assert (u = s) as -> by (apply (NoDup_ids_inj next); done).
      done.
    + destruct (Hsilent s Hs Hnot) as (p & Hp & Hidp & Hts).
      destruct (Hkept p Hp) as (s' & Hs' & Hid' & Hsame).
      assert (s' = s) as -> by (apply (NoDup_ids_inj next); [done..|congruence]).
      by rewrite (Hsame (eq_sym Hts)).
Qed.

End Sync.

(** X19 -- the client's list follows the server's.  A client holds the
    list [prev] it was sent at the start of the connection; at a history
    change the server computes [next], writes the difference if there is
    one, and the client merges it.  When every session of [prev] is
    still listed in [next] under its id, and is the same session if its
    timestamp is the same, the list the client shows afterwards holds
    exactly the sessions of [next], each once, newest first. *)
Theorem client_list_follows_server
    (JSON_parse_entry : bytes → option HistoryEntry.t)
    (fs1 fs2 : FileSystem) (st1 st2 : ClaudeStorage) :
  let prev := (getSessions JSON_parse_entry fs1 st1).1 in
  let next := (getSessions JSON_parse_entry fs2 st2).1 in
  let known := (SessionsStream.connect prev).2 in
  let shown :=
    match (SessionsStream.onHistoryChange known next).1 with
    | Some updates => App.handleSessionsUpdate prev updates
    | None => prev
    end in
  (∀ p, p ∈ prev →
        ∃ s', s' ∈ next ∧ Session.id s' = Session.id p
              ∧ (Session.timestamp s' = Session.timestamp p → s' = p)) →
  shown ≡ₚ next
  ∧ StronglySorted newerFirst shown.
Proof.
  intros prev next known shown Hkept.
  pose proof (getSessions_NoDup JSON_parse_entry fs1 st1) as Hprev.
  pose proof (getSessions_NoDup JSON_parse_entry fs2 st2) as Hnext.
  fold prev in Hprev. fold next in Hnext.
  pose proof (λ s, shown_elem prev next s Hprev Hnext Hkept) as Helem.
  cbv zeta in Helem. subst shown known.
  unfold SessionsStream.onHistoryChange, SessionsStream.connect. simpl.
  set (updates := SessionsStream.newOrUpdated (SessionsStream.remember ∅ prev) next)
    in *.
  assert (NoDup (Session.id <$> updates)) as Hupdates.
  { apply (sublist_NoDup _ (Session.id <$> next)); [done|].
    apply fmap_sublist, newOrUpdated_sublist. }
  destruct updates as [|u updates'] eqn:Hu.
  - simpl. split.
    + apply NoDup_Permutation; [by eapply NoDup_fmap_1..|].
      intros s. rewrite <- Helem. split; [|by intros [?%elem_of_nil|[_ ?]]].
      intros Hs. right. split; [by intros ?%elem_of_nil|done].
    + subst prev. rewrite getSessions_sorted_collect. apply sortWith_sorted.
  - change (if (0 <? length (u :: updates'))%nat
            then Some (u :: updates') else None)
      with (Some (u :: updates')).
    cbv iota.
    destruct (merged_list prev (u :: updates')) as (Hsorted & Hnodup & Hmerged).
    split; [|done].
    apply NoDup_Permutation; [by eapply NoDup_fmap_1..|].
    intros s. rewrite Hmerged, <- Helem.
    rewrite (latest_NoDup _ _ _ Hupdates), (latest_NoDup _ _ _ Hprev), latest_None.
    tauto.
Qed.

Lemma client_list_follows_server_witness :
  let a := HistoryEntry.mk (Some "a") "/home/me/web" 10 "first" in
  let b := HistoryEntry.mk (Some "b") "/home/me/web" 30 "second" in
  let c := HistoryEntry.mk None "/home/me.app" 55 "fix the build" in
  let st1 := withHistoryCache (newStorage "/c") (Some [a; b]) in
  let st2 := withHistoryCache (newStorage "/c") (Some [a; b; c; a]) in
  let prev := (getSessions Reader.parseEntry ResolverExample.fs st1).1 in
  let next := (getSessions Reader.parseEntry ResolverExample.fs st2).1 in
  let known := (SessionsStream.connect prev).2 in
  let shown :=
    match (SessionsStream.onHistoryChange known next).1 with
    | Some updates => App.handleSessionsUpdate prev updates
    | None => prev
    end in
  shown ≡ₚ next
  ∧ StronglySorted newerFirst shown.
Proof.
  intros a b c st1 st2.
  apply (client_list_follows_server Reader.parseEntry
           ResolverExample.fs ResolverExample.fs st1 st2).
  assert ((getSessions Reader.parseEntry ResolverExample.fs st1).1
          = [sessionOf "b" b; sessionOf "a" a]) as ->
    by (vm_compute; reflexivity).
  assert ((getSessions Reader.parseEntry ResolverExample.fs st2).1
          = [sessionOf "middle" c; sessionOf "b" b; sessionOf "a" a]) as ->
    by (vm_compute; reflexivity).
  intros p Hp. exists p. split_and!; [|done|done].
  apply elem_of_cons in Hp as [->|Hp]; [right; by left|].
  apply elem_of_cons in Hp as [->|Hp]; [right; right; by left|].
  by apply elem_of_nil in Hp.
Defined.

Example client_list_example :
  let a := HistoryEntry.mk (Some "a") "/home/me/web" 10 "first" in
  let b := HistoryEntry.mk (Some "b") "/home/me/web" 30 "second" in
  let c := HistoryEntry.mk None "/home/me.app" 55 "fix the build" in
  let st1 := withHistoryCache (newStorage "/c") (Some [a; b]) in
  let st2 := withHistoryCache (newStorage "/c") (Some [a; b; c; a]) in
  let prev := (getSessions Reader.parseEntry ResolverExample.fs st1).1 in
  let next := (getSessions Reader.parseEntry ResolverExample.fs st2).1 in
  (SessionsStream.onHistoryChange (SessionsStream.connect prev).2 next).1
  = Some [sessionOf "middle" c]
  ∧ App.handleSessionsUpdate prev [sessionOf "middle" c] = next.
Proof. vm_compute. split; reflexivity. Qed.

(** ** Start-up *)

(** X20 -- what [init] leaves.  The two tasks of [init] write different
    fields, so the order in which they finish does not matter.  After
    [init], the history is served from memory: [getProjects] answers with
    the projects of the history as it was read at start-up, against
    whatever the file system has become, and neither it nor
    [getSessions] changes the history cache or the index again; and every
    session log that stood in a listed project directory at start-up is
    resolved by [findSessionFile] from the index, without reading a
    directory. *)
Theorem init_snapshot
    (JSON_parse_entry : bytes → option HistoryEntry.t)
    (fs fs' : FileSystem) (st : ClaudeStorage) :
  let st0 := init JSON_parse_entry fs st in
  st0 = buildFileIndex fs (loadHistoryCache JSON_parse_entry fs st).2
  ∧ getProjects JSON_parse_entry fs' st0
    = ((getProjects JSON_parse_entry fs (invalidateHistoryCache st)).1, st0)
  ∧ (getSessions JSON_parse_entry fs' st0).2 = st0
  ∧ (∀ dirs sid path,
       readdir fs (projectsDir st) = Some dirs →
       sessionLogAt fs (projectsDir st) dirs sid path →
       ∃ p, findSessionFile fs' st0 sid = (Some p, st0)).
Proof.
  intros st0.
  assert (historyCache st0 = Some (loadHistoryCache JSON_parse_entry fs st).1)
    as Hcache.
  { subst st0. unfold init, loadHistoryCache, buildFileIndex.
    destruct (readdir fs (projectsDir st)); simpl;
      by destruct (readFile fs (join (claudeDir st) "history.jsonl")). }
  split_and!.
  - subst st0. unfold init, loadHistoryCache, buildFileIndex.
    destruct (readFile fs (join (claudeDir st) "history.jsonl")) eqn:Hread; simpl;
      destruct (readdir fs (projectsDir st)); simpl; by rewrite ?Hread.
  - unfold getProjects.
    rewrite (historyEntries_loaded _ fs' st0 _ Hcache).
    unfold historyEntries, invalidateHistoryCache, loadHistoryCache. simpl.
    by destruct (readFile fs _).
  - unfold getSessions. by rewrite (historyEntries_loaded _ fs' st0 _ Hcache).
  - intros dirs sid path Hdirs Hlog.
    assert (is_Some (fileIndex st0 !! sid)) as [p Hp].
    { subst st0. unfold init. rewrite loadHistoryCache_fileIndex.
      unfold buildFileIndex. rewrite Hdirs. simpl.
      destruct (indexProject_fold fs (projectsDir st)
                  (List.filter Dirent.isDirectory dirs) (fileIndex st)
                  (Forall_filter_isDirectory dirs)) as (_ & _ & Hcomplete).
      apply (Hcomplete sid path). by apply sessionLogAt_filter. }
    exists p. unfold findSessionFile. by rewrite Hp.
Qed.

Example init_example :
  let st0 := init Reader.parseEntry ResolverExample.fs (newStorage "/c") in
  (getProjects Reader.parseEntry (Examples.fsWith []) st0).1
  = ["/home/me.app"; "/home/me/web"; "/srv/api"]
  ∧ (findSessionFile (Examples.fsWith []) st0 "late").1
    = Some "/c/projects/-home-me-app/late.jsonl".
Proof. vm_compute. split; reflexivity. Qed.

(** ** The conversation stream over a growing log *)

Section LiveTail.

Import ConversationStream.

Variable JSON_parse : bytes → option json.
Variable sessionId path : string.

(** The session is answered from the index with [path]. *)
Let indexed (st : ClaudeStorage) : Prop :=
  truthyName (Some path) = Some path
  ∧ ∀ fs, findSessionFile fs st sessionId = (Some path, st).

Lemma indexed_after fs st fromOffset :
  truthyName (findSessionFile fs st sessionId).1 = Some path →
  indexed (getConversationStream JSON_parse fs st sessionId fromOffset).2.
Proof.
  intros Hpath. rewrite getConversationStream_state. split.
  - by apply (truthyName_idem (findSessionFile fs st sessionId).1).
  - by apply findSessionFile_kept.
Qed.

(** One notification after the file has grown by [chunk]. *)
Lemma tail_step fs st (content chunk : bytes) :
  indexed st →
  stableFile fs path (content ++ chunk) →
  CR ∉ chunk →
  Forall (λ l, halts JSON_parse l = false) (readline chunk) →
  getConversationStream JSON_parse fs st sessionId (byteLength content)
  = (mkStreamResult (concat (emits JSON_parse <$> readline chunk))
       (byteLength (content ++ chunk)), st).
Proof.
  intros [Htruthy Hindex] Hstable Hcr Hall.
  assert (truthyName (findSessionFile fs st sessionId).1 = Some path) as Hpath
    by by rewrite Hindex.
  apply injective_projections.
  - unfold byteLength at 1.
    rewrite (call_at JSON_parse fs st sessionId path (content ++ chunk)
               (length content) Hstable Hpath) by (rewrite length_app; lia).
    rewrite drop_app_length, (passed_all _ _ Hall). simpl. f_equal.
    pose proof (consumedBy_readline chunk Hcr).
    unfold byteLength in *. rewrite length_app. lia.
  - rewrite getConversationStream_state. by rewrite Hindex.
Qed.

Lemma serve_cons (changed : string) (fs : FileSystem)
    (changes : list (string * FileSystem)) (c : connection) (st : ClaudeStorage) :
  serve JSON_parse sessionId ((changed, fs) :: changes) (c, st)
  = serve JSON_parse sessionId changes
      (onSessionChange JSON_parse sessionId changed fs c st).
Proof. reflexivity. Qed.

Lemma onSessionChange_grown fs st (content chunk : bytes) (c : connection) :
  indexed st →
  offset c = byteLength content →
  stableFile fs path (content ++ chunk) →
  CR ∉ chunk →
  Forall (λ l, halts JSON_parse l = false) (readline chunk) →
  ∃ c',
    onSessionChange JSON_parse sessionId sessionId fs c st = (c', st)
    ∧ offset c' = byteLength (content ++ chunk)
    ∧ concat (written c')
      = concat (written c) ++ concat (emits JSON_parse <$> readline chunk).
Proof.
  intros Hst Hoffset Hstable Hcr Hall. unfold onSessionChange.
  rewrite String.eqb_refl. simpl.
  rewrite Hoffset, (tail_step fs st content chunk Hst Hstable Hcr Hall). simpl.
  eexists. split; [done|]. simpl. split; [done|].
  destruct (concat (emits JSON_parse <$> readline chunk)) as [|m msgs]; simpl.
  - by rewrite app_nil_r.
  - rewrite concat_app. simpl. by rewrite app_nil_r.
Qed.

Lemma serve_grows (changes : list (FileSystem * bytes)) :
  ∀ (content : bytes) (c : connection) (st : ClaudeStorage),
    indexed st →
    offset c = byteLength content →
    grows JSON_parse path content changes →
    let chunks := snd <$> changes in
    let served :=
      serve JSON_parse sessionId ((λ change, (sessionId, change.1)) <$> changes)
        (c, st) in
    offset served.1 = byteLength (content ++ concat chunks)
    ∧ concat (written served.1)
      = concat (written c)
        ++ concat ((λ chunk, concat (emits JSON_parse <$> readline chunk)) <$> chunks)
    ∧ served.2 = st.
Proof.
  induction changes as [|[fs chunk] changes IH];
    intros content c st Hst Hoffset Hgrows.
  { simpl. by rewrite !app_nil_r. }
  destruct Hgrows as (Hstable & Hcr & Hall & Hrest).
  destruct (onSessionChange_grown fs st content chunk c Hst Hoffset Hstable Hcr Hall)
    as (c' & Hstep & Hoffset' & Hwritten').
  destruct (IH (content ++ chunk) c' st Hst Hoffset' Hrest) as (Hoff & Hwritten & Hstate).
  rewrite !fmap_cons, serve_cons. cbn [fst snd]. rewrite Hstep.
  cbv zeta in Hoff, Hwritten, Hstate. cbv zeta.
  split_and!.
  - rewrite Hoff. simpl. by rewrite <- app_assoc.
  - rewrite Hwritten, Hwritten'. simpl. by rewrite <- app_assoc.
  - done.
Qed.

(** The lines of whole-line chunks put together. *)
Lemma readline_chunks (content : bytes) (chunks : list bytes) :
  CR ∉ content → wholeLines content →
  Forall (λ chunk, (CR ∉ chunk) ∧ wholeLines chunk) chunks →
  readline (content ++ concat chunks)
  = readline content ++ concat (readline <$> chunks).
Proof.
  intros Hcr Hwhole Hchunks. revert content Hcr Hwhole.
  induction Hchunks as [|chunk chunks [Hcr' Hwhole'] _ IH]; intros content Hcr Hwhole.
  { simpl. by rewrite !app_nil_r. }
  simpl. rewrite app_assoc, IH.
  - by rewrite (readline_app content chunk Hcr Hwhole), <- app_assoc.
  - intros [?|?]%elem_of_app; done.
  - destruct Hwhole' as [->|Hlast]; [by rewrite app_nil_r|].
    right. apply last_Some in Hlast as [x ->]. by rewrite app_assoc, last_snoc.
Qed.

Lemma grows_chunks (changes : list (FileSystem * bytes)) :
  ∀ content : bytes,
    grows JSON_parse path content changes →
    Forall wholeLines (snd <$> changes) →
    let chunks := snd <$> changes in
    Forall (λ chunk, (CR ∉ chunk) ∧ wholeLines chunk) chunks
    ∧ Forall (λ l, halts JSON_parse l = false) (concat (readline <$> chunks))
    ∧ concat ((λ chunk, concat (emits JSON_parse <$> readline chunk)) <$> chunks)
      = concat (emits JSON_parse <$> concat (readline <$> chunks)).
Proof.
  induction changes as [|[fs chunk] changes IH]; intros content Hgrows Hwholes.
  { by split_and!. }
  destruct Hgrows as (_ & Hcr & Hall & Hrest).
  rewrite fmap_cons in Hwholes. apply Forall_cons in Hwholes as [Hwhole Hwholes].
  destruct (IH (content ++ chunk) Hrest Hwholes) as (H1 & H2 & H3).
  cbv zeta in *. rewrite !fmap_cons. simpl. split_and!.
  - by constructor.
  - by apply Forall_app.
  - by rewrite fmap_app, concat_app, H3.
Qed.

End LiveTail.

(** X21 -- the live tail delivers every record once.  A connection to
    the conversation stream is opened at offset 0 on a session log
    without carriage return whose lines all pass the stream reader; the
    log then grows by chunks of such lines, and the handler runs at each
    change, one run after the other.  Then the offset of the connection
    is the size of the file after the last change, and the events
    written hold, in order, the user and assistant records of the first
    content followed by those of each chunk: no record twice and none
    left out.  When the first content and every chunk end with a line
    feed (or are empty), this is what a single read of the final file
    from offset 0 returns.  A change of another session leaves the
    connection as it is. *)
Theorem live_tail_delivers_each_record_once
    (JSON_parse : bytes → option json) (fs0 : FileSystem) (st : ClaudeStorage)
    (sessionId path : string) (content : bytes)
    (changes : list (FileSystem * bytes)) :
  truthyName (findSessionFile fs0 st sessionId).1 = Some path →
  stableFile fs0 path content →
  CR ∉ content →
  Forall (λ l, halts JSON_parse l = false) (readline content) →
  grows JSON_parse path content changes →
  let chunks := snd <$> changes in
  let start := ConversationStream.connect JSON_parse fs0 st sessionId 0 in
  let served :=
    ConversationStream.serve JSON_parse sessionId
      ((λ change, (sessionId, change.1)) <$> changes) start in
  ConversationStream.offset served.1 = byteLength (content ++ concat chunks)
  ∧ concat (ConversationStream.written served.1)
    = concat (emits JSON_parse <$> readline content)
      ++ concat ((λ chunk, concat (emits JSON_parse <$> readline chunk)) <$> chunks)
  ∧ (wholeLines content →
     Forall wholeLines chunks →
     ∀ fs, stableFile fs path (content ++ concat chunks) →
       concat (ConversationStream.written served.1)
       = messages (getConversationStream JSON_parse fs served.2 sessionId 0).1)
  ∧ (∀ other fs c st',
       other ≠ sessionId →
       ConversationStream.onSessionChange JSON_parse sessionId other fs c st'
       = (c, st')).
Proof.
  intros Hpath Hstable Hcr Hall Hgrows chunks start served.
  pose proof (indexed_after JSON_parse sessionId path fs0 st 0 Hpath) as Hindexed.
  assert (start
          = (ConversationStream.mk (byteLength content)
               [concat (emits JSON_parse <$> readline content)],
             (getConversationStream JSON_parse fs0 st sessionId 0).2)) as Hstart.
  { subst start. unfold ConversationStream.connect.
    pose proof (call_at JSON_parse fs0 st sessionId path content 0 Hstable Hpath
                  ltac:(lia)) as Hcall.
    change (Z.of_nat 0) with 0 in Hcall.
    destruct (getConversationStream JSON_parse fs0 st sessionId 0) as [r st'].
    simpl in *. subst r. simpl. rewrite drop_0, (passed_all _ _ Hall).
    do 2 f_equal. pose proof (consumedBy_readline content Hcr). lia. }
  destruct (serve_grows JSON_parse sessionId path changes content start.1 start.2)
    as (Hoffset & Hwritten & Hstate).
  { by rewrite Hstart. }
  { by rewrite Hstart. }
  { done. }
  rewrite <- surjective_pairing in Hoffset, Hwritten, Hstate.
  fold served in Hoffset, Hwritten, Hstate. fold chunks in Hoffset, Hwritten.
  rewrite Hstart in Hwritten. simpl in Hwritten. rewrite app_nil_r in Hwritten.
  split_and!; [done|done| |].
  - intros Hwhole Hwholes fs Hfinal.
    destruct (grows_chunks JSON_parse path changes content Hgrows Hwholes)
      as (Hchunks & Hpass & Hsame).
    fold chunks in Hchunks, Hpass, Hsame.
    assert (truthyName (findSessionFile fs served.2 sessionId).1 = Some path)
      as Hpath'.
    { rewrite Hstate, Hstart. simpl. destruct Hindexed as [Htruthy Hindex].
      by rewrite Hindex. }
    pose proof (call_at JSON_parse fs served.2 sessionId path
                  (content ++ concat chunks) 0 Hfinal Hpath' ltac:(lia)) as Hcall.
    change (Z.of_nat 0) with 0 in Hcall. rewrite Hcall, drop_0. simpl.
    rewrite (readline_chunks content chunks Hcr Hwhole Hchunks).
    rewrite passed_all by (by apply Forall_app).
    by rewrite Hwritten, Hsame, fmap_app, concat_app.
  - intros other fs c st' Hother. unfold ConversationStream.onSessionChange.
    by destruct (String.eqb_spec other sessionId).
Qed.

Lemma live_tail_delivers_each_record_once_witness :
  let content := Examples.written [Examples.userLine] in
  let chunk1 := Examples.written [Examples.summaryLine; Examples.assistantLine] in
  let chunk2 := Examples.written [Examples.userLine] in
  let changes :=
    [(Examples.fsWith (content ++ chunk1), chunk1);
     (Examples.fsWith ((content ++ chunk1) ++ chunk2), chunk2)] in
  let chunks := snd <$> changes in
  let start :=
    ConversationStream.connect Reader.parse (Examples.fsWith content)
      Examples.fresh "s1" 0 in
  let served :=
    ConversationStream.serve Reader.parse "s1"
      ((λ change, ("s1", change.1)) <$> changes) start in
  ConversationStream.offset served.1 = byteLength (content ++ concat chunks)
  ∧ concat (ConversationStream.written served.1)
    = concat (emits Reader.parse <$> readline content)
      ++ concat ((λ chunk, concat (emits Reader.parse <$> readline chunk)) <$> chunks)
  ∧ (wholeLines content →
     Forall wholeLines chunks →
     ∀ fs, stableFile fs Examples.sessionPath (content ++ concat chunks) →
       concat (ConversationStream.written served.1)
       = messages (getConversationStream Reader.parse fs served.2 "s1" 0).1)
  ∧ (∀ other fs c st',
       other ≠ "s1" →
       ConversationStream.onSessionChange Reader.parse "s1" other fs c st'
       = (c, st')).
Proof.
  intros content chunk1 chunk2 changes.
  apply (live_tail_delivers_each_record_once Reader.parse (Examples.fsWith content)
           Examples.fresh "s1" Examples.sessionPath content changes).
  - vm_compute. reflexivity.
  - apply fsWith_stable.
  - apply (bool_decide_unpack _). vm_compute. exact I.
  - apply (bool_decide_unpack _). vm_compute. exact I.
  - simpl. split_and!.
    + apply fsWith_stable.
    + apply (bool_decide_unpack _). vm_compute. exact I.
    + apply (bool_decide_unpack _). vm_compute. exact I.
    + apply fsWith_stable.
    + apply (bool_decide_unpack _). vm_compute. exact I.
    + apply (bool_decide_unpack _). vm_compute. exact I.
    + exact I.
Defined.

Example live_tail_example :
  let content := Examples.written [Examples.userLine] in
  let chunk1 := Examples.written [Examples.summaryLine; Examples.assistantLine] in
  let chunk2 := Examples.written [Examples.userLine] in
  let start :=
    ConversationStream.connect Reader.parse (Examples.fsWith content)
      Examples.fresh "s1" 0 in
  let served :=
    ConversationStream.serve Reader.parse "s1"
      [("s1", Examples.fsWith (content ++ chunk1));
       ("s2", Examples.fsWith (content ++ chunk1 ++ chunk2));
       ("s1", Examples.fsWith (content ++ chunk1 ++ chunk2));
       ("s1", Examples.fsWith (content ++ chunk1 ++ chunk2))] start in
  ConversationStream.written served.1
  = [[Examples.userMsg]; [Examples.assistantMsg]; [Examples.userMsg]].
Proof. vm_compute. reflexivity. Qed.
